(** * The repair-shop store of [src/app/page.tsx], embedded in Rocq

    The store keeps four collections (customers, technicians, devices,
    tickets) in memory, mirrors them into one [localStorage] record and
    imports/exports them as JSON text.  TypeScript types are erased at run
    time and [importAll] stores whatever [JSON.parse] returns, so the
    embedding works on run-time JavaScript values: the part of the value
    universe that JSON text and the page's object literals can build.
    What the environment supplies, the identifier drawn by
    [crypto.randomUUID()] and the reading of the clock, is an argument of
    the call that uses it. *)

From Stdlib Require Import List NArith ZArith Lia Bool Ascii DecimalPos DecimalN.
From Stdlib Require String.
Import ListNotations.
Import String.StringSyntax.

#[local] Open Scope string_scope.
#[local] Open Scope list_scope.

Set Implicit Arguments.

(* ================================================================= *)
(** ** JavaScript strings and values *)

(** A JavaScript string is a sequence of UTF-16 code units. *)
Abbreviation char16 := N (only parsing).
Abbreviation jsstring := (list N) (only parsing).

(** Source literals are ASCII; [js] turns one into its code units. *)
Definition js (s : String.string) : jsstring :=
  map N_of_ascii (String.list_ascii_of_string s).

Definition str_eqb (a b : jsstring) : bool :=
  if list_eq_dec N.eq_dec a b then true else false.

(** Numbers.  The store never computes with a number: it only reads one from
    JSON text and prints it back.  A finite number is kept in the form
    [Number::toString] works from: the significant decimal digits [ds] (no
    zero at either end, empty for zero) and the position [n] of the decimal
    point, the value being [0.d1...dk * 10^n].  Rounding of a literal to the
    nearest binary64 value (beyond 15 significant digits, or beyond the
    binary64 range) is not modelled. *)
Inductive number :=
| NaN
| Infinity (neg : bool)
| Finite (neg : bool) (ds : list N) (n : Z).

#[local] Unset Elimination Schemes.
Inductive value :=
| VUndefined
| VNull
| VBool (b : bool)
| VNum (x : number)
| VStr (s : jsstring)
| VArr (items : list value)
| VObj (props : list (jsstring * value)).
#[local] Set Elimination Schemes.

(** Thrown values.  Both kinds are [Error] objects carrying a string
    [message]. *)
Inductive exn :=
| SyntaxError (msg : jsstring)
| TypeError (msg : jsstring).

Definition message (e : exn) : jsstring :=
  match e with SyntaxError m => m | TypeError m => m end.

(** Evaluation that may throw. *)
Inductive result (A : Type) :=
| Ok (a : A)
| Throw (e : exn).
Arguments Ok {A} a.
Arguments Throw {A} e.

Definition bind {A B} (r : result A) (k : A -> result B) : result B :=
  match r with Ok a => k a | Throw e => Throw e end.

Notation "x <- e ;; k" := (bind e (fun x => k))
  (at level 61, e at next level, right associativity).

Fixpoint mapM {A B} (f : A -> result B) (l : list A) : result (list B) :=
  match l with
  | [] => Ok []
  | a :: l' => b <- f a ;; bs <- mapM f l' ;; Ok (b :: bs)
  end.

Fixpoint filterM {A} (f : A -> result bool) (l : list A) : result (list A) :=
  match l with
  | [] => Ok []
  | a :: l' =>
      keep <- f a ;; rest <- filterM f l' ;;
      Ok (if keep then a :: rest else rest)
  end.

(* ================================================================= *)
(** ** Objects: ordered own properties *)

(** An object is the list of its own properties in creation order; a key
    occurs once.  (The engine lists keys that look like array indices first;
    that reordering is not modelled: the keys the page reads and writes are
    identifiers.) *)

Fixpoint obj_lookup (k : jsstring) (o : list (jsstring * value)) : option value :=
  match o with
  | [] => None
  | (k', v) :: o' => if str_eqb k k' then Some v else obj_lookup k o'
  end.

(** [CreateDataProperty]: an existing key keeps its place and takes the new
    value, a new key goes last. *)
Fixpoint obj_set (k : jsstring) (v : value) (o : list (jsstring * value))
  : list (jsstring * value) :=
  match o with
  | [] => [(k, v)]
  | (k', v') :: o' =>
      if str_eqb k k' then (k, v) :: o' else (k', v') :: obj_set k v o'
  end.

Definition obj_assign (target src : list (jsstring * value))
  : list (jsstring * value) :=
  fold_left (fun acc kv => obj_set (fst kv) (snd kv) acc) src target.

Definition keys (o : list (jsstring * value)) : list jsstring := map fst o.

(** Property read [v.k] for the keys this page reads ([id], [status],
    [customers], ...): none of them is defined on a built-in prototype, so
    the read is the own property or [undefined]; reading from [null] or
    [undefined] throws. *)
Definition get (v : value) (k : jsstring) : result value :=
  match v with
  | VUndefined =>
      Throw (TypeError (js "Cannot read properties of undefined (reading '" ++ k ++ js "')"))
  | VNull =>
      Throw (TypeError (js "Cannot read properties of null (reading '" ++ k ++ js "')"))
  | VObj o => Ok (match obj_lookup k o with Some x => x | None => VUndefined end)
  | _ => Ok VUndefined
  end.

(** Optional chaining [v?.k]. *)
Definition get_opt (v : value) (k : jsstring) : result value :=
  match v with
  | VUndefined | VNull => Ok VUndefined
  | _ => get v k
  end.

(** Nullish coalescing [a ?? b]. *)
Definition nullish (a b : value) : value :=
  match a with
  | VUndefined | VNull => b
  | _ => a
  end.

Definition is_zero (x : number) : bool :=
  match x with Finite _ [] _ => true | _ => false end.

Definition num_eqb (x y : number) : bool :=
  match x, y with
  | Finite s ds n, Finite s' ds' n' =>
      (is_zero x && is_zero y)
      || (Bool.eqb s s' && str_eqb ds ds' && Z.eqb n n')
  | Infinity s, Infinity s' => Bool.eqb s s'
  | _, _ => false
  end.

(** Strict equality [a === b].  Two objects (or arrays) are equal only when
    they are the same allocation; the model keeps no addresses, and the
    comparisons of this page relate values held by different objects of the
    state, which never share an allocation: the answer is [false]. *)
Definition strict_eq (a b : value) : bool :=
  match a, b with
  | VUndefined, VUndefined => true
  | VNull, VNull => true
  | VBool x, VBool y => Bool.eqb x y
  | VNum x, VNum y => num_eqb x y
  | VStr x, VStr y => str_eqb x y
  | _, _ => false
  end.

(** [ToBoolean]. *)
Definition truthy (v : value) : bool :=
  match v with
  | VUndefined | VNull => false
  | VBool b => b
  | VNum NaN => false
  | VNum x => negb (is_zero x)
  | VStr [] => false
  | _ => true
  end.

(** Decimal digits, most significant first, to and from the numerals of the
    standard library. *)
Fixpoint uint_digits (u : Decimal.uint) : list N :=
  match u with
  | Decimal.Nil => []
  | Decimal.D0 u' => 0%N :: uint_digits u'
  | Decimal.D1 u' => 1%N :: uint_digits u'
  | Decimal.D2 u' => 2%N :: uint_digits u'
  | Decimal.D3 u' => 3%N :: uint_digits u'
  | Decimal.D4 u' => 4%N :: uint_digits u'
  | Decimal.D5 u' => 5%N :: uint_digits u'
  | Decimal.D6 u' => 6%N :: uint_digits u'
  | Decimal.D7 u' => 7%N :: uint_digits u'
  | Decimal.D8 u' => 8%N :: uint_digits u'
  | Decimal.D9 u' => 9%N :: uint_digits u'
  end.

Definition digit_uint (d : N) (u : Decimal.uint) : Decimal.uint :=
  (if d =? 0 then Decimal.D0 u
   else if d =? 1 then Decimal.D1 u
   else if d =? 2 then Decimal.D2 u
   else if d =? 3 then Decimal.D3 u
   else if d =? 4 then Decimal.D4 u
   else if d =? 5 then Decimal.D5 u
   else if d =? 6 then Decimal.D6 u
   else if d =? 7 then Decimal.D7 u
   else if d =? 8 then Decimal.D8 u
   else Decimal.D9 u)%N.

Fixpoint digits_uint (ds : list N) : Decimal.uint :=
  match ds with
  | [] => Decimal.Nil
  | d :: ds' => digit_uint d (digits_uint ds')
  end.

Definition digit_chars (ds : list N) : jsstring := map (N.add 48) ds.

(** A natural number in decimal. *)
Definition dec (n : N) : jsstring := digit_chars (uint_digits (N.to_uint n)).

(** Own enumerable properties, as object spread [{...v}] copies them
    ([CopyDataProperties]): an array or a string gives its indices. *)
Fixpoint indexed (i : N) (l : list value) : list (jsstring * value) :=
  match l with
  | [] => []
  | v :: l' => (dec i, v) :: indexed (N.succ i) l'
  end.

Definition own_props (v : value) : list (jsstring * value) :=
  match v with
  | VObj o => o
  | VArr l => indexed 0%N l
  | VStr s => indexed 0%N (map (fun c => VStr [c]) s)
  | _ => []
  end.

(** [{ ...target, ...v }] continued: copy the own properties of [v] over
    the object under construction. *)
Definition spread (target : list (jsstring * value)) (v : value)
  : list (jsstring * value) :=
  obj_assign target (own_props v).

Definition is_lead (c : char16) : bool := (0xD800 <=? c)%N && (c <=? 0xDBFF)%N.
Definition is_trail (c : char16) : bool := (0xDC00 <=? c)%N && (c <=? 0xDFFF)%N.

(** The string iterator yields code points: a surrogate pair is one item. *)
Fixpoint code_points (s : jsstring) : list jsstring :=
  match s with
  | [] => []
  | c :: s' =>
      match s' with
      | d :: s'' =>
          if is_lead c && is_trail d then [c; d] :: code_points s''
          else [c] :: code_points s'
      | [] => [[c]]
      end
  end.

(** Array spread [[...v]]: only arrays and strings are iterable here. *)
Definition iterate (v : value) : result (list value) :=
  match v with
  | VArr l => Ok l
  | VStr s => Ok (map VStr (code_points s))
  | _ => Throw (TypeError (js "value is not iterable"))
  end.

(** The receiver of [.map], [.filter] and [.find]: a non-array value of
    this universe has no callable property of that name. *)
Definition as_array (v : value) (method : jsstring) : result (list value) :=
  match v with
  | VArr l => Ok l
  | VUndefined | VNull => x <- get v method ;; Ok []
  | _ => Throw (TypeError (method ++ js " is not a function"))
  end.

(* ================================================================= *)
(** ** Number::toString *)

Definition exponent_part (e : Z) : jsstring :=
  [101%N] ++ (if (e <? 0)%Z then [45%N] else [43%N]) ++ dec (Z.abs_N e).

Definition finite_to_string (ds : list N) (n : Z) : jsstring :=
  let k := Z.of_nat (length ds) in
  if ((k <=? n) && (n <=? 21))%Z then
    digit_chars ds ++ repeat 48%N (Z.to_nat (n - k))
  else if ((0 <? n) && (n <=? 21))%Z then
    digit_chars (firstn (Z.to_nat n) ds) ++ [46%N]
      ++ digit_chars (skipn (Z.to_nat n) ds)
  else if ((-6 <? n) && (n <=? 0))%Z then
    js "0." ++ repeat 48%N (Z.to_nat (- n)) ++ digit_chars ds
  else
    match ds with
    | [] => []
    | [d] => digit_chars [d] ++ exponent_part (n - 1)
    | d :: rest =>
        digit_chars [d] ++ [46%N] ++ digit_chars rest ++ exponent_part (n - 1)
    end.

Definition number_to_string (x : number) : jsstring :=
  match x with
  | NaN => js "NaN"
  | Infinity false => js "Infinity"
  | Infinity true => js "-Infinity"
  | Finite _ [] _ => js "0"
  | Finite neg ds n => (if neg then [45%N] else []) ++ finite_to_string ds n
  end.

(* ================================================================= *)
(** ** JSON.stringify *)

Definition hex_char (d : N) : char16 :=
  if (d <? 10)%N then (48 + d)%N else (87 + d)%N.

Definition unicode_escape (c : char16) : jsstring :=
  [92%N; 117%N; hex_char ((c / 4096) mod 16); hex_char ((c / 256) mod 16);
   hex_char ((c / 16) mod 16); hex_char (c mod 16)].

(** One code unit of [QuoteJSONString] that is not part of a surrogate
    pair. *)
Definition quote_unit (c : char16) : jsstring :=
  if (c =? 8)%N then js "\b"
  else if (c =? 9)%N then js "\t"
  else if (c =? 10)%N then js "\n"
  else if (c =? 12)%N then js "\f"
  else if (c =? 13)%N then js "\r"
  else if (c =? 34)%N then [92%N; 34%N]
  else if (c =? 92)%N then [92%N; 92%N]
  else if (c <? 32)%N || is_lead c || is_trail c then unicode_escape c
  else [c].

Fixpoint quote_chars (s : jsstring) : jsstring :=
  match s with
  | [] => []
  | c :: s' =>
      match s' with
      | d :: s'' =>
          if is_lead c && is_trail d then c :: d :: quote_chars s''
          else quote_unit c ++ quote_chars s'
      | [] => quote_unit c
      end
  end.

Definition quote (s : jsstring) : jsstring := [34%N] ++ quote_chars s ++ [34%N].

Fixpoint join (sep : jsstring) (parts : list jsstring) : jsstring :=
  match parts with
  | [] => []
  | [p] => p
  | p :: rest => p ++ sep ++ join sep rest
  end.

Definition spaces (n : nat) : jsstring := repeat 32%N n.

(** The layout shared by [SerializeJSONArray] and [SerializeJSONObject]:
    [indent] is the indentation of the enclosing line, [gap] the step. *)
Definition bracket (open close : char16) (gap indent : nat)
  (parts : list jsstring) : jsstring :=
  match parts with
  | [] => [open; close]
  | _ =>
      match gap with
      | O => [open] ++ join [44%N] parts ++ [close]
      | _ =>
          [open; 10%N] ++ spaces (indent + gap)
            ++ join ([44%N; 10%N] ++ spaces (indent + gap)) parts
            ++ [10%N] ++ spaces indent ++ [close]
      end
  end.

Definition colon (gap : nat) : jsstring :=
  match gap with O => [58%N] | _ => [58%N; 32%N] end.

(** [SerializeJSONProperty]; [None] is the result [undefined].  No value of
    this universe has a callable [toJSON]. *)
Fixpoint ser (gap indent : nat) (v : value) : option jsstring :=
  match v with
  | VUndefined => None
  | VNull => Some (js "null")
  | VBool true => Some (js "true")
  | VBool false => Some (js "false")
  | VNum (Finite s ds n) => Some (number_to_string (Finite s ds n))
  | VNum _ => Some (js "null")
  | VStr s => Some (quote s)
  | VArr items =>
      Some (bracket 91%N 93%N gap indent
              (map (fun x =>
                      match ser gap (indent + gap) x with
                      | Some t => t
                      | None => js "null"
                      end) items))
  | VObj props =>
      Some (bracket 123%N 125%N gap indent
              (flat_map (fun kv =>
                           match ser gap (indent + gap) (snd kv) with
                           | Some t => [quote (fst kv) ++ colon gap ++ t]
                           | None => []
                           end) props))
  end.

(** [JSON.stringify(v, null, gap)]. *)
Definition JSON_stringify (gap : nat) (v : value) : option jsstring :=
  ser gap 0 v.

(* ================================================================= *)
(** ** JSON.parse *)

Inductive parsed (A : Type) :=
| Parsed (a : A) (rest : jsstring)
| NoParse
| OutOfFuel.
Arguments Parsed {A} a rest.
Arguments NoParse {A}.
Arguments OutOfFuel {A}.

Definition is_ws (c : char16) : bool :=
  ((c =? 9) || (c =? 10) || (c =? 13) || (c =? 32))%N.

Fixpoint skip_ws (t : jsstring) : jsstring :=
  match t with
  | c :: t' => if is_ws c then skip_ws t' else t
  | [] => []
  end.

(** The text after the expected character [c], if it comes next. *)
Definition expect (c : char16) (t : jsstring) : option jsstring :=
  match t with
  | x :: r => if (x =? c)%N then Some r else None
  | [] => None
  end.

Fixpoint strip_prefix (p t : jsstring) : option jsstring :=
  match p with
  | [] => Some t
  | c :: p' =>
      match expect c t with
      | Some r => strip_prefix p' r
      | None => None
      end
  end.

Definition hex_val (c : char16) : option N :=
  (if (48 <=? c) && (c <=? 57) then Some (c - 48)
   else if (65 <=? c) && (c <=? 70) then Some (c - 55)
   else if (97 <=? c) && (c <=? 102) then Some (c - 87)
   else None)%N.

Definition unescape (e : char16) : option char16 :=
  (if e =? 34 then Some 34
   else if e =? 92 then Some 92
   else if e =? 47 then Some 47
   else if e =? 98 then Some 8
   else if e =? 102 then Some 12
   else if e =? 110 then Some 10
   else if e =? 114 then Some 13
   else if e =? 116 then Some 9
   else None)%N.

(** The characters of a string literal, after its opening quote, up to and
    including the closing quote. *)
Fixpoint parse_chars (t : jsstring) : option (jsstring * jsstring) :=
  match t with
  | [] => None
  | c :: t' =>
      if (c =? 34)%N then Some ([], t')
      else if (c =? 92)%N then
        match t' with
        | [] => None
        | e :: t'' =>
            if (e =? 117)%N then
              match t'' with
              | h1 :: h2 :: h3 :: h4 :: t3 =>
                  match hex_val h1, hex_val h2, hex_val h3, hex_val h4 with
                  | Some a, Some b, Some c', Some d =>
                      match parse_chars t3 with
                      | Some (s, r) =>
                          Some ((a * 4096 + b * 256 + c' * 16 + d)%N :: s, r)
                      | None => None
                      end
                  | _, _, _, _ => None
                  end
              | _ => None
              end
            else
              match unescape e with
              | Some u =>
                  match parse_chars t'' with
                  | Some (s, r) => Some (u :: s, r)
                  | None => None
                  end
              | None => None
              end
        end
      else if (c <? 32)%N then None
      else
        match parse_chars t' with
        | Some (s, r) => Some (c :: s, r)
        | None => None
        end
  end.

Definition is_digit (c : char16) : bool := ((48 <=? c) && (c <=? 57))%N.

Fixpoint take_digits (t : jsstring) : list N * jsstring :=
  match t with
  | c :: t' =>
      if is_digit c then
        let (ds, r) := take_digits t' in ((c - 48)%N :: ds, r)
      else ([], t)
  | [] => ([], [])
  end.

Fixpoint strip_leading (ds : list N) (p : Z) : list N * Z :=
  match ds with
  | d :: ds' => if (d =? 0)%N then strip_leading ds' (p - 1)%Z else (ds, p)
  | [] => ([], p)
  end.

Fixpoint drop_zeros (ds : list N) : list N :=
  match ds with
  | d :: ds' => if (d =? 0)%N then drop_zeros ds' else ds
  | [] => []
  end.

Definition strip_trailing (ds : list N) : list N := rev (drop_zeros (rev ds)).

(** The number whose digits are [ds] with the decimal point after the
    first [p] of them, put in the form of [Finite]. *)
Definition make_number (neg : bool) (ds : list N) (p : Z) : number :=
  let (ds1, n) := strip_leading ds p in
  match strip_trailing ds1 with
  | [] => Finite neg [] 0
  | ds2 => Finite neg ds2 n
  end.

Definition digits_value (ds : list N) : N := N.of_uint (digits_uint ds).

Definition parse_sign (t : jsstring) : bool * jsstring :=
  match expect 45%N t with
  | Some r => (true, r)
  | None => (false, t)
  end.

Definition parse_int (t : jsstring) : option (list N * jsstring) :=
  match t with
  | [] => None
  | c :: t' =>
      if (c =? 48)%N then Some ([0%N], t')
      else if is_digit c then Some (take_digits t)
      else None
  end.

Definition parse_frac (t : jsstring) : option (list N * jsstring) :=
  match expect 46%N t with
  | Some r =>
      match take_digits r with
      | ([], _) => None
      | (fs, r') => Some (fs, r')
      end
  | None => Some ([], t)
  end.

Definition parse_exp (t : jsstring) : option (Z * jsstring) :=
  match t with
  | c :: t' =>
      if ((c =? 101) || (c =? 69))%N then
        let (neg, t1) :=
          match expect 43%N t' with
          | Some r => (false, r)
          | None => parse_sign t'
          end in
        match take_digits t1 with
        | ([], _) => None
        | (es, r) =>
            Some (if neg then (- Z.of_N (digits_value es))%Z
                  else Z.of_N (digits_value es), r)
        end
      else Some (0%Z, t)
  | [] => Some (0%Z, [])
  end.

Definition parse_magnitude (neg : bool) (t1 : jsstring)
  : option (number * jsstring) :=
  match parse_int t1 with
  | None => None
  | Some (ins, t2) =>
      match parse_frac t2 with
      | None => None
      | Some (fs, t3) =>
          match parse_exp t3 with
          | None => None
          | Some (e, t4) =>
              Some (make_number neg (ins ++ fs) (Z.of_nat (length ins) + e), t4)
          end
      end
  end.

Definition parse_number (t : jsstring) : option (number * jsstring) :=
  let (neg, t1) := parse_sign t in parse_magnitude neg t1.

Definition literal (word : jsstring) (v : value) (t : jsstring) : parsed value :=
  match strip_prefix word t with
  | Some r => Parsed v r
  | None => NoParse
  end.

(** The JSON grammar by recursive descent.  Every call spends one unit of
    [fuel]; [parse_elements] and [parse_members] read the items of an array
    and of an object after the opening bracket, up to and including the
    closing one.  A repeated key keeps its first place and takes the last
    value, as [CreateDataProperty] does. *)
Fixpoint parse_value (fuel : nat) (t : jsstring) : parsed value :=
  match fuel with
  | O => OutOfFuel
  | S f =>
      match t with
      | [] => NoParse
      | c :: t' =>
          if (c =? 110)%N then literal (js "ull") VNull t'
          else if (c =? 116)%N then literal (js "rue") (VBool true) t'
          else if (c =? 102)%N then literal (js "alse") (VBool false) t'
          else if (c =? 34)%N then
            match parse_chars t' with
            | Some (s, r) => Parsed (VStr s) r
            | None => NoParse
            end
          else if (c =? 91)%N then
            match expect 93%N (skip_ws t') with
            | Some r => Parsed (VArr []) r
            | None =>
                match parse_elements f (skip_ws t') with
                | Parsed vs r => Parsed (VArr vs) r
                | NoParse => NoParse
                | OutOfFuel => OutOfFuel
                end
            end
          else if (c =? 123)%N then
            match expect 125%N (skip_ws t') with
            | Some r => Parsed (VObj []) r
            | None =>
                match parse_members f (skip_ws t') with
                | Parsed ms r => Parsed (VObj (obj_assign [] ms)) r
                | NoParse => NoParse
                | OutOfFuel => OutOfFuel
                end
            end
          else
            match parse_number t with
            | Some (x, r) => Parsed (VNum x) r
            | None => NoParse
            end
      end
  end
with parse_elements (fuel : nat) (t : jsstring) : parsed (list value) :=
  match fuel with
  | O => OutOfFuel
  | S f =>
      match parse_value f t with
      | Parsed v r =>
          match expect 44%N (skip_ws r) with
          | Some r' =>
              match parse_elements f (skip_ws r') with
              | Parsed vs r'' => Parsed (v :: vs) r''
              | NoParse => NoParse
              | OutOfFuel => OutOfFuel
              end
          | None =>
              match expect 93%N (skip_ws r) with
              | Some r' => Parsed [v] r'
              | None => NoParse
              end
          end
      | NoParse => NoParse
      | OutOfFuel => OutOfFuel
      end
  end
with parse_members (fuel : nat) (t : jsstring)
  : parsed (list (jsstring * value)) :=
  match fuel with
  | O => OutOfFuel
  | S f =>
      match expect 34%N t with
      | None => NoParse
      | Some t1 =>
          match parse_chars t1 with
          | None => NoParse
          | Some (k, r) =>
              match expect 58%N (skip_ws r) with
              | None => NoParse
              | Some r1 =>
                  match parse_value f (skip_ws r1) with
                  | Parsed v r2 =>
                      match expect 44%N (skip_ws r2) with
                      | Some r3 =>
                          match parse_members f (skip_ws r3) with
                          | Parsed ms r4 => Parsed ((k, v) :: ms) r4
                          | NoParse => NoParse
                          | OutOfFuel => OutOfFuel
                          end
                      | None =>
                          match expect 125%N (skip_ws r2) with
                          | Some r3 => Parsed [(k, v)] r3
                          | None => NoParse
                          end
                      end
                  | NoParse => NoParse
                  | OutOfFuel => OutOfFuel
                  end
              end
          end
      end
  end.

(** [JSON.parse(text)]: one value, surrounded by optional white space.  Two
    units of fuel per character are enough (see [parse_value_fuel]).  The
    wording of the message is the engine's; the model has one wording. *)
Definition invalid_json : exn := SyntaxError (js "Unexpected token in JSON").

Definition JSON_parse (text : jsstring) : result value :=
  match parse_value (2 * length text + 1) (skip_ws text) with
  | Parsed v r =>
      match skip_ws r with
      | [] => Ok v
      | _ => Throw invalid_json
      end
  | _ => Throw invalid_json
  end.

(* ================================================================= *)
(** ** The rest of the run-time library the page uses *)

(** A string where text is expected: [undefined] reads "undefined". *)
Definition to_text (r : option jsstring) : jsstring :=
  match r with
  | Some t => t
  | None => js "undefined"
  end.

Definition has_key (k : jsstring) (o : list (jsstring * value)) : bool :=
  match obj_lookup k o with Some _ => true | None => false end.

(** [ToString], as [Array.prototype.join] applies it to an item.  A plain
    object prints through [Object.prototype.toString], unless an own
    [toString] property, which cannot be a function here, hides it. *)
Fixpoint to_string (v : value) : result jsstring :=
  match v with
  | VUndefined => Ok (js "undefined")
  | VNull => Ok (js "null")
  | VBool true => Ok (js "true")
  | VBool false => Ok (js "false")
  | VNum x => Ok (number_to_string x)
  | VStr s => Ok s
  | VArr items =>
      parts <- (fix each (l : list value) : result (list jsstring) :=
                  match l with
                  | [] => Ok []
                  | x :: l' =>
                      p <- match x with
                           | VUndefined | VNull => Ok []
                           | _ => to_string x
                           end ;;
                      ps <- each l' ;;
                      Ok (p :: ps)
                  end) items ;;
      Ok (join [44%N] parts)
  | VObj o =>
      if has_key (js "toString") o
      then Throw (TypeError (js "Cannot convert object to primitive value"))
      else Ok (js "[object Object]")
  end.

(** [items.join(sep)]. *)
Definition array_join (sep : jsstring) (items : list value) : result jsstring :=
  parts <- mapM (fun x => match x with
                          | VUndefined | VNull => Ok []
                          | _ => to_string x
                          end) items ;;
  Ok (join sep parts).

(** [items.find(p)]. *)
Fixpoint findM (p : value -> result bool) (l : list value) : result value :=
  match l with
  | [] => Ok VUndefined
  | x :: l' => b <- p x ;; if b then Ok x else findM p l'
  end.

Fixpoint starts_with (p t : jsstring) : bool :=
  match p, t with
  | [], _ => true
  | _ :: _, [] => false
  | a :: p', b :: t' => (a =? b)%N && starts_with p' t'
  end.

(** [hay.includes(needle)]. *)
Fixpoint includes (hay needle : jsstring) : bool :=
  starts_with needle hay
  || match hay with
     | [] => false
     | _ :: hay' => includes hay' needle
     end.

(** [a < b] on strings: code units, lexicographically. *)
Fixpoint str_ltb (a b : jsstring) : bool :=
  match a, b with
  | _, [] => false
  | [], _ :: _ => true
  | x :: a', y :: b' => (x <? y)%N || ((x =? y)%N && str_ltb a' b')
  end.

(** [toLowerCase] on the letters A to Z.  The engine applies the Unicode
    case tables; whatever depends on them takes the function as a
    parameter, and this one serves for examples. *)
Definition ascii_lower (s : jsstring) : jsstring :=
  map (fun c => if ((65 <=? c) && (c <=? 90))%N then (c + 32)%N else c) s.

(* ================================================================= *)
(** ** The store *)

Record State := mkState {
  customers : value;
  technicians : value;
  devices : value;
  tickets : value
}.

(** What a store operation can change: the four collections and the item
    kept in [localStorage] under [STORAGE_KEY] ([None]: no item).  Writing
    the item is taken to succeed: a full or disabled storage is not
    modelled. *)
Record World := mkWorld {
  state : State;
  storage : option jsstring
}.

Definition STORAGE_KEY : jsstring := js "crm_local_storage_v1".

(** The object literal [{ customers, technicians, devices, tickets }]. *)
Definition snapshot (c t d k : value) : value :=
  VObj [(js "customers", c); (js "technicians", t); (js "devices", d);
        (js "tickets", k)].

Definition hydrate (w : World) : World :=
  match storage w with
  | None | Some [] => w
  | Some raw =>
      match
        parsed <- JSON_parse raw ;;
        c <- get parsed (js "customers") ;;
        t <- get parsed (js "technicians") ;;
        d <- get parsed (js "devices") ;;
        k <- get parsed (js "tickets") ;;
        Ok (mkState (nullish c (VArr [])) (nullish t (VArr []))
              (nullish d (VArr [])) (nullish k (VArr [])))
      with
      | Ok s => mkWorld s (storage w)
      | Throw _ => w
      end
  end.

Definition save (w : World) : World :=
  let s := state w in
  mkWorld s
    (Some (to_text (JSON_stringify 2
       (snapshot (customers s) (technicians s) (devices s) (tickets s))))).

(** The updaters below run inside [set((s) => ...)]: an exception leaves
    the store and the storage as they were, so the result is either the new
    world or the exception.  [uuid] is what [crypto.randomUUID()] returns. *)
Definition addCustomer (uuid : jsstring) (c : value) (w : World) : result World :=
  let s := state w in
  let item := VObj (spread [(js "id", VStr uuid)] c) in
  rest <- iterate (customers s) ;;
  let customers := VArr (item :: rest) in
  Ok (mkWorld
        (mkState customers (technicians s) (devices s) (tickets s))
        (Some (to_text (JSON_stringify 0
           (snapshot customers (technicians s) (devices s) (tickets s)))))).

Definition addTechnician (uuid : jsstring) (t : value) (w : World) : result World :=
  let s := state w in
  let item := VObj (spread [(js "id", VStr uuid)] t) in
  rest <- iterate (technicians s) ;;
  let technicians := VArr (item :: rest) in
  Ok (mkWorld
        (mkState (customers s) technicians (devices s) (tickets s))
        (Some (to_text (JSON_stringify 0
           (snapshot (customers s) technicians (devices s) (tickets s)))))).

Definition addDevice (uuid : jsstring) (d : value) (w : World) : result World :=
  let s := state w in
  let item := VObj (spread [(js "id", VStr uuid)] d) in
  rest <- iterate (devices s) ;;
  let devices := VArr (item :: rest) in
  Ok (mkWorld
        (mkState (customers s) (technicians s) devices (tickets s))
        (Some (to_text (JSON_stringify 0
           (snapshot (customers s) (technicians s) devices (tickets s)))))).

(** [now] is what [new Date().toISOString()] returns. *)
Definition addTicket (uuid now : jsstring) (t : value) (w : World) : result World :=
  let s := state w in
  let item :=
    VObj (spread [(js "id", VStr uuid); (js "createdAt", VStr now);
                  (js "updatedAt", VStr now)] t) in
  rest <- iterate (tickets s) ;;
  let tickets := VArr (item :: rest) in
  Ok (mkWorld
        (mkState (customers s) (technicians s) (devices s) tickets)
        (Some (to_text (JSON_stringify 0
           (snapshot (customers s) (technicians s) (devices s) tickets))))).

(** The callback of [s.tickets.map] in [updateTicket], over the whole
    array.  The clock is read once for every ticket that matches: [clock i]
    is the [i]-th reading of [new Date().toISOString()] of the call. *)
Fixpoint update_each (clock : nat -> jsstring) (i : nat) (id : jsstring)
  (updates : value) (l : list value) : result (list value) :=
  match l with
  | [] => Ok []
  | tk :: l' =>
      tid <- get tk (js "id") ;;
      if strict_eq tid (VStr id) then
        let tk' :=
          VObj (obj_set (js "updatedAt") (VStr (clock i))
                  (spread (spread [] tk) updates)) in
        rest <- update_each clock (S i) id updates l' ;;
        Ok (tk' :: rest)
      else
        rest <- update_each clock i id updates l' ;;
        Ok (tk :: rest)
  end.

Definition updateTicket (clock : nat -> jsstring) (id : jsstring)
  (updates : value) (w : World) : result World :=
  let s := state w in
  arr <- as_array (tickets s) (js "map") ;;
  mapped <- update_each clock 0 id updates arr ;;
  let tickets := VArr mapped in
  Ok (mkWorld
        (mkState (customers s) (technicians s) (devices s) tickets)
        (Some (to_text (JSON_stringify 0
           (snapshot (customers s) (technicians s) (devices s) tickets))))).

Definition removeTicket (id : jsstring) (w : World) : result World :=
  let s := state w in
  arr <- as_array (tickets s) (js "filter") ;;
  kept <- filterM (fun tk =>
                     tid <- get tk (js "id") ;;
                     Ok (negb (strict_eq tid (VStr id)))) arr ;;
  let tickets := VArr kept in
  Ok (mkWorld
        (mkState (customers s) (technicians s) (devices s) tickets)
        (Some (to_text (JSON_stringify 0
           (snapshot (customers s) (technicians s) (devices s) tickets))))).

(** The [try] block of [importAll], up to the values handed to [set]. *)
Definition import_collections (json : jsstring) : result State :=
  parsed <- JSON_parse json ;;
  c <- get parsed (js "customers") ;;
  t <- get parsed (js "technicians") ;;
  d <- get parsed (js "devices") ;;
  k <- get parsed (js "tickets") ;;
  Ok (mkState (nullish c (VArr [])) (nullish t (VArr []))
        (nullish d (VArr [])) (nullish k (VArr []))).

(** [importAll] returns [null] ([None]) or the message of what was caught.
    A caught value is an [Error] object, whose [message] is a string, so
    the fallback of [e?.message ?? 'Invalid JSON'] is never taken. *)
Definition importAll (json : jsstring) (w : World) : option jsstring * World :=
  match import_collections json with
  | Ok s =>
      (None,
       mkWorld s
         (Some (to_text (JSON_stringify 2
            (snapshot (customers s) (technicians s) (devices s) (tickets s))))))
  | Throw e => (Some (message e), w)
  end.

Definition exportAll (w : World) : jsstring :=
  let s := state w in
  to_text (JSON_stringify 2
    (snapshot (customers s) (technicians s) (devices s) (tickets s))).

(* ================================================================= *)
(** ** The ticket list of the page *)

(** [xs.find((x) => x.id === t[ref])]. *)
Definition find_by_id (xs : value) (t : value) (ref : jsstring) : result value :=
  arr <- as_array xs (js "find") ;;
  findM (fun x =>
           xid <- get x (js "id") ;;
           r <- get t ref ;;
           Ok (strict_eq xid r)) arr.

(** The text a ticket is searched in. *)
Definition haystack (lower : jsstring -> jsstring) (s : State) (t : value)
  : result jsstring :=
  cust <- find_by_id (customers s) t (js "customerId") ;;
  dev <- find_by_id (devices s) t (js "deviceId") ;;
  tech <- find_by_id (technicians s) t (js "technicianId") ;;
  problem <- get t (js "problemDescription") ;;
  cname <- get_opt cust (js "name") ;;
  cphone <- get_opt cust (js "phone") ;;
  cemail <- get_opt cust (js "email") ;;
  dbrand <- get_opt dev (js "brand") ;;
  dmodel <- get_opt dev (js "model") ;;
  dserial <- get_opt dev (js "serial") ;;
  tname <- get_opt tech (js "name") ;;
  joined <- array_join [32%N]
              (filter truthy
                 [problem; cname; cphone; cemail; dbrand; dmodel; dserial; tname]) ;;
  Ok (lower joined).

(** The callback of [tickets.filter] in [filteredTickets]. *)
Definition ticket_shown (lower : jsstring -> jsstring) (flt search : jsstring)
  (s : State) (t : value) : result bool :=
  statusOk <- (if str_eqb flt (js "All") then Ok true
               else st <- get t (js "status") ;; Ok (strict_eq st (VStr flt))) ;;
  if negb statusOk then Ok false
  else
    match search with
    | [] => Ok true
    | _ =>
        hay <- haystack lower s t ;;
        Ok (includes hay (lower search))
    end.

Definition filteredTickets (lower : jsstring -> jsstring) (flt search : jsstring)
  (s : State) : result (list value) :=
  arr <- as_array (tickets s) (js "filter") ;;
  filterM (ticket_shown lower flt search s) arr.

(* ================================================================= *)
(** ** Vocabulary of the statements *)

(** The world a call leaves behind: the new one, or the old one when the
    call threw. *)
Definition after (r : result World) (w : World) : World :=
  match r with
  | Ok w' => w'
  | Throw _ => w
  end.

(** [tk.id === id], with [false] where the read throws. *)
Definition has_id (id : jsstring) (tk : value) : bool :=
  match get tk (js "id") with
  | Ok tid => strict_eq tid (VStr id)
  | Throw _ => false
  end.

(** A value that has properties to read: anything but [null] and
    [undefined]. *)
Definition readable (v : value) : bool :=
  match v with
  | VUndefined | VNull => false
  | _ => true
  end.

Fixpoint distinct (l : list jsstring) : bool :=
  match l with
  | [] => true
  | k :: l' => negb (existsb (str_eqb k) l') && distinct l'
  end.

(** A finite number in the form [Number::toString] works from: decimal
    digits with no zero at either end. *)
Definition wf_number (x : number) : bool :=
  match x with
  | Finite _ [] _ => true
  | Finite _ ds _ =>
      forallb (fun d => (d <? 10)%N) ds
      && negb (hd 0%N ds =? 0)%N && negb (hd 0%N (rev ds) =? 0)%N
  | _ => true
  end.

(** The representation invariant: numbers in that form and, in an object,
    no key twice, at any depth. *)
Fixpoint wf_value (v : value) : bool :=
  match v with
  | VNum x => wf_number x
  | VArr items => forallb wf_value items
  | VObj props =>
      distinct (keys props) && forallb (fun kv => wf_value (snd kv)) props
  | _ => true
  end.

Definition wf_state (s : State) : bool :=
  wf_value (customers s) && wf_value (technicians s)
  && wf_value (devices s) && wf_value (tickets s).

(** The shape [importAll] is written for: an object in which each of the
    four keys is absent or holds an array. *)
Definition collection_shape (props : list (jsstring * value)) (k : jsstring) : bool :=
  match obj_lookup k props with
  | None | Some (VArr _) => true
  | Some _ => false
  end.

Definition four_collection_shape (props : list (jsstring * value)) : bool :=
  collection_shape props (js "customers")
  && collection_shape props (js "technicians")
  && collection_shape props (js "devices")
  && collection_shape props (js "tickets").

(** The collection an object of that shape gives for key [k]. *)
Definition parsed_collection (props : list (jsstring * value)) (k : jsstring) : value :=
  match obj_lookup k props with
  | Some v => v
  | None => VArr []
  end.

(** A value with none of the four collection keys. *)
Definition lacks_collection_keys (v : value) : bool :=
  match v with
  | VObj props =>
      negb (has_key (js "customers") props)
      && negb (has_key (js "technicians") props)
      && negb (has_key (js "devices") props)
      && negb (has_key (js "tickets") props)
  | _ => true
  end.

(** The value read under [k], [undefined] where the read throws. *)
Definition field (k : jsstring) (v : value) : value :=
  match get v k with
  | Ok x => x
  | Throw _ => VUndefined
  end.

(** What [updateTicket clock id {status: "Ready"}] makes of one ticket: a
    ticket with another id is kept; a ticket with the id has the new status,
    a reading of the clock as [updatedAt], and every other property as
    before. *)
Definition marked_ready (clock : nat -> jsstring) (id : jsstring)
  (tk tk' : value) : Prop :=
  if has_id id tk then
    get tk' (js "status") = Ok (VStr (js "Ready"))
    /\ (exists j, get tk' (js "updatedAt") = Ok (VStr (clock j)))
    /\ (forall k, k <> js "status" -> k <> js "updatedAt" -> get tk' k = get tk k)
  else tk' = tk.

(** What [updateTicket clock id updates] does to [updatedAt], whatever
    [updates] holds. *)
Definition refreshed (clock : nat -> jsstring) (id : jsstring)
  (tk tk' : value) : Prop :=
  if has_id id tk then exists j, get tk' (js "updatedAt") = Ok (VStr (clock j))
  else tk' = tk.

(** Sequences of store calls.  A call that throws leaves the world as it
    was. *)
Inductive op :=
| AddCustomer (uuid : jsstring) (c : value)
| AddTechnician (uuid : jsstring) (t : value)
| AddDevice (uuid : jsstring) (d : value)
| AddTicket (uuid now : jsstring) (t : value)
| UpdateTicket (clock : nat -> jsstring) (id : jsstring) (updates : value)
| RemoveTicket (id : jsstring)
| ImportAll (json : jsstring).

Definition step (o : op) (w : World) : World :=
  match o with
  | AddCustomer uuid c => after (addCustomer uuid c w) w
  | AddTechnician uuid t => after (addTechnician uuid t w) w
  | AddDevice uuid d => after (addDevice uuid d w) w
  | AddTicket uuid now t => after (addTicket uuid now t w) w
  | UpdateTicket clock id updates => after (updateTicket clock id updates w) w
  | RemoveTicket id => after (removeTicket id w) w
  | ImportAll json => snd (importAll json w)
  end.

Definition run (ops : list op) (w : World) : World :=
  fold_left (fun w o => step o w) ops w.

Definition ticket_list (w : World) : list value :=
  match tickets (state w) with
  | VArr l => l
  | _ => []
  end.

(** The [createdAt] of the tickets that have the id [tid]. *)
Definition created_at (tid : jsstring) (w : World) : list value :=
  map (field (js "createdAt")) (filter (has_id tid) (ticket_list w)).

(** Calls that cannot touch the [createdAt] of a ticket with id [tid]:
    every call but [importAll], an [updateTicket] whose partial fields bring
    an [id] or a [createdAt], and an [addTicket] that draws [tid] again or
    whose fields bring an [id]. *)
Definition keeps_stamp (tid : jsstring) (o : op) : bool :=
  match o with
  | UpdateTicket _ _ updates =>
      negb (has_key (js "id") (own_props updates))
      && negb (has_key (js "createdAt") (own_props updates))
  | AddTicket uuid _ t =>
      negb (str_eqb uuid tid) && negb (has_key (js "id") (own_props t))
  | ImportAll _ => false
  | _ => true
  end.

(** Calls whose arguments, as far as they are values, are well formed. *)
Definition op_wf (o : op) : bool :=
  match o with
  | AddCustomer _ c => wf_value c
  | AddTechnician _ t => wf_value t
  | AddDevice _ d => wf_value d
  | AddTicket _ _ t => wf_value t
  | UpdateTicket _ _ updates => wf_value updates
  | RemoveTicket _ | ImportAll _ => true
  end.

(** The values of an object's properties are well formed. *)
Definition values_wf (o : list (jsstring * value)) : bool :=
  forallb (fun kv => wf_value (snd kv)) o.

(** One level of [wf_value]. *)
Definition flat_ok (v : value) : bool :=
  match v with
  | VObj props => distinct (keys props)
  | _ => true
  end.

(** The id and the creation stamp, as the statements read them. *)
Definition stamp (tid : jsstring) (tk : value) : bool * value :=
  (has_id tid tk, field (js "createdAt") tk).

(** *** The ticket list, in the words of its description *)

Definition text_of (v : value) : jsstring :=
  match v with
  | VStr s => s
  | _ => []
  end.

Definition nonempty (x : jsstring) : bool :=
  match x with
  | [] => false
  | _ => true
  end.

(** The first item of the collection [xs] whose id is [ref]; [undefined]
    when there is none. *)
Definition joined (xs : value) (ref : value) : value :=
  match xs with
  | VArr l =>
      match find (fun x => strict_eq (field (js "id") x) ref) l with
      | Some x => x
      | None => VUndefined
      end
  | _ => VUndefined
  end.

(** The eight texts a ticket is searched by; an absent one is empty. *)
Definition search_fields (s : State) (t : value) : list jsstring :=
  let cust := joined (customers s) (field (js "customerId") t) in
  let dev := joined (devices s) (field (js "deviceId") t) in
  let tech := joined (technicians s) (field (js "technicianId") t) in
  [text_of (field (js "problemDescription") t);
   text_of (field (js "name") cust);
   text_of (field (js "phone") cust);
   text_of (field (js "email") cust);
   text_of (field (js "brand") dev);
   text_of (field (js "model") dev);
   text_of (field (js "serial") dev);
   text_of (field (js "name") tech)].

(** Their concatenation, and what the page builds: the texts that are not
    empty, with one space between two of them. *)
Definition search_text_concatenated (s : State) (t : value) : jsstring :=
  concat (search_fields s t).

Definition search_text_spaced (s : State) (t : value) : jsstring :=
  join [32%N] (filter nonempty (search_fields s t)).

Definition status_passes (flt : jsstring) (t : value) : bool :=
  str_eqb flt (js "All") || strict_eq (field (js "status") t) (VStr flt).

Definition shown_in (text : State -> value -> jsstring)
  (lower : jsstring -> jsstring) (flt search : jsstring) (s : State)
  (t : value) : bool :=
  status_passes flt t
  && (negb (nonempty search) || includes (lower (text s t)) (lower search)).

(** The described list: the subsequence of the tickets that pass. *)
Definition filtered_by (text : State -> value -> jsstring)
  (lower : jsstring -> jsstring) (flt search : jsstring) (s : State)
  : list value :=
  match tickets s with
  | VArr l => filter (shown_in text lower flt search s) l
  | _ => []
  end.

(** States of the declared types, as far as the list reads them. *)
Definition is_text (v : value) : bool :=
  match v with VStr _ => true | _ => false end.

Definition optional_text (v : value) : bool :=
  match v with VStr _ | VUndefined => true | _ => false end.

Definition is_object (v : value) : bool :=
  match v with VObj _ => true | _ => false end.

Definition typed_customer (c : value) : bool :=
  is_object c && is_text (field (js "id") c) && is_text (field (js "name") c)
  && optional_text (field (js "phone") c)
  && optional_text (field (js "email") c).

Definition typed_technician (u : value) : bool :=
  is_object u && is_text (field (js "id") u) && is_text (field (js "name") u).

Definition typed_device (d : value) : bool :=
  is_object d && is_text (field (js "id") d) && is_text (field (js "type") d)
  && optional_text (field (js "brand") d)
  && optional_text (field (js "model") d)
  && optional_text (field (js "serial") d).

Definition typed_ticket (t : value) : bool :=
  is_object t && is_text (field (js "id") t)
  && is_text (field (js "customerId") t)
  && is_text (field (js "deviceId") t)
  && is_text (field (js "problemDescription") t)
  && is_text (field (js "status") t)
  && optional_text (field (js "technicianId") t).

Definition array_of (p : value -> bool) (v : value) : bool :=
  match v with
  | VArr l => forallb p l
  | _ => false
  end.

Definition typed_state (s : State) : bool :=
  array_of typed_customer (customers s)
  && array_of typed_technician (technicians s)
  && array_of typed_device (devices s)
  && array_of typed_ticket (tickets s).

(** *** Export and import *)

(** What may follow a value in JSON text: nothing, white space, a comma or
    a closing bracket. *)
Definition delimited (rest : jsstring) : bool :=
  match rest with
  | [] => true
  | c :: _ => (is_ws c || (c =? 44) || (c =? 93) || (c =? 125))%N
  end.

Definition all_ws (ws : jsstring) : bool := forallb is_ws ws.

(** The first character of a value in JSON text: no white space, comma or
    closing bracket. *)
Definition opens (txt : jsstring) : bool :=
  match txt with
  | [] => false
  | c :: _ =>
      (negb (is_ws c) && negb (c =? 44) && negb (c =? 93) && negb (c =? 125))%N
  end.

(** [txt] is read as the value [u]: wherever it stands before a delimiter,
    [parse_value] given two units of fuel per character returns [u] and
    the text after [txt]. *)
Definition reads (txt : jsstring) (u : value) : Prop :=
  opens txt = true
  /\ forall fuel rest,
       2 * length txt <= fuel ->
       delimited rest = true ->
       parse_value fuel (txt ++ rest) = Parsed u rest.

Definition is_undefined (v : value) : bool :=
  match v with VUndefined => true | _ => false end.

(** What a value comes back as after [JSON.stringify] and [JSON.parse]: a
    property that holds [undefined] is gone, [undefined] as an array item,
    [NaN] and the infinities are [null], and zero has lost its sign. *)
Definition number_image (x : number) : value :=
  match x with
  | Finite _ [] _ => VNum (Finite false [] 0)
  | Finite _ _ _ => VNum x
  | _ => VNull
  end.

Fixpoint json_image (v : value) : value :=
  match v with
  | VUndefined => VNull
  | VNum x => number_image x
  | VArr items => VArr (map json_image items)
  | VObj props =>
      VObj (flat_map (fun kv =>
                        if is_undefined (snd kv) then []
                        else [(fst kv, json_image (snd kv))]) props)
  | _ => v
  end.

(** The text of a value as an array item or a property value; an item that
    is [undefined] is written [null]. *)
Definition item_text (gap indent : nat) (v : value) : jsstring :=
  match ser gap indent v with
  | Some t => t
  | None => js "null"
  end.

(** The text of a property: the key, a colon and the text of the value. *)
Definition member_text (gap : nat) (m : jsstring * jsstring * value) : jsstring :=
  quote (fst (fst m)) ++ colon gap ++ snd (fst m).

(** The properties [JSON.stringify] writes: key, text and image. *)
Definition written (gap indent : nat) (props : list (jsstring * value))
  : list (jsstring * jsstring * value) :=
  map (fun kv => (fst kv, item_text gap indent (snd kv), json_image (snd kv)))
    (filter (fun kv => negb (is_undefined (snd kv))) props).

(** Values that JSON text can hold as they are. *)
Definition clean_number (x : number) : bool :=
  match x with
  | Finite neg [] n => negb neg && (n =? 0)%Z
  | Finite _ _ _ => true
  | _ => false
  end.

Fixpoint json_clean (v : value) : bool :=
  match v with
  | VUndefined => false
  | VNum x => clean_number x
  | VArr items => forallb json_clean items
  | VObj props => forallb (fun kv => json_clean (snd kv)) props
  | _ => true
  end.

(** A state whose collections are arrays of such values. *)
Definition clean_collection (v : value) : bool :=
  match v with
  | VArr items => forallb json_clean items
  | _ => false
  end.

Definition clean_state (s : State) : bool :=
  clean_collection (customers s) && clean_collection (technicians s)
  && clean_collection (devices s) && clean_collection (tickets s).

(** The state [importAll] builds from the text [exportAll] wrote. *)
Definition imported_image (s : State) : State :=
  mkState (nullish (json_image (customers s)) (VArr []))
          (nullish (json_image (technicians s)) (VArr []))
          (nullish (json_image (devices s)) (VArr []))
          (nullish (json_image (tickets s)) (VArr [])).

Definition empty_state : State :=
  mkState (VArr []) (VArr []) (VArr []) (VArr []).

(* ================================================================= *)
(** ** The effects of the page *)

(** [v.length === 0], as the seed effect asks it of each collection: an
    array or a string has its length, an object has it as an own property
    or not at all, and reading it from [null] or [undefined] throws. *)
Definition length_is_zero (v : value) : result bool :=
  match v with
  | VArr l => Ok (match l with [] => true | _ => false end)
  | VStr s => Ok (match s with [] => true | _ => false end)
  | _ => len <- get v (js "length") ;; Ok (strict_eq len (VNum (Finite false [] 0)))
  end.

(** The condition of the seed effect; [&&] stops at the first collection
    that is not empty. *)
Definition all_empty (s : State) : result bool :=
  c <- length_is_zero (customers s) ;;
  if negb c then Ok false else
  t <- length_is_zero (technicians s) ;;
  if negb t then Ok false else
  d <- length_is_zero (devices s) ;;
  if negb d then Ok false else
  length_is_zero (tickets s).

(** The demo records. *)
Definition seed_customer (id : jsstring) : value :=
  VObj [(js "id", VStr id); (js "name", VStr (js "John Doe"));
        (js "phone", VStr (js "555-0100"));
        (js "email", VStr (js "john@example.com"))].

Definition seed_technician (id : jsstring) : value :=
  VObj [(js "id", VStr id); (js "name", VStr (js "Alice"))].

Definition seed_device (id : jsstring) : value :=
  VObj [(js "id", VStr id); (js "type", VStr (js "Laptop"));
        (js "brand", VStr (js "Dell")); (js "model", VStr (js "XPS 13"));
        (js "serial", VStr (js "ABC123"))].

Definition seed_ticket (id now cust dev tech : jsstring) : value :=
  VObj [(js "id", VStr id); (js "createdAt", VStr now);
        (js "updatedAt", VStr now); (js "customerId", VStr cust);
        (js "deviceId", VStr dev);
        (js "problemDescription", VStr (js "Won't boot, possible SSD failure"));
        (js "status", VStr (js "Diagnosing")); (js "technicianId", VStr tech);
        (js "estimatedCost", VNum (Finite false [1; 5]%N 3));
        (js "notes", VStr (js "Run diagnostics, check SSD health"))].

(** The four collections the seed effect writes.  [uuid i] is what the
    [i]-th call of [crypto.randomUUID()] returns: the customer, the
    technician, the device and the ticket draw one each, in this order. *)
Definition seed_state (uuid : nat -> jsstring) (now : jsstring) : State :=
  mkState (VArr [seed_customer (uuid 0)]) (VArr [seed_technician (uuid 1)])
          (VArr [seed_device (uuid 2)])
          (VArr [seed_ticket (uuid 3) now (uuid 0) (uuid 2) (uuid 1)]).

(** The seed effect.  Its condition reads the collections of the render the
    effect belongs to, [rendered]; the writes go to the storage and, through
    [hydrate], to the store. *)
Definition seed (uuid : nat -> jsstring) (now : jsstring) (rendered : State)
  (w : World) : result World :=
  empty <- all_empty rendered ;;
  if empty then
    let s := seed_state uuid now in
    Ok (hydrate
          (mkWorld (state w)
             (Some (to_text (JSON_stringify 2
                (snapshot (customers s) (technicians s) (devices s)
                   (tickets s)))))))
  else Ok w.

(** The effects of the first render, in the order the component declares
    them.  The store is created with four empty arrays, and both effects
    belong to the render that read them: [hydrate] loads what the storage
    holds, and the seed effect still sees the empty collections of that
    render. *)
Definition mount (uuid : nat -> jsstring) (now : jsstring)
  (stored : option jsstring) : result World :=
  seed uuid now empty_state (hydrate (mkWorld empty_state stored)).

(** A store call that returned: the world it left. *)
Definition performed (o : op) (w : World) : option World :=
  match o with
  | AddCustomer uuid c =>
      match addCustomer uuid c w with Ok w' => Some w' | Throw _ => None end
  | AddTechnician uuid t =>
      match addTechnician uuid t w with Ok w' => Some w' | Throw _ => None end
  | AddDevice uuid d =>
      match addDevice uuid d w with Ok w' => Some w' | Throw _ => None end
  | AddTicket uuid now t =>
      match addTicket uuid now t w with Ok w' => Some w' | Throw _ => None end
  | UpdateTicket clock id updates =>
      match updateTicket clock id updates w with
      | Ok w' => Some w'
      | Throw _ => None
      end
  | RemoveTicket id =>
      match removeTicket id w with Ok w' => Some w' | Throw _ => None end
  | ImportAll json =>
      match importAll json w with
      | (None, w') => Some w'
      | (Some _, _) => None
      end
  end.

(** The text of the four collections, with either layout. *)
Definition persisted (gap : nat) (s : State) : jsstring :=
  to_text (JSON_stringify gap
    (snapshot (customers s) (technicians s) (devices s) (tickets s))).

(** No collection is [null] or [undefined]. *)
Definition readable_state (s : State) : bool :=
  readable (customers s) && readable (technicians s)
  && readable (devices s) && readable (tickets s).

(** *** Identifiers *)

Definition is_array (v : value) : bool :=
  match v with VArr _ => true | _ => false end.

(** The four collections are arrays, as declared. *)
Definition array_state (s : State) : bool :=
  is_array (customers s) && is_array (technicians s)
  && is_array (devices s) && is_array (tickets s).

(** The [id] of every item of a collection, in order. *)
Definition id_list (v : value) : list value :=
  match v with
  | VArr l => map (field (js "id")) l
  | _ => []
  end.

(** No identifier occurs twice within a collection. *)
Definition unique_ids (s : State) : Prop :=
  NoDup (id_list (customers s)) /\ NoDup (id_list (technicians s))
  /\ NoDup (id_list (devices s)) /\ NoDup (id_list (tickets s)).

(** A call that cannot bring an identifier its collection already holds:
    an add whose drawn identifier is new and whose fields bring no [id], an
    [updateTicket] whose partial fields bring no [id], a [removeTicket]. *)
Definition draws_fresh (o : op) (s : State) : Prop :=
  match o with
  | AddCustomer uuid c =>
      has_key (js "id") (own_props c) = false
      /\ ~ In (VStr uuid) (id_list (customers s))
  | AddTechnician uuid t =>
      has_key (js "id") (own_props t) = false
      /\ ~ In (VStr uuid) (id_list (technicians s))
  | AddDevice uuid d =>
      has_key (js "id") (own_props d) = false
      /\ ~ In (VStr uuid) (id_list (devices s))
  | AddTicket uuid _ t =>
      has_key (js "id") (own_props t) = false
      /\ ~ In (VStr uuid) (id_list (tickets s))
  | UpdateTicket _ _ updates => has_key (js "id") (own_props updates) = false
  | RemoveTicket _ => True
  | ImportAll _ => False
  end.

(* ================================================================= *)
(** ** The forms and the handlers of the page *)

(** [a || b]. *)
Definition or_else (a b : value) : value := if truthy a then a else b.

(** The state of the four forms: what the fields hold, as strings. *)
Module NewCustomer.
Record t := mk { name : jsstring; phone : jsstring; email : jsstring }.
End NewCustomer.

Module NewTechnician.
Record t := mk { name : jsstring }.
End NewTechnician.

Module NewDevice.
Record t := mk {
  type : jsstring; brand : jsstring; model : jsstring; serial : jsstring
}.
End NewDevice.

Module NewTicket.
Record t := mk {
  customerId : jsstring; deviceId : jsstring; problemDescription : jsstring;
  status : jsstring; technicianId : jsstring; estimatedCost : jsstring
}.
End NewTicket.

(** What a handler can change: the store and its storage, the forms, the
    import box, and the messages shown by [alert] (the latest first). *)
Record Page := mkPage {
  world : World;
  newCustomer : NewCustomer.t;
  newTechnician : NewTechnician.t;
  newDevice : NewDevice.t;
  newTicket : NewTicket.t;
  importText : jsstring;
  alerts : list jsstring
}.

Definition alert (m : jsstring) (p : Page) : Page :=
  mkPage (world p) (newCustomer p) (newTechnician p) (newDevice p)
    (newTicket p) (importText p) (m :: alerts p).

Definition with_world (w : World) (p : Page) : Page :=
  mkPage w (newCustomer p) (newTechnician p) (newDevice p) (newTicket p)
    (importText p) (alerts p).

(** The button Add Customer.  A store call that throws ends the handler:
    the form is not reset. *)
Definition addCustomerClick (uuid : jsstring) (p : Page) : result Page :=
  let f := newCustomer p in
  if negb (truthy (VStr (NewCustomer.name f))) then
    Ok (alert (js "Name required") p)
  else
    w <- addCustomer uuid
           (VObj [(js "name", VStr (NewCustomer.name f));
                  (js "phone", or_else (VStr (NewCustomer.phone f)) VUndefined);
                  (js "email", or_else (VStr (NewCustomer.email f)) VUndefined)])
           (world p) ;;
    Ok (mkPage w (NewCustomer.mk [] [] []) (newTechnician p) (newDevice p)
          (newTicket p) (importText p) (alerts p)).

(** The button Add Technician. *)
Definition addTechnicianClick (uuid : jsstring) (p : Page) : result Page :=
  let f := newTechnician p in
  if negb (truthy (VStr (NewTechnician.name f))) then Ok p
  else
    w <- addTechnician uuid (VObj [(js "name", VStr (NewTechnician.name f))])
           (world p) ;;
    Ok (mkPage w (newCustomer p) (NewTechnician.mk []) (newDevice p)
          (newTicket p) (importText p) (alerts p)).

(** The button Add Device. *)
Definition addDeviceClick (uuid : jsstring) (p : Page) : result Page :=
  let f := newDevice p in
  if negb (truthy (VStr (NewDevice.type f))) then Ok p
  else
    w <- addDevice uuid
           (VObj [(js "type", VStr (NewDevice.type f));
                  (js "brand", or_else (VStr (NewDevice.brand f)) VUndefined);
                  (js "model", or_else (VStr (NewDevice.model f)) VUndefined);
                  (js "serial", or_else (VStr (NewDevice.serial f)) VUndefined)])
           (world p) ;;
    Ok (mkPage w (newCustomer p) (newTechnician p)
          (NewDevice.mk (js "Laptop") [] [] []) (newTicket p) (importText p)
          (alerts p)).

(** The button Add Ticket.  [toNumber] is [Number] on the text of the cost
    field. *)
Definition addTicketClick (toNumber : jsstring -> number) (uuid now : jsstring)
  (p : Page) : result Page :=
  let f := newTicket p in
  if negb (truthy (VStr (NewTicket.customerId f)))
     || negb (truthy (VStr (NewTicket.deviceId f)))
     || negb (truthy (VStr (NewTicket.problemDescription f)))
  then Ok (alert (js "Customer, device and description are required") p)
  else
    w <- addTicket uuid now
           (VObj [(js "customerId", VStr (NewTicket.customerId f));
                  (js "deviceId", VStr (NewTicket.deviceId f));
                  (js "problemDescription",
                   VStr (NewTicket.problemDescription f));
                  (js "status", VStr (NewTicket.status f));
                  (js "technicianId",
                   or_else (VStr (NewTicket.technicianId f)) VUndefined);
                  (js "estimatedCost",
                   if truthy (VStr (NewTicket.estimatedCost f))
                   then VNum (toNumber (NewTicket.estimatedCost f))
                   else VUndefined);
                  (js "notes", VUndefined)])
           (world p) ;;
    Ok (mkPage w (newCustomer p) (newTechnician p) (newDevice p)
          (NewTicket.mk [] [] [] (js "New") [] []) (importText p) (alerts p)).

(** The controls of a listed ticket whose [id] is the string [id]; [chosen]
    is what the control holds after the change. *)
Definition statusChange (clock : nat -> jsstring) (id chosen : jsstring)
  (p : Page) : result Page :=
  w <- updateTicket clock id (VObj [(js "status", VStr chosen)]) (world p) ;;
  Ok (with_world w p).

Definition technicianChange (clock : nat -> jsstring) (id chosen : jsstring)
  (p : Page) : result Page :=
  w <- updateTicket clock id
         (VObj [(js "technicianId", or_else (VStr chosen) VUndefined)])
         (world p) ;;
  Ok (with_world w p).

Definition costChange (toNumber : jsstring -> number) (clock : nat -> jsstring)
  (id chosen : jsstring) (p : Page) : result Page :=
  w <- updateTicket clock id
         (VObj [(js "estimatedCost",
                 if truthy (VStr chosen) then VNum (toNumber chosen)
                 else VUndefined)])
         (world p) ;;
  Ok (with_world w p).

Definition deleteClick (id : jsstring) (p : Page) : result Page :=
  w <- removeTicket id (world p) ;;
  Ok (with_world w p).


(** What the user does, apart from importing: a click or a change on a
    listed ticket, or typing into a form (any new content of the form). *)
Inductive action :=
| AddCustomerClick (uuid : jsstring)
| AddTechnicianClick (uuid : jsstring)
| AddDeviceClick (uuid : jsstring)
| AddTicketClick (uuid now : jsstring)
| StatusChange (clock : nat -> jsstring) (id chosen : jsstring)
| TechnicianChange (clock : nat -> jsstring) (id chosen : jsstring)
| CostChange (clock : nat -> jsstring) (id chosen : jsstring)
| DeleteClick (id : jsstring)
| Typing (c : NewCustomer.t) (u : NewTechnician.t) (d : NewDevice.t)
    (k : NewTicket.t) (text : jsstring).

Definition handle (toNumber : jsstring -> number) (a : action) (p : Page)
  : result Page :=
  match a with
  | AddCustomerClick uuid => addCustomerClick uuid p
  | AddTechnicianClick uuid => addTechnicianClick uuid p
  | AddDeviceClick uuid => addDeviceClick uuid p
  | AddTicketClick uuid now => addTicketClick toNumber uuid now p
  | StatusChange clock id chosen => statusChange clock id chosen p
  | TechnicianChange clock id chosen => technicianChange clock id chosen p
  | CostChange clock id chosen => costChange toNumber clock id chosen p
  | DeleteClick id => deleteClick id p
  | Typing c u d k text => Ok (mkPage (world p) c u d k text (alerts p))
  end.

Fixpoint handle_all (toNumber : jsstring -> number) (l : list action)
  (p : Page) : result Page :=
  match l with
  | [] => Ok p
  | a :: l' => p' <- handle toNumber a p ;; handle_all toNumber l' p'
  end.

(** Records as the forms let them in: of the declared types, with the
    required texts not empty, and, for a ticket, no key twice. *)
Definition filled (k : jsstring) (v : value) : bool :=
  nonempty (text_of (field k v)).

Definition entered_customer (c : value) : bool :=
  typed_customer c && filled (js "name") c.

Definition entered_technician (u : value) : bool :=
  typed_technician u && filled (js "name") u.

Definition entered_device (d : value) : bool :=
  typed_device d && filled (js "type") d.

Definition entered_ticket (t : value) : bool :=
  typed_ticket t && flat_ok t && filled (js "customerId") t
  && filled (js "deviceId") t && filled (js "problemDescription") t.

Definition entered_state (s : State) : bool :=
  array_of entered_customer (customers s)
  && array_of entered_technician (technicians s)
  && array_of entered_device (devices s)
  && array_of entered_ticket (tickets s).

(** The three changes the controls of a listed ticket make. *)
Definition control_change (key : jsstring) (val : value) : Prop :=
  (key = js "status" /\ is_text val = true)
  \/ (key = js "technicianId" /\ optional_text val = true)
  \/ key = js "estimatedCost".

(** What [updateTicket clock id updates] makes of one ticket: a ticket with
    another id is kept; in a ticket with the id every key of [updates] has
    the value [updates] gives it, [updatedAt] is a reading of the clock, and
    every other key reads as before. *)
Definition merged (clock : nat -> jsstring) (id : jsstring) (updates : value)
  (tk tk' : value) : Prop :=
  if has_id id tk then
    (exists j, get tk' (js "updatedAt") = Ok (VStr (clock j)))
    /\ forall k, k <> js "updatedAt" ->
         get tk' k
         = match obj_lookup k (own_props updates) with
           | Some v => Ok v
           | None => get tk k
           end
  else tk' = tk.

(** The technician a ticket card shows: [tech?.name ?? 'Unassigned'], with
    [tech] the technician found for the ticket. *)
Definition technician_label (s : State) (t : value) : result value :=
  tech <- find_by_id (technicians s) t (js "technicianId") ;;
  name <- get_opt tech (js "name") ;;
  Ok (nullish name (VStr (js "Unassigned"))).

(* ================================================================= *)
(** * Proofs *)

(** ** Basic facts *)

Lemma str_eqb_eq (a b : jsstring) : str_eqb a b = true <-> a = b.
Proof.
  unfold str_eqb. destruct (list_eq_dec N.eq_dec a b); split; congruence.
Qed.

Lemma str_eqb_refl (a : jsstring) : str_eqb a a = true.
Proof. now apply str_eqb_eq. Qed.

Lemma str_eqb_neq (a b : jsstring) : str_eqb a b = false <-> a <> b.
Proof.
  unfold str_eqb. destruct (list_eq_dec N.eq_dec a b); split; congruence.
Qed.

Lemma strict_eq_str (v : value) (s : jsstring) :
  strict_eq v (VStr s) = true <-> v = VStr s.
Proof.
  destruct v; simpl; split; try congruence.
  - intros H. apply str_eqb_eq in H. now subst.
  - intros H. injection H as ->. apply str_eqb_refl.
Qed.

Lemma has_id_spec (id : jsstring) (tk : value) :
  has_id id tk = true <-> get tk (js "id") = Ok (VStr id).
Proof.
  unfold has_id. destruct (get tk (js "id")) as [tid|e].
  - rewrite strict_eq_str. split; congruence.
  - split; congruence.
Qed.

Lemma has_id_object (id : jsstring) (tk : value) :
  has_id id tk = true ->
  exists props, tk = VObj props /\ obj_lookup (js "id") props = Some (VStr id).
Proof.
  intros H. apply has_id_spec in H.
  destruct tk; simpl in H; try discriminate.
  exists props. split; [reflexivity|].
  destruct (obj_lookup (js "id") props); congruence.
Qed.

Lemma distinct_NoDup (l : list jsstring) : distinct l = true <-> NoDup l.
Proof.
  induction l as [|k l IH]; simpl.
  - split; [constructor | reflexivity].
  - rewrite andb_true_iff, negb_true_iff, IH. split.
    + intros [Hk Hl]. constructor; [|assumption].
      intros Hin. assert (existsb (str_eqb k) l = true) as E.
      { apply existsb_exists. exists k. split; [assumption|apply str_eqb_refl]. }
      congruence.
    + intros H. inversion H as [|? ? Hk Hl]; subst. split; [|assumption].
      destruct (existsb (str_eqb k) l) eqn:E; [|reflexivity].
      apply existsb_exists in E. destruct E as [x [Hx Hkx]].
      apply str_eqb_eq in Hkx. subst x. contradiction.
Qed.

(** ** Objects *)

Lemma obj_lookup_none (k : jsstring) (o : list (jsstring * value)) :
  obj_lookup k o = None <-> ~ In k (keys o).
Proof.
  induction o as [|[k' v'] o IH]; simpl.
  - tauto.
  - destruct (str_eqb k k') eqn:E.
    + apply str_eqb_eq in E. subst. split; [discriminate|]. intros H. tauto.
    + apply str_eqb_neq in E. rewrite IH. split.
      * intros H [H'|H']; congruence.
      * tauto.
Qed.

Lemma obj_set_fresh (k : jsstring) (v : value) (o : list (jsstring * value)) :
  ~ In k (keys o) -> obj_set k v o = o ++ [(k, v)].
Proof.
  induction o as [|[k' v'] o IH]; simpl; intros H; [reflexivity|].
  destruct (str_eqb k k') eqn:E.
  - apply str_eqb_eq in E. subst. tauto.
  - rewrite IH by tauto. reflexivity.
Qed.

Lemma obj_lookup_set (k k' : jsstring) (v : value) (o : list (jsstring * value)) :
  obj_lookup k' (obj_set k v o) =
  if str_eqb k' k then Some v else obj_lookup k' o.
Proof.
  induction o as [|[k0 v0] o IH]; simpl.
  - reflexivity.
  - destruct (str_eqb k k0) eqn:E; simpl.
    + apply str_eqb_eq in E. subst k0. destruct (str_eqb k' k); reflexivity.
    + destruct (str_eqb k' k0) eqn:E'.
      * apply str_eqb_eq in E'. subst k0.
        destruct (str_eqb k' k) eqn:E''; [|reflexivity].
        apply str_eqb_eq in E''. subst. rewrite str_eqb_refl in E. discriminate.
      * apply IH.
Qed.

Lemma keys_obj_set (k : jsstring) (v : value) (o : list (jsstring * value)) :
  keys (obj_set k v o) = if existsb (str_eqb k) (keys o) then keys o else keys o ++ [k].
Proof.
  induction o as [|[k0 v0] o IH]; simpl; [reflexivity|].
  destruct (str_eqb k k0) eqn:E; simpl.
  - apply str_eqb_eq in E. now subst.
  - unfold keys in *. rewrite IH. destruct (existsb (str_eqb k) (map fst o)); reflexivity.
Qed.

Lemma obj_set_NoDup (k : jsstring) (v : value) (o : list (jsstring * value)) :
  NoDup (keys o) -> NoDup (keys (obj_set k v o)).
Proof.
  intros H. rewrite keys_obj_set.
  destruct (existsb (str_eqb k) (keys o)) eqn:E; [assumption|].
  apply NoDup_app; [assumption | repeat constructor; simpl; tauto |].
  intros x Hx [Hkx|[]]. subst x.
  assert (existsb (str_eqb k) (keys o) = true); [|congruence].
  apply existsb_exists. exists k. split; [assumption|apply str_eqb_refl].
Qed.

Lemma obj_assign_NoDup (src target : list (jsstring * value)) :
  NoDup (keys target) -> NoDup (keys (obj_assign target src)).
Proof.
  unfold obj_assign. revert target.
  induction src as [|[k v] src IH]; simpl; intros target H; [assumption|].
  apply IH. now apply obj_set_NoDup.
Qed.

(** Copying a well-formed object whose keys are new to the target appends
    its properties. *)
Lemma obj_assign_fresh (src target : list (jsstring * value)) :
  NoDup (keys src) ->
  (forall k, In k (keys src) -> ~ In k (keys target)) ->
  obj_assign target src = target ++ src.
Proof.
  unfold obj_assign. revert target.
  induction src as [|[k v] src IH]; simpl; intros target Hnd Hfresh.
  - now rewrite app_nil_r.
  - inversion Hnd as [|? ? Hk Hsrc]; subst.
    rewrite obj_set_fresh by (apply Hfresh; now left).
    rewrite IH; [now rewrite <- app_assoc | assumption |].
    intros k' Hk' Hin. unfold keys in Hin. rewrite map_app in Hin.
    apply in_app_or in Hin. destruct Hin as [Hin|[<-|[]]].
    + apply (Hfresh k'); [now right|assumption].
    + contradiction.
Qed.

Lemma obj_lookup_assign (k : jsstring) (src target : list (jsstring * value)) :
  ~ In k (keys src) ->
  obj_lookup k (obj_assign target src) = obj_lookup k target.
Proof.
  unfold obj_assign. revert target.
  induction src as [|[k0 v0] src IH]; simpl; intros target H; [reflexivity|].
  rewrite IH by tauto. rewrite obj_lookup_set.
  destruct (str_eqb k k0) eqn:E; [|reflexivity].
  apply str_eqb_eq in E. subst. tauto.
Qed.

(** ** Reading and iterating *)

Lemma get_readable (v : value) (k : jsstring) :
  readable v = true -> exists x, get v k = Ok x.
Proof. destruct v; simpl; try discriminate; eauto. Qed.

Lemma state_eta (s : State) :
  mkState (customers s) (technicians s) (devices s) (tickets s) = s.
Proof. now destruct s. Qed.

Lemma update_each_absent (clock : nat -> jsstring) (i : nat) (id : jsstring)
  (updates : value) (l : list value) :
  forallb (fun tk => readable tk && negb (has_id id tk)) l = true ->
  update_each clock i id updates l = Ok l.
Proof.
  induction l as [|tk l IH]; simpl; intros H; [reflexivity|].
  apply andb_true_iff in H. destruct H as [Htk Hl].
  apply andb_true_iff in Htk. destruct Htk as [Hr Hid].
  apply negb_true_iff in Hid. unfold has_id in Hid.
  destruct (get_readable tk (js "id") Hr) as [tid Htid].
  rewrite Htid in Hid |- *. simpl. rewrite Hid, (IH Hl). reflexivity.
Qed.

Lemma filterM_has_id (id : jsstring) (l : list value) :
  forallb readable l = true ->
  filterM (fun tk => tid <- get tk (js "id") ;; Ok (negb (strict_eq tid (VStr id)))) l
  = Ok (filter (fun tk => negb (has_id id tk)) l).
Proof.
  induction l as [|tk l IH]; simpl; intros H; [reflexivity|].
  apply andb_true_iff in H. destruct H as [Hr Hl].
  unfold has_id. destruct (get_readable tk (js "id") Hr) as [tid Htid].
  rewrite Htid. simpl. rewrite (IH Hl). simpl.
  destruct (strict_eq tid (VStr id)); reflexivity.
Qed.

Lemma filter_twice {A} (p : A -> bool) (l : list A) :
  filter p (filter p l) = filter p l.
Proof.
  induction l as [|a l IH]; simpl; [reflexivity|].
  destruct (p a) eqn:E; simpl; [rewrite E, IH|]; auto.
Qed.

Lemma forallb_filter {A} (p q : A -> bool) (l : list A) :
  forallb p l = true -> forallb p (filter q l) = true.
Proof.
  induction l as [|a l IH]; simpl; [reflexivity|].
  intros H. apply andb_true_iff in H. destruct H as [Ha Hl].
  destruct (q a); simpl; [rewrite Ha|]; auto.
Qed.

Lemma spread_fields (base fields : list (jsstring * value)) :
  distinct (keys fields) = true ->
  forallb (fun k => negb (has_key k fields)) (keys base) = true ->
  spread base (VObj fields) = base ++ fields.
Proof.
  intros Hd Hb. unfold spread. simpl. apply obj_assign_fresh.
  - now apply distinct_NoDup.
  - intros k Hk Hin. rewrite forallb_forall in Hb. specialize (Hb k Hin).
    apply negb_true_iff in Hb. unfold has_key in Hb.
    apply obj_lookup_none in Hk; [assumption|].
    destruct (obj_lookup k fields); [discriminate|reflexivity].
Qed.

(* ================================================================= *)
(** ** updateTicket with an id that no ticket has *)

Lemma update_each_no_match (clock : nat -> jsstring) (id : jsstring)
  (updates : value) (l : list value) :
  forallb (fun tk => negb (has_id id tk)) l = true ->
  forall i l', update_each clock i id updates l = Ok l' -> l' = l.
Proof.
  induction l as [|tk l IH]; intros H i l' E; [now injection E|].
  cbn [forallb] in H. apply andb_true_iff in H. destruct H as [Hid Hl].
  apply negb_true_iff in Hid. unfold has_id in Hid. cbn [update_each] in E.
  destruct (get tk (js "id")) as [tid|e]; [|discriminate]. cbn [bind] in E.
  rewrite Hid in E.
  destruct (update_each clock i id updates l) as [r|e] eqn:R; [|discriminate].
  injection E as <-. now rewrite (IH Hl i r R).
Qed.

(** C6.  When no ticket of the collection has the id, [updateTicket] is a
    no-op whatever the partial fields are: after the call the state is the
    state before it, so the tickets have kept their number, order and
    contents and the other three collections are as they were.  And the
    call returns, unless the collection holds something that has no
    properties to read. *)
Theorem updateTicket_absent_id (clock : nat -> jsstring) (id : jsstring)
  (updates : value) (w : World) :
  forallb (fun tk => negb (has_id id tk)) (ticket_list w) = true ->
  state (after (updateTicket clock id updates w) w) = state w
  /\ (forall l, tickets (state w) = VArr l ->
                forallb readable l = true ->
                exists w', updateTicket clock id updates w = Ok w'
                           /\ tickets (state w') = VArr l
                           /\ length l = length (ticket_list w)
                           /\ state w' = state w).
Proof.
  intros H. unfold ticket_list in H. split.
  - unfold updateTicket.
    destruct (tickets (state w)) as [| | | | |l|] eqn:Ht; try reflexivity.
    cbn [as_array bind].
    destruct (update_each clock 0 id updates l) as [l'|e] eqn:E; [|reflexivity].
    rewrite (update_each_no_match clock id updates l H 0 E).
    cbn [bind after state]. rewrite <- Ht. apply state_eta.
  - intros l Ht Hr. rewrite Ht in H.
    assert (forallb (fun tk => readable tk && negb (has_id id tk)) l = true) as Hl.
    { rewrite forallb_forall in *. intros tk Hin.
      now rewrite (Hr tk Hin), (H tk Hin). }
    unfold updateTicket, ticket_list. rewrite Ht. cbn [as_array bind].
    rewrite (update_each_absent clock 0 id updates l Hl). cbn [bind].
    eexists. split; [reflexivity|]. cbn [state tickets].
    repeat (split; [reflexivity|]). rewrite <- Ht. apply state_eta.
Qed.

Lemma updateTicket_absent_id_witness :
  let t1 := VObj [(js "id", VStr (js "t1")); (js "status", VStr (js "New"))] in
  let w := mkWorld (mkState (VArr []) (VArr []) (VArr []) (VArr [t1])) None in
  let clock := fun _ : nat => js "2024-05-01T10:00:00.000Z" in
  let updates := VObj [(js "status", VStr (js "Ready"))] in
  state (after (updateTicket clock (js "t2") updates w) w) = state w
  /\ exists w', updateTicket clock (js "t2") updates w = Ok w'
                /\ tickets (state w') = VArr [t1]
                /\ state w' = state w.
Proof.
  intros t1 w clock updates.
  destruct (@updateTicket_absent_id clock (js "t2") updates w eq_refl)
    as [H1 H2].
  split; [exact H1|].
  destruct (H2 [t1] eq_refl eq_refl) as [w' [E [T [_ S]]]].
  exists w'. repeat split; assumption.
Defined.

(* ================================================================= *)
(** ** removeTicket *)

Lemma filterM_again {A} (f : A -> result bool) (l kept : list A) :
  filterM f l = Ok kept -> filterM f kept = Ok kept.
Proof.
  revert kept. induction l as [|a l IH]; cbn [filterM]; intros kept E.
  - now injection E as <-.
  - destruct (f a) as [b|e] eqn:Fa; [|discriminate]. cbn [bind] in E.
    destruct (filterM f l) as [r|e]; [|discriminate]. cbn [bind] in E.
    injection E as <-. specialize (IH r eq_refl).
    destruct b; [|exact IH]. cbn [filterM]. now rewrite Fa, IH.
Qed.

Lemma removeTicket_again (id : jsstring) (w w1 : World) :
  removeTicket id w = Ok w1 -> removeTicket id w1 = Ok w1.
Proof.
  unfold removeTicket at 1.
  destruct (as_array (tickets (state w)) (js "filter")) as [l|e];
    [|discriminate]. cbn [bind].
  match goal with |- context [filterM ?f l] =>
    destruct (filterM f l) as [kept|e] eqn:E end; [|discriminate].
  cbn [bind]. intros [= <-]. unfold removeTicket.
  cbn [state tickets as_array bind customers technicians devices].
  now rewrite (filterM_again _ _ E).
Qed.

(** C7.  [removeTicket id] keeps exactly the tickets whose id differs, in
    their order, and leaves the other collections alone.  Calling it again
    at once changes nothing: on every world, the world after two calls is
    the world after one. *)
Theorem removeTicket_idempotent (id : jsstring) (w : World) :
  (let w1 := after (removeTicket id w) w in
   after (removeTicket id w1) w1 = w1)
  /\ (forall l, tickets (state w) = VArr l ->
                forallb readable l = true ->
                exists w1, removeTicket id w = Ok w1
                  /\ tickets (state w1)
                     = VArr (filter (fun tk => negb (has_id id tk)) l)
                  /\ customers (state w1) = customers (state w)
                  /\ technicians (state w1) = technicians (state w)
                  /\ devices (state w1) = devices (state w)
                  /\ removeTicket id w1 = Ok w1).
Proof.
  split.
  - cbn zeta. destruct (removeTicket id w) as [w1|e] eqn:R; cbn [after].
    + now rewrite (removeTicket_again id w R).
    + now rewrite R.
  - intros l Ht Hl. unfold removeTicket at 1. rewrite Ht. simpl.
    rewrite (filterM_has_id id l Hl). simpl.
    eexists. split; [reflexivity|]. simpl. repeat (split; [reflexivity|]).
    unfold removeTicket. simpl.
    rewrite filterM_has_id by now apply forallb_filter.
    simpl. rewrite filter_twice. reflexivity.
Qed.

Lemma removeTicket_idempotent_witness :
  let t1 := VObj [(js "id", VStr (js "t1"))] in
  let t2 := VObj [(js "id", VStr (js "t2"))] in
  let w := mkWorld (mkState (VArr []) (VArr []) (VArr []) (VArr [t1; t2; t1])) None in
  exists w1, removeTicket (js "t1") w = Ok w1
             /\ tickets (state w1) = VArr [t2]
             /\ customers (state w1) = customers (state w)
             /\ technicians (state w1) = technicians (state w)
             /\ devices (state w1) = devices (state w)
             /\ removeTicket (js "t1") w1 = Ok w1.
Proof.
  intros t1 t2 w.
  apply (proj2 (removeTicket_idempotent (js "t1") w) [t1; t2; t1]);
    reflexivity.
Defined.

(* ================================================================= *)
(** ** addCustomer, addTechnician, addDevice, addTicket *)

(** C8.  With the four collections being arrays and [fields] a field set
    that leaves the assigned keys out (as the parameter types require:
    no [id], and for a ticket no [createdAt] and no [updatedAt]), each
    [add] returns, puts one new item in front of its collection, so that
    the collection grows by exactly one, and leaves the other three
    collections alone.  The new item carries the drawn identifier under
    [id], followed by the fields; a new ticket carries the clock reading
    under both [createdAt] and [updatedAt]. *)
Theorem add_prepends_one (uuid now : jsstring)
  (fields : list (jsstring * value)) (lc lt ld lk : list value)
  (st : option jsstring) :
  distinct (keys fields) = true ->
  has_key (js "id") fields = false ->
  let w := mkWorld (mkState (VArr lc) (VArr lt) (VArr ld) (VArr lk)) st in
  (exists st',
      addCustomer uuid (VObj fields) w =
      Ok (mkWorld (mkState (VArr (VObj ((js "id", VStr uuid) :: fields) :: lc))
                     (VArr lt) (VArr ld) (VArr lk)) st'))
  /\ (exists st',
      addTechnician uuid (VObj fields) w =
      Ok (mkWorld (mkState (VArr lc)
                     (VArr (VObj ((js "id", VStr uuid) :: fields) :: lt))
                     (VArr ld) (VArr lk)) st'))
  /\ (exists st',
      addDevice uuid (VObj fields) w =
      Ok (mkWorld (mkState (VArr lc) (VArr lt)
                     (VArr (VObj ((js "id", VStr uuid) :: fields) :: ld))
                     (VArr lk)) st'))
  /\ (has_key (js "createdAt") fields = false ->
      has_key (js "updatedAt") fields = false ->
      exists st' item,
        addTicket uuid now (VObj fields) w =
        Ok (mkWorld (mkState (VArr lc) (VArr lt) (VArr ld) (VArr (item :: lk))) st')
        /\ item = VObj ((js "id", VStr uuid) :: (js "createdAt", VStr now)
                          :: (js "updatedAt", VStr now) :: fields)
        /\ get item (js "id") = Ok (VStr uuid)
        /\ get item (js "createdAt") = get item (js "updatedAt")
        /\ length (item :: lk) = S (length lk)).
Proof.
  intros Hd Hid w.
  assert (spread [(js "id", VStr uuid)] (VObj fields)
          = (js "id", VStr uuid) :: fields) as E.
  { apply (spread_fields [(js "id", VStr uuid)]); [assumption|].
    simpl. now rewrite Hid. }
  repeat split.
  - unfold addCustomer. simpl. rewrite E. eexists. reflexivity.
  - unfold addTechnician. simpl. rewrite E. eexists. reflexivity.
  - unfold addDevice. simpl. rewrite E. eexists. reflexivity.
  - intros Hc Hu. unfold addTicket. cbn [state tickets iterate bind].
    rewrite (spread_fields
               [(js "id", VStr uuid); (js "createdAt", VStr now);
                (js "updatedAt", VStr now)])
      by (try assumption; simpl; now rewrite Hid, Hc, Hu).
    do 2 eexists. repeat split.
Qed.

Lemma add_prepends_one_witness :
  let fields := [(js "name", VStr (js "John Doe")); (js "phone", VUndefined)] in
  let w := mkWorld empty_state None in
  (exists st',
      addCustomer (js "c-1") (VObj fields) w =
      Ok (mkWorld (mkState (VArr [VObj ((js "id", VStr (js "c-1")) :: fields)])
                     (VArr []) (VArr []) (VArr [])) st'))
  /\ (exists st' item,
        addTicket (js "c-1") (js "2024-05-01T10:00:00.000Z") (VObj fields) w =
        Ok (mkWorld (mkState (VArr []) (VArr []) (VArr []) (VArr [item])) st')
        /\ get item (js "createdAt") = Ok (VStr (js "2024-05-01T10:00:00.000Z"))
        /\ get item (js "updatedAt") = Ok (VStr (js "2024-05-01T10:00:00.000Z"))).
Proof.
  intros fields w.
  destruct (@add_prepends_one (js "c-1") (js "2024-05-01T10:00:00.000Z")
              fields [] [] [] [] None eq_refl eq_refl)
    as [Hc [_ [_ Ht]]].
  split; [exact Hc|].
  destruct (Ht eq_refl eq_refl) as [st' [item [Hadd [Hitem _]]]].
  exists st', item. split; [exact Hadd|]. subst item. split; reflexivity.
Defined.

(* ================================================================= *)
(** ** importAll *)

(** C4.  When [JSON.parse] rejects the text, [importAll] returns the
    message of the error, a string and not [null], and the world, so the
    four collections, is what it was. *)
Theorem importAll_invalid_json (json : jsstring) (w : World) (e : exn) :
  JSON_parse json = Throw e ->
  importAll json w = (Some (message e), w)
  /\ state (snd (importAll json w)) = state w.
Proof.
  intros H. unfold importAll, import_collections. rewrite H. simpl.
  split; reflexivity.
Qed.

Lemma importAll_invalid_json_witness :
  let w := mkWorld (mkState (VArr [VObj [(js "id", VStr (js "c1"))]])
                      (VArr []) (VArr []) (VArr [])) None in
  JSON_parse (js "not json") = Throw invalid_json
  /\ importAll (js "not json") w = (Some (message invalid_json), w)
  /\ state (snd (importAll (js "not json") w)) = state w.
Proof.
  intros w. split; [reflexivity|].
  apply (@importAll_invalid_json (js "not json") w invalid_json). reflexivity.
Defined.

(** C5.  When the text parses to an object of the four-collection shape,
    [importAll] returns [null] and the new state is made of the parsed
    collections alone: under each key the parsed array, or the empty array
    when the key is missing.  Nothing of the previous state is kept. *)
Theorem importAll_replaces_wholesale (json : jsstring) (w : World)
  (props : list (jsstring * value)) :
  JSON_parse json = Ok (VObj props) ->
  four_collection_shape props = true ->
  fst (importAll json w) = None
  /\ state (snd (importAll json w)) =
     mkState (parsed_collection props (js "customers"))
             (parsed_collection props (js "technicians"))
             (parsed_collection props (js "devices"))
             (parsed_collection props (js "tickets")).
Proof.
  intros Hp Hs. unfold four_collection_shape in Hs.
  repeat (apply andb_true_iff in Hs; destruct Hs as [Hs ?]).
  unfold collection_shape, parsed_collection in *.
  unfold importAll, import_collections. rewrite Hp. simpl.
  destruct (obj_lookup (js "customers") props) as [[]|]; try discriminate;
  destruct (obj_lookup (js "technicians") props) as [[]|]; try discriminate;
  destruct (obj_lookup (js "devices") props) as [[]|]; try discriminate;
  destruct (obj_lookup (js "tickets") props) as [[]|]; try discriminate;
  split; reflexivity.
Qed.

Lemma importAll_replaces_wholesale_witness :
  let old := VObj [(js "id", VStr (js "old"))] in
  let w := mkWorld (mkState (VArr [old]) (VArr [old]) (VArr [old]) (VArr [old])) None in
  let json := js "{ " ++ quote (js "tickets") ++ js ": [ { " ++ quote (js "id")
                ++ js ": " ++ quote (js "t9") ++ js " } ] }" in
  fst (importAll json w) = None
  /\ state (snd (importAll json w)) =
     mkState (VArr []) (VArr []) (VArr [])
       (VArr [VObj [(js "id", VStr (js "t9"))]]).
Proof.
  intros old w json.
  apply (@importAll_replaces_wholesale json w
           [(js "tickets", VArr [VObj [(js "id", VStr (js "t9"))]])]);
    reflexivity.
Defined.

Lemma get_lacking (v : value) (k : jsstring) :
  readable v = true ->
  match v with VObj props => has_key k props = false | _ => True end ->
  get v k = Ok VUndefined.
Proof.
  destruct v; simpl; try discriminate; try reflexivity.
  unfold has_key. intros _ H. destruct (obj_lookup k props); [discriminate|reflexivity].
Qed.

(** C10.  [importAll] does not ask for an object.  Whatever the text
    parses to, as long as it is not [null] and has none of the four keys,
    the call returns [null] and leaves four empty collections: so for the
    text [5].  The text [null] parses, to [null]; reading its [customers]
    throws, and [importAll] returns the message with the state
    unchanged. *)
Theorem importAll_without_collection_keys :
  (forall (json : jsstring) (w : World) (v : value),
      JSON_parse json = Ok v ->
      readable v = true ->
      lacks_collection_keys v = true ->
      fst (importAll json w) = None
      /\ state (snd (importAll json w)) = empty_state)
  /\ (forall w : World,
        JSON_parse (js "5") = Ok (VNum (Finite false [5%N] 1))
        /\ fst (importAll (js "5") w) = None
        /\ state (snd (importAll (js "5") w)) = empty_state)
  /\ (forall w : World,
        JSON_parse (js "null") = Ok VNull
        /\ exists msg, importAll (js "null") w = (Some msg, w)).
Proof.
  split; [|split].
  - intros json w v Hp Hr Hl. unfold importAll, import_collections.
    rewrite Hp. cbn [bind].
    assert (forall k, In k [js "customers"; js "technicians"; js "devices"; js "tickets"] ->
                      get v k = Ok VUndefined) as G.
    { intros k Hk. apply get_lacking; [assumption|].
      destruct v; try exact I. simpl in Hl.
      repeat (apply andb_true_iff in Hl; destruct Hl as [Hl ?]).
      simpl in Hk. decompose [or] Hk; subst; try contradiction;
        now apply negb_true_iff. }
    rewrite !G by (simpl; tauto). simpl. split; reflexivity.
  - intros w. repeat split.
  - intros w. split; [reflexivity|]. eexists. reflexivity.
Qed.

Lemma importAll_without_collection_keys_witness :
  let w := mkWorld (mkState (VArr [VObj [(js "id", VStr (js "c1"))]])
                      (VArr []) (VArr []) (VArr [])) None in
  fst (importAll (js "[true, 7]") w) = None
  /\ state (snd (importAll (js "[true, 7]") w)) = empty_state.
Proof.
  intros w.
  apply (proj1 importAll_without_collection_keys (js "[true, 7]") w
           (VArr [VBool true; VNum (Finite false [7%N] 1)]));
    reflexivity.
Defined.

(* ================================================================= *)
(** ** updateTicket on a ticket of the collection *)

Lemma spread_empty_object (props : list (jsstring * value)) :
  distinct (keys props) = true -> spread [] (VObj props) = props.
Proof.
  intros H. unfold spread. simpl. rewrite obj_assign_fresh; auto.
  now apply distinct_NoDup.
Qed.

Lemma get_obj (props : list (jsstring * value)) (k : jsstring) :
  get (VObj props) k =
  Ok (match obj_lookup k props with Some x => x | None => VUndefined end).
Proof. reflexivity. Qed.

Lemma wf_value_object (props : list (jsstring * value)) :
  wf_value (VObj props) = true -> distinct (keys props) = true.
Proof. simpl. intros H. now apply andb_true_iff in H. Qed.

Lemma update_each_ready (clock : nat -> jsstring) (id : jsstring) (l : list value) :
  forallb readable l = true ->
  forallb wf_value l = true ->
  forall i, exists l',
    update_each clock i id (VObj [(js "status", VStr (js "Ready"))]) l = Ok l'
    /\ Forall2 (marked_ready clock id) l l'.
Proof.
  induction l as [|tk l IH]; intros Hr Hw i.
  - exists []. split; [reflexivity|constructor].
  - simpl in Hr, Hw. apply andb_true_iff in Hr. destruct Hr as [Hr Hrl].
    apply andb_true_iff in Hw. destruct Hw as [Hw Hwl].
    cbn [update_each].
    destruct (has_id id tk) eqn:Hid.
    + destruct (has_id_object _ _ Hid) as [props [-> Hlk]].
      apply has_id_spec in Hid. rewrite Hid. cbn [bind].
      rewrite (proj2 (strict_eq_str _ _) eq_refl).
      destruct (IH Hrl Hwl (S i)) as [l' [El' Hl']]. rewrite El'. cbn [bind].
      eexists. split; [reflexivity|]. constructor; [|assumption].
      unfold marked_ready.
      rewrite (proj2 (has_id_spec id (VObj props)) Hid).
      rewrite (spread_empty_object props (wf_value_object props Hw)).
      unfold spread, obj_assign. cbn [own_props fold_left fst snd].
      rewrite !get_obj, !obj_lookup_set. split; [reflexivity|].
      split; [exists i; reflexivity|].
      intros k Hk1 Hk2. rewrite !get_obj, !obj_lookup_set.
      rewrite (proj2 (str_eqb_neq _ _) Hk1), (proj2 (str_eqb_neq _ _) Hk2).
      reflexivity.
    + assert (exists tid, get tk (js "id") = Ok tid) as [tid Htid]
          by now apply get_readable.
      unfold has_id in Hid. rewrite Htid in Hid |- *. cbn [bind]. rewrite Hid.
      destruct (IH Hrl Hwl i) as [l' [El' Hl']]. rewrite El'. cbn [bind].
      eexists. split; [reflexivity|]. constructor; [|assumption].
      unfold marked_ready, has_id. now rewrite Htid, Hid.
Qed.

Lemma Forall2_combine {A B} (R : A -> B -> Prop) (l : list A) (l' : list B) :
  Forall2 R l l' -> forall a b, In (a, b) (combine l l') -> R a b.
Proof.
  induction 1 as [|x y l l' Hxy _ IH]; simpl; intros a b Hin; [contradiction|].
  destruct Hin as [Heq|Hin]; [injection Heq as <- <-; assumption|now apply IH].
Qed.

(** C2, as the code has it.  On a collection of well-formed tickets
    [updateTicket id {status: "Ready"}] returns, leaves customers,
    technicians and devices alone and keeps every ticket with another id;
    a ticket with the id gets the status, keeps every other property but
    [updatedAt], and gets as [updatedAt] a reading of the clock taken during
    the call.  That reading is later than the previous [updatedAt] when the
    clock is: the code compares nothing. *)
Theorem updateTicket_status_ready (clock : nat -> jsstring) (id : jsstring)
  (w : World) (l : list value) :
  tickets (state w) = VArr l ->
  forallb readable l = true ->
  forallb wf_value l = true ->
  exists w' l',
    updateTicket clock id (VObj [(js "status", VStr (js "Ready"))]) w = Ok w'
    /\ tickets (state w') = VArr l'
    /\ customers (state w') = customers (state w)
    /\ technicians (state w') = technicians (state w)
    /\ devices (state w') = devices (state w)
    /\ Forall2 (marked_ready clock id) l l'
    /\ (forall tk tk' u,
          In (tk, tk') (combine l l') ->
          has_id id tk = true ->
          get tk (js "updatedAt") = Ok (VStr u) ->
          (forall j, str_ltb u (clock j) = true) ->
          exists u', get tk' (js "updatedAt") = Ok (VStr u')
                     /\ str_ltb u u' = true).
Proof.
  intros Ht Hr Hw.
  destruct (update_each_ready clock id l Hr Hw 0) as [l' [El' Hl']].
  unfold updateTicket. rewrite Ht. cbn [as_array bind]. rewrite El'. cbn [bind].
  eexists. exists l'. split; [reflexivity|]. cbn [state tickets customers technicians devices].
  repeat (split; [reflexivity|]). split; [assumption|].
  intros tk tk' u Hin Hid Hu Hclock.
  pose proof (Forall2_combine Hl' _ _ Hin) as M.
  unfold marked_ready in M. rewrite Hid in M.
  destruct M as [_ [[j Hj] _]]. exists (clock j). split; [assumption|apply Hclock].
Qed.

Lemma updateTicket_status_ready_witness :
  let tk := VObj [(js "id", VStr (js "t1"));
                  (js "createdAt", VStr (js "2024-05-01T10:00:00.000Z"));
                  (js "updatedAt", VStr (js "2024-05-01T10:00:00.000Z"));
                  (js "status", VStr (js "New"))] in
  let w := mkWorld (mkState (VArr []) (VArr []) (VArr []) (VArr [tk])) None in
  let clock := fun _ : nat => js "2024-05-02T08:30:00.000Z" in
  exists w' l',
    updateTicket clock (js "t1") (VObj [(js "status", VStr (js "Ready"))]) w = Ok w'
    /\ tickets (state w') = VArr l'
    /\ Forall2 (marked_ready clock (js "t1")) [tk] l'.
Proof.
  intros tk w clock.
  destruct (@updateTicket_status_ready clock (js "t1") w [tk]
              eq_refl eq_refl eq_refl)
    as [w' [l' [H1 [H2 [_ [_ [_ [H3 _]]]]]]]].
  exists w', l'. repeat split; assumption.
Defined.

(** C2, as the claim has it, fails where the clock has not moved since the
    ticket was stamped (the ticket was added within the same millisecond,
    or was imported with a later date): the new [updatedAt] is the old one,
    not a strictly greater one. *)
Lemma updateTicket_same_instant :
  let t0 := js "2024-05-01T10:00:00.000Z" in
  let tk := VObj [(js "id", VStr (js "t1")); (js "createdAt", VStr t0);
                  (js "updatedAt", VStr t0); (js "status", VStr (js "New"))] in
  let w := mkWorld (mkState (VArr []) (VArr []) (VArr []) (VArr [tk])) None in
  exists w' tk',
    updateTicket (fun _ => t0) (js "t1")
      (VObj [(js "status", VStr (js "Ready"))]) w = Ok w'
    /\ tickets (state w') = VArr [tk']
    /\ get tk (js "updatedAt") = Ok (VStr t0)
    /\ get tk' (js "updatedAt") = Ok (VStr t0)
    /\ str_ltb t0 t0 = false.
Proof.
  intros t0 tk w. do 2 eexists. repeat split.
Qed.

(* ================================================================= *)
(** ** createdAt and updatedAt along a sequence of calls *)

Lemma has_key_false (k : jsstring) (o : list (jsstring * value)) :
  has_key k o = false <-> ~ In k (keys o).
Proof.
  unfold has_key. rewrite <- obj_lookup_none.
  destruct (obj_lookup k o); split; congruence.
Qed.

Lemma wf_flat (v : value) : wf_value v = true -> flat_ok v = true.
Proof.
  destruct v; simpl; auto. intros H. now apply andb_true_iff in H.
Qed.

Lemma created_at_stamps (tid : jsstring) (l l' : list value) :
  map (stamp tid) l' = map (stamp tid) l ->
  map (field (js "createdAt")) (filter (has_id tid) l')
  = map (field (js "createdAt")) (filter (has_id tid) l).
Proof.
  revert l'. induction l as [|a l IH]; intros [|a' l'] H; try discriminate;
    [reflexivity|].
  cbn [map stamp] in H. injection H as Hid Hc Hl. cbn [filter]. rewrite Hid.
  destruct (has_id tid a); cbn [map]; rewrite ?Hc; [f_equal|]; auto.
Qed.

Lemma updated_object (clock_i : jsstring) (props : list (jsstring * value))
  (updates : value) (k : jsstring) :
  distinct (keys props) = true ->
  has_key k (own_props updates) = false ->
  k <> js "updatedAt" ->
  obj_lookup k (obj_set (js "updatedAt") (VStr clock_i)
                  (spread (spread [] (VObj props)) updates))
  = obj_lookup k props.
Proof.
  intros Hd Hk Hne. rewrite obj_lookup_set, (proj2 (str_eqb_neq _ _) Hne).
  rewrite (spread_empty_object props Hd). unfold spread.
  apply obj_lookup_assign. now apply has_key_false.
Qed.

Lemma update_each_stamps (tid : jsstring) (clock : nat -> jsstring)
  (id : jsstring) (updates : value) (l : list value) :
  has_key (js "id") (own_props updates) = false ->
  has_key (js "createdAt") (own_props updates) = false ->
  forallb flat_ok l = true ->
  forall i l', update_each clock i id updates l = Ok l' ->
    forallb flat_ok l' = true /\ map (stamp tid) l' = map (stamp tid) l.
Proof.
  intros Hi Hc. induction l as [|tk l IH]; intros Hf i l' E.
  - injection E as <-. split; reflexivity.
  - simpl in Hf. apply andb_true_iff in Hf. destruct Hf as [Hf Hfl].
    cbn [update_each] in E.
    destruct (get tk (js "id")) as [x|e] eqn:G; [|discriminate].
    cbn [bind] in E. destruct (strict_eq x (VStr id)) eqn:Hs.
    + apply strict_eq_str in Hs. subst x.
      destruct (update_each clock (S i) id updates l) as [r|e] eqn:R;
        [|discriminate].
      injection E as <-. destruct (IH Hfl _ _ R) as [F M].
      destruct (has_id_object id tk (proj2 (has_id_spec id tk) G))
        as [props [-> _]].
      simpl in Hf. split.
      * cbn [forallb flat_ok]. rewrite F, andb_true_r.
        apply distinct_NoDup, obj_set_NoDup. unfold spread.
        apply obj_assign_NoDup, obj_assign_NoDup. constructor.
      * cbn [map]. f_equal; [|assumption].
        unfold stamp, has_id, field. rewrite !get_obj.
        rewrite !updated_object by (assumption || discriminate). reflexivity.
    + destruct (update_each clock i id updates l) as [r|e] eqn:R;
        [|discriminate].
      injection E as <-. destruct (IH Hfl _ _ R) as [F M].
      split; [cbn [forallb]; now rewrite Hf, F|cbn [map]; now f_equal].
Qed.

Lemma filterM_filter {A} (f : A -> result bool) (l kept : list A) :
  filterM f l = Ok kept ->
  kept = filter (fun a => match f a with Ok b => b | Throw _ => false end) l.
Proof.
  revert kept. induction l as [|a l IH]; simpl; intros kept E.
  - now injection E as <-.
  - destruct (f a) as [b|e]; [|discriminate]. cbn [bind] in E.
    destruct (filterM f l) as [r|e]; [|discriminate]. cbn [bind] in E.
    injection E as <-. rewrite (IH r eq_refl). reflexivity.
Qed.

Lemma incl_filter_map {A B} (g : A -> B) (p q : A -> bool) (l : list A) :
  incl (map g (filter p (filter q l))) (map g (filter p l)).
Proof.
  induction l as [|a l IH]; simpl; [apply incl_refl|].
  destruct (q a), (p a) eqn:P; simpl; rewrite ?P; simpl.
  - now apply incl_cons; [left|apply incl_tl].
  - assumption.
  - now apply incl_tl.
  - assumption.
Qed.

Lemma stamp_of_new_ticket (tid uuid now : jsstring) (t : value) :
  str_eqb uuid tid = false ->
  has_key (js "id") (own_props t) = false ->
  let item := VObj (spread [(js "id", VStr uuid); (js "createdAt", VStr now);
                            (js "updatedAt", VStr now)] t) in
  flat_ok item = true /\ has_id tid item = false.
Proof.
  intros Hu Hk item. split.
  - apply distinct_NoDup. unfold spread. apply obj_assign_NoDup.
    apply distinct_NoDup. reflexivity.
  - unfold has_id, item, spread. rewrite get_obj.
    rewrite obj_lookup_assign by now apply has_key_false.
    simpl. apply str_eqb_neq in Hu. apply str_eqb_neq. congruence.
Qed.

Lemma has_id_string (tid : jsstring) (l : list jsstring) :
  filter (has_id tid) (map VStr l) = [] /\ forallb flat_ok (map VStr l) = true.
Proof. induction l as [|a l [IH1 IH2]]; simpl; auto. Qed.

Lemma step_keeps_stamp (tid : jsstring) (o : op) (w : World) :
  keeps_stamp tid o = true ->
  forallb flat_ok (ticket_list w) = true ->
  forallb flat_ok (ticket_list (step o w)) = true
  /\ incl (created_at tid (step o w)) (created_at tid w).
Proof.
  intros Hk Hf. unfold created_at.
  destruct w as [s st].
  destruct o as [uuid c|uuid t|uuid d|uuid now t|clock id updates|id|json];
    cbn [step keeps_stamp] in *.
  - unfold addCustomer. cbn [state]. destruct (iterate (customers s));
      (split; [assumption|apply incl_refl]).
  - unfold addTechnician. cbn [state]. destruct (iterate (technicians s));
      (split; [assumption|apply incl_refl]).
  - unfold addDevice. cbn [state]. destruct (iterate (devices s));
      (split; [assumption|apply incl_refl]).
  - apply andb_true_iff in Hk. destruct Hk as [Hu Hi].
    apply negb_true_iff in Hu, Hi.
    destruct (stamp_of_new_ticket tid uuid now t Hu Hi) as [F I].
    unfold addTicket, ticket_list in *. cbn [state] in *.
    destruct (tickets s) as [| | | |x|l|] eqn:T;
      cbn [iterate bind after state tickets]; rewrite ?T;
      try (split; [reflexivity|apply incl_refl]).
    + destruct (has_id_string tid (code_points x)) as [E1 E2].
      cbn [forallb filter]. rewrite F, I, E1, E2.
      split; [reflexivity|apply incl_refl].
    + cbn [forallb filter]. rewrite F, I, Hf.
      split; [reflexivity|apply incl_refl].
  - apply andb_true_iff in Hk. destruct Hk as [Hi Hc].
    apply negb_true_iff in Hi, Hc.
    unfold updateTicket, ticket_list in *. cbn [state] in *.
    destruct (tickets s) as [| | | | |l|] eqn:T;
      cbn [as_array get bind after state tickets]; rewrite ?T;
      try (split; [reflexivity|apply incl_refl]).
    destruct (update_each clock 0 id updates l) as [l'|e] eqn:E;
      cbn [bind after state tickets]; rewrite ?T.
    + destruct (update_each_stamps tid clock id updates l Hi Hc Hf 0 E)
        as [F M].
      split; [assumption|]. rewrite (created_at_stamps tid l l' M).
      apply incl_refl.
    + split; [assumption|apply incl_refl].
  - unfold removeTicket, ticket_list in *. cbn [state] in *.
    destruct (tickets s) as [| | | | |l|] eqn:T;
      cbn [as_array get bind after state tickets]; rewrite ?T;
      try (split; [reflexivity|apply incl_refl]).
    match goal with |- context [filterM ?f l] =>
      destruct (filterM f l) as [kept|e] eqn:E end;
      cbn [bind after state tickets]; rewrite ?T.
    + apply filterM_filter in E. subst kept. split.
      * now apply forallb_filter.
      * apply incl_filter_map.
    + split; [assumption|apply incl_refl].
  - discriminate.
Qed.

Lemma run_keeps_stamp (tid : jsstring) (ops : list op) (w : World) :
  forallb (keeps_stamp tid) ops = true ->
  forallb flat_ok (ticket_list w) = true ->
  incl (created_at tid (run ops w)) (created_at tid w).
Proof.
  revert w. induction ops as [|o ops IH]; intros w Hk Hf; [apply incl_refl|].
  simpl in Hk. apply andb_true_iff in Hk. destruct Hk as [Ho Hops].
  destruct (step_keeps_stamp tid o w Ho Hf) as [F I].
  unfold run in *. cbn [fold_left].
  eapply incl_tran; [apply (IH (step o w) Hops F)|exact I].
Qed.

Lemma update_each_refreshes (clock : nat -> jsstring) (id : jsstring)
  (updates : value) (l : list value) :
  forallb readable l = true ->
  forall i, exists l',
    update_each clock i id updates l = Ok l'
    /\ Forall2 (refreshed clock id) l l'.
Proof.
  induction l as [|tk l IH]; intros Hr i.
  - exists []. split; [reflexivity|constructor].
  - simpl in Hr. apply andb_true_iff in Hr. destruct Hr as [Hr Hrl].
    destruct (get_readable tk (js "id") Hr) as [tid Htid].
    cbn [update_each]. rewrite Htid. cbn [bind].
    destruct (strict_eq tid (VStr id)) eqn:Hs.
    + destruct (IH Hrl (S i)) as [l' [El' Hl']]. rewrite El'. cbn [bind].
      eexists. split; [reflexivity|]. constructor; [|assumption].
      unfold refreshed, has_id. rewrite Htid, Hs. exists i.
      rewrite get_obj, obj_lookup_set, str_eqb_refl. reflexivity.
    + destruct (IH Hrl i) as [l' [El' Hl']]. rewrite El'. cbn [bind].
      eexists. split; [reflexivity|]. constructor; [|assumption].
      unfold refreshed, has_id. now rewrite Htid, Hs.
Qed.

(** C3, as the code has it.  Along any sequence of calls other than
    [importAll], in which no partial fields bring an [id] or a [createdAt]
    and no new ticket takes the id [tid], a ticket with id [tid] found in
    the store has the [createdAt] that a ticket with that id had at the
    start.  And [updateTicket], with any partial fields at all, stamps
    every ticket that has the id with a reading of the clock. *)
Theorem createdAt_kept_updatedAt_refreshed :
  (forall (tid : jsstring) (ops : list op) (w : World),
      forallb (keeps_stamp tid) ops = true ->
      forallb wf_value (ticket_list w) = true ->
      incl (created_at tid (run ops w)) (created_at tid w))
  /\ (forall (clock : nat -> jsstring) (id : jsstring) (updates : value)
        (w : World) (l : list value),
        tickets (state w) = VArr l ->
        forallb readable l = true ->
        exists w' l',
          updateTicket clock id updates w = Ok w'
          /\ tickets (state w') = VArr l'
          /\ Forall2 (refreshed clock id) l l').
Proof.
  split.
  - intros tid ops w Hk Hw. apply run_keeps_stamp; [assumption|].
    rewrite forallb_forall in *. intros x Hx. apply wf_flat. now apply Hw.
  - intros clock id updates w l Ht Hr.
    destruct (update_each_refreshes clock id updates l Hr 0) as [l' [E F]].
    unfold updateTicket. rewrite Ht. cbn [as_array bind]. rewrite E.
    cbn [bind]. eexists. exists l'. repeat split. assumption.
Qed.

Lemma createdAt_kept_updatedAt_refreshed_witness :
  let t0 := js "2024-05-01T10:00:00.000Z" in
  let t1 := js "2024-05-02T08:30:00.000Z" in
  let tk := VObj [(js "id", VStr (js "t1")); (js "createdAt", VStr t0);
                  (js "updatedAt", VStr t0); (js "status", VStr (js "New"))] in
  let w := mkWorld (mkState (VArr []) (VArr []) (VArr []) (VArr [tk])) None in
  let ops := [UpdateTicket (fun _ => t1) (js "t1")
                (VObj [(js "updatedAt", VStr (js "1999")); (js "notes", VStr (js "x"))]);
              AddTicket (js "t2") t1 (VObj [(js "status", VStr (js "New"))]);
              RemoveTicket (js "t2")] in
  incl (created_at (js "t1") (run ops w)) [VStr t0]
  /\ created_at (js "t1") (run ops w) = [VStr t0]
  /\ map (field (js "updatedAt")) (ticket_list (run ops w)) = [VStr t1].
Proof.
  intros t0 t1 tk w ops. split; [|split; reflexivity].
  apply (proj1 createdAt_kept_updatedAt_refreshed (js "t1") ops w);
    reflexivity.
Defined.

(** C3, as the claim has it, fails: partial fields that hold a [createdAt]
    overwrite the one of the ticket. *)
Lemma updateTicket_overwrites_createdAt :
  let t0 := js "2024-05-01T10:00:00.000Z" in
  let tk := VObj [(js "id", VStr (js "t1")); (js "createdAt", VStr t0);
                  (js "updatedAt", VStr t0); (js "status", VStr (js "New"))] in
  let w := mkWorld (mkState (VArr []) (VArr []) (VArr []) (VArr [tk])) None in
  exists w' tk',
    updateTicket (fun _ => js "2024-05-02T08:30:00.000Z") (js "t1")
      (VObj [(js "createdAt", VStr (js "1999-01-01T00:00:00.000Z"))]) w = Ok w'
    /\ tickets (state w') = VArr [tk']
    /\ get tk (js "id") = get tk' (js "id")
    /\ get tk (js "createdAt") = Ok (VStr t0)
    /\ get tk' (js "createdAt") = Ok (VStr (js "1999-01-01T00:00:00.000Z"))
    /\ get tk' (js "createdAt") <> get tk (js "createdAt").
Proof.
  intros t0 tk w. do 2 eexists.
  repeat (split; [reflexivity|]). discriminate.
Qed.

(* ================================================================= *)
(** ** The ticket list *)

Lemma get_field (v : value) (k : jsstring) :
  readable v = true -> get v k = Ok (field k v).
Proof.
  intros H. unfold field. destruct (get_readable v k H) as [x ->]. reflexivity.
Qed.

Lemma get_opt_field (v : value) (k : jsstring) : get_opt v k = Ok (field k v).
Proof. destruct v; reflexivity. Qed.

Lemma object_readable (v : value) : is_object v = true -> readable v = true.
Proof. now destruct v. Qed.

Lemma findM_by_id (l : list value) (t : value) (ref : jsstring) :
  forallb readable l = true ->
  readable t = true ->
  findM (fun x => xid <- get x (js "id") ;; r <- get t ref ;; Ok (strict_eq xid r)) l
  = Ok (match find (fun x => strict_eq (field (js "id") x) (field ref t)) l with
        | Some x => x
        | None => VUndefined
        end).
Proof.
  intros Hl Ht. rewrite (get_field t ref Ht).
  induction l as [|x l IH]; [reflexivity|].
  simpl in Hl. apply andb_true_iff in Hl. destruct Hl as [Hx Hl].
  cbn [findM find]. rewrite (get_field x _ Hx).
  cbn [bind]. destruct (strict_eq _ _); [reflexivity|now apply IH].
Qed.

Lemma find_by_id_joined (p : value -> bool) (xs t : value) (ref : jsstring) :
  (forall x, p x = true -> is_object x = true) ->
  array_of p xs = true ->
  readable t = true ->
  find_by_id xs t ref = Ok (joined xs (field ref t)).
Proof.
  intros Hp Hxs Ht. destruct xs; try discriminate. simpl in Hxs.
  unfold find_by_id, joined. cbn [as_array bind]. apply findM_by_id; [|assumption].
  rewrite forallb_forall in *. intros x Hx.
  now apply object_readable, Hp, Hxs.
Qed.

Lemma joined_typed (p : value -> bool) (xs ref : value) :
  array_of p xs = true ->
  joined xs ref = VUndefined \/ p (joined xs ref) = true.
Proof.
  intros Hxs. destruct xs; try discriminate. simpl in Hxs. unfold joined.
  destruct (find _ items) as [x|] eqn:F; [right|now left].
  apply find_some in F. rewrite forallb_forall in Hxs. now apply Hxs.
Qed.

Lemma is_text_optional (v : value) : is_text v = true -> optional_text v = true.
Proof. now destruct v. Qed.

Lemma join_texts (sep : jsstring) (vs : list value) :
  forallb optional_text vs = true ->
  array_join sep (filter truthy vs)
  = Ok (join sep (filter nonempty (map text_of vs))).
Proof.
  intros H. unfold array_join.
  assert (mapM (fun x => match x with
                         | VUndefined | VNull => Ok []
                         | _ => to_string x
                         end) (filter truthy vs)
          = Ok (filter nonempty (map text_of vs))) as ->; [|reflexivity].
  induction vs as [|v vs IH]; [reflexivity|].
  simpl in H. apply andb_true_iff in H. destruct H as [Hv Hvs].
  destruct v as [| | | |[|c x]| |]; try discriminate; cbn [filter truthy map text_of nonempty];
    try now apply IH.
  cbn [mapM to_string bind]. now rewrite (IH Hvs).
Qed.

Lemma filterM_pure {A} (f : A -> result bool) (g : A -> bool) (l : list A) :
  (forall a, In a l -> f a = Ok (g a)) -> filterM f l = Ok (filter g l).
Proof.
  induction l as [|a l IH]; intros H; [reflexivity|].
  cbn [filterM filter]. rewrite (H a) by now left. cbn [bind].
  rewrite IH by (intros; apply H; now right). reflexivity.
Qed.

Lemma typed_fields (s : State) (t : value) :
  typed_state s = true ->
  typed_ticket t = true ->
  let cust := joined (customers s) (field (js "customerId") t) in
  let dev := joined (devices s) (field (js "deviceId") t) in
  let tech := joined (technicians s) (field (js "technicianId") t) in
  forallb optional_text
    [field (js "problemDescription") t; field (js "name") cust;
     field (js "phone") cust; field (js "email") cust;
     field (js "brand") dev; field (js "model") dev;
     field (js "serial") dev; field (js "name") tech] = true.
Proof.
  intros Hs Ht cust dev tech. unfold typed_state in Hs.
  repeat (apply andb_true_iff in Hs; destruct Hs as [Hs ?]).
  unfold typed_ticket in Ht.
  repeat (apply andb_true_iff in Ht; destruct Ht as [Ht ?]).
  destruct (joined_typed typed_customer (customers s) (field (js "customerId") t))
    as [Ec|Ec]; [assumption| |];
  destruct (joined_typed typed_device (devices s) (field (js "deviceId") t))
    as [Ed|Ed]; try assumption;
  destruct (joined_typed typed_technician (technicians s) (field (js "technicianId") t))
    as [Eu|Eu]; try assumption;
  fold cust in Ec; fold dev in Ed; fold tech in Eu;
  try rewrite Ec; try rewrite Ed; try rewrite Eu;
  try (unfold typed_customer in Ec;
       repeat (apply andb_true_iff in Ec; destruct Ec as [Ec ?]));
  try (unfold typed_device in Ed;
       repeat (apply andb_true_iff in Ed; destruct Ed as [Ed ?]));
  try (unfold typed_technician in Eu;
       repeat (apply andb_true_iff in Eu; destruct Eu as [Eu ?]));
  cbn [forallb];
  repeat (apply andb_true_iff; split);
  try reflexivity; try assumption; now apply is_text_optional.
Qed.

Lemma haystack_spaced (lower : jsstring -> jsstring) (s : State) (t : value) :
  typed_state s = true ->
  typed_ticket t = true ->
  haystack lower s t = Ok (lower (search_text_spaced s t)).
Proof.
  intros Hs Ht. pose proof (typed_fields s t Hs Ht) as F. cbn zeta in F.
  assert (readable t = true) as Hr.
  { apply object_readable. unfold typed_ticket in Ht.
    repeat (apply andb_true_iff in Ht; destruct Ht as [Ht ?]). assumption. }
  unfold typed_state in Hs.
  repeat (apply andb_true_iff in Hs; destruct Hs as [Hs ?]).
  unfold haystack.
  rewrite (find_by_id_joined typed_customer (customers s) t (js "customerId"));
    try assumption;
    [|intros x Hx; unfold typed_customer in Hx;
      repeat (apply andb_true_iff in Hx; destruct Hx as [Hx ?]); assumption].
  rewrite (find_by_id_joined typed_device (devices s) t (js "deviceId"));
    try assumption;
    [|intros x Hx; unfold typed_device in Hx;
      repeat (apply andb_true_iff in Hx; destruct Hx as [Hx ?]); assumption].
  rewrite (find_by_id_joined typed_technician (technicians s) t (js "technicianId"));
    try assumption;
    [|intros x Hx; unfold typed_technician in Hx;
      repeat (apply andb_true_iff in Hx; destruct Hx as [Hx ?]); assumption].
  cbn [bind]. rewrite (get_field t _ Hr). cbn [bind].
  rewrite !get_opt_field. cbn [bind].
  rewrite (join_texts [32%N] _ F). reflexivity.
Qed.

Lemma ticket_shown_spaced (lower : jsstring -> jsstring) (flt search : jsstring)
  (s : State) (t : value) :
  typed_state s = true ->
  typed_ticket t = true ->
  ticket_shown lower flt search s t
  = Ok (shown_in search_text_spaced lower flt search s t).
Proof.
  intros Hs Ht.
  assert (readable t = true) as Hr.
  { apply object_readable. unfold typed_ticket in Ht.
    repeat (apply andb_true_iff in Ht; destruct Ht as [Ht ?]). assumption. }
  unfold ticket_shown, shown_in, status_passes.
  destruct (str_eqb flt (js "All")); cbn [bind orb negb].
  - destruct search as [|c search]; [reflexivity|].
    rewrite (haystack_spaced lower s t Hs Ht). reflexivity.
  - rewrite (get_field t _ Hr). cbn [bind].
    destruct (strict_eq (field (js "status") t) (VStr flt)); [|reflexivity].
    cbn [negb andb]. destruct search as [|c search]; [reflexivity|].
    rewrite (haystack_spaced lower s t Hs Ht). reflexivity.
Qed.

(** C9, as the code has it.  On a state of the declared types, for every
    lower-casing function, status filter and search term, the list is
    exactly the subsequence of the tickets whose status is the filter (or
    the filter is "All") and for which the search term is empty or its
    lower-casing occurs in the lower-cased search text: the problem
    description, the joined customer's name, phone and email, the joined
    device's brand, model and serial and the joined technician's name, those
    that are present and not empty, separated by single spaces. *)
Theorem filteredTickets_subsequence (lower : jsstring -> jsstring)
  (flt search : jsstring) (s : State) :
  typed_state s = true ->
  filteredTickets lower flt search s
  = Ok (filtered_by search_text_spaced lower flt search s).
Proof.
  intros Hs. unfold filteredTickets, filtered_by.
  assert (array_of typed_ticket (tickets s) = true) as Ht.
  { unfold typed_state in Hs. now apply andb_true_iff in Hs. }
  destruct (tickets s) as [| | | | |l|]; try discriminate.
  cbn [as_array bind]. apply filterM_pure. intros t Hin.
  apply ticket_shown_spaced; [assumption|].
  simpl in Ht. rewrite forallb_forall in Ht. now apply Ht.
Qed.

Lemma filteredTickets_subsequence_witness :
  let cust := VObj [(js "id", VStr (js "c1")); (js "name", VStr (js "John Doe"));
                    (js "phone", VUndefined)] in
  let dev := VObj [(js "id", VStr (js "d1")); (js "type", VStr (js "Laptop"));
                   (js "brand", VStr (js "Dell"))] in
  let ticket := fun id status device =>
    VObj [(js "id", VStr (js id)); (js "customerId", VStr (js "c1"));
          (js "deviceId", VStr (js device));
          (js "problemDescription", VStr (js "No boot"));
          (js "status", VStr (js status))] in
  let s := mkState (VArr [cust]) (VArr []) (VArr [dev])
             (VArr [ticket "t1" "New" "d0"; ticket "t2" "Ready" "d1";
                    ticket "t3" "Cancelled" "d1"; ticket "t4" "Ready" "d0"]) in
  filteredTickets ascii_lower (js "Ready") [] s
    = Ok [ticket "t2" "Ready" "d1"; ticket "t4" "Ready" "d0"]
  /\ filteredTickets ascii_lower (js "All") (js "dell") s
    = Ok [ticket "t2" "Ready" "d1"; ticket "t3" "Cancelled" "d1"]
  /\ filteredTickets ascii_lower (js "Ready") (js "DELL") s
    = Ok [ticket "t2" "Ready" "d1"].
Proof.
  intros cust dev ticket s.
  rewrite !(fun flt search =>
              @filteredTickets_subsequence ascii_lower flt search s eq_refl).
  repeat split.
Defined.

(** C9, as the claim has it, fails: the search text is not the plain
    concatenation.  A term that runs across two fields is found in the
    concatenation and not by the page; a term with the space between two
    fields is found by the page and not in the concatenation. *)
Lemma filteredTickets_not_concatenation :
  let cust := VObj [(js "id", VStr (js "c1")); (js "name", VStr (js "John"))] in
  let dev := VObj [(js "id", VStr (js "d1")); (js "type", VStr (js "Laptop"))] in
  let tk := VObj [(js "id", VStr (js "t1")); (js "customerId", VStr (js "c1"));
                  (js "deviceId", VStr (js "d1"));
                  (js "problemDescription", VStr (js "No boot"));
                  (js "status", VStr (js "New"))] in
  let s := mkState (VArr [cust]) (VArr []) (VArr [dev]) (VArr [tk]) in
  typed_state s = true
  /\ filteredTickets ascii_lower (js "All") (js "bootjohn") s = Ok []
  /\ filtered_by search_text_concatenated ascii_lower (js "All") (js "bootjohn") s = [tk]
  /\ filteredTickets ascii_lower (js "All") (js "boot john") s = Ok [tk]
  /\ filtered_by search_text_concatenated ascii_lower (js "All") (js "boot john") s = [].
Proof.
  intros cust dev tk s. repeat split.
Qed.

(* ================================================================= *)
(** ** Reading back what JSON.stringify writes: strings *)

Lemma list_pairs_ind {A} (P : list A -> Prop) :
  P [] ->
  (forall a, P [a]) ->
  (forall a b l, P l -> P (b :: l) -> P (a :: b :: l)) ->
  forall l, P l.
Proof.
  intros H0 H1 H2 l.
  enough (P l /\ forall a, P (a :: l)) by tauto.
  induction l as [|b l [IH1 IH2]]; split; auto.
Qed.

Lemma hex_val_char (d : N) : (d < 16)%N -> hex_val (hex_char d) = Some d.
Proof.
  intros H. unfold hex_char, hex_val.
  destruct (N.ltb_spec d 10).
  - replace ((48 <=? 48 + d) && (48 + d <=? 57))%N with true.
    + f_equal. lia.
    + symmetry. apply andb_true_iff. split; apply N.leb_le; lia.
  - replace ((48 <=? 87 + d) && (87 + d <=? 57))%N with false.
    + replace ((65 <=? 87 + d) && (87 + d <=? 70))%N with false.
      * replace ((97 <=? 87 + d) && (87 + d <=? 102))%N with true.
        -- f_equal. lia.
        -- symmetry. apply andb_true_iff. split; apply N.leb_le; lia.
      * symmetry. apply andb_false_iff. right. apply N.leb_gt. lia.
    + symmetry. apply andb_false_iff. right. apply N.leb_gt. lia.
Qed.

Lemma hex_digits (c : N) :
  (c < 65536)%N ->
  ((c / 4096) mod 16 * 4096 + (c / 256) mod 16 * 256
   + (c / 16) mod 16 * 16 + c mod 16 = c)%N.
Proof.
  intros H.
  pose proof (N.div_mod c 16 ltac:(lia)).
  pose proof (N.div_mod (c / 16) 16 ltac:(lia)).
  pose proof (N.div_mod (c / 16 / 16) 16 ltac:(lia)).
  pose proof (N.mod_lt c 16 ltac:(lia)).
  pose proof (N.mod_lt (c / 16) 16 ltac:(lia)).
  pose proof (N.mod_lt (c / 16 / 16) 16 ltac:(lia)).
  replace (c / 256)%N with (c / 16 / 16)%N by (rewrite N.Div0.div_div; reflexivity).
  replace (c / 4096)%N with (c / 16 / 16 / 16)%N
    by (rewrite !N.Div0.div_div; reflexivity).
  assert (c / 16 / 16 / 16 < 16)%N.
  { apply N.Div0.div_lt_upper_bound. apply N.Div0.div_lt_upper_bound.
    apply N.Div0.div_lt_upper_bound. lia. }
  rewrite (N.mod_small (c / 16 / 16 / 16) 16) by assumption.
  lia.
Qed.

Lemma parse_chars_escape (c : N) (t : jsstring) :
  (c < 65536)%N ->
  parse_chars (unicode_escape c ++ t)
  = match parse_chars t with
    | Some (s, r) => Some (c :: s, r)
    | None => None
    end.
Proof.
  intros H. unfold unicode_escape. cbn [app parse_chars N.eqb Pos.eqb].
  rewrite !hex_val_char by (apply N.mod_lt; lia).
  rewrite (hex_digits H). reflexivity.
Qed.

Lemma surrogate_range (c : N) :
  is_lead c || is_trail c = true -> (c < 65536)%N /\ (32 <= c)%N /\ c <> 34%N /\ c <> 92%N.
Proof.
  unfold is_lead, is_trail. intros H. apply orb_true_iff in H.
  destruct H as [H|H]; apply andb_true_iff in H; destruct H as [H1 H2];
    apply N.leb_le in H1, H2; lia.
Qed.

Lemma parse_chars_plain (c : N) (t : jsstring) :
  c <> 34%N -> c <> 92%N -> (32 <= c)%N ->
  parse_chars (c :: t)
  = match parse_chars t with
    | Some (s, r) => Some (c :: s, r)
    | None => None
    end.
Proof.
  intros H1 H2 H3. cbn [parse_chars].
  rewrite (proj2 (N.eqb_neq c 34) H1), (proj2 (N.eqb_neq c 92) H2).
  rewrite (proj2 (N.ltb_ge c 32) H3). reflexivity.
Qed.

Lemma parse_chars_unit (c : N) (t : jsstring) :
  parse_chars (quote_unit c ++ t)
  = match parse_chars t with
    | Some (s, r) => Some (c :: s, r)
    | None => None
    end.
Proof.
  unfold quote_unit.
  destruct (N.eqb_spec c 8) as [->|H8]; [reflexivity|].
  destruct (N.eqb_spec c 9) as [->|H9]; [reflexivity|].
  destruct (N.eqb_spec c 10) as [->|H10]; [reflexivity|].
  destruct (N.eqb_spec c 12) as [->|H12]; [reflexivity|].
  destruct (N.eqb_spec c 13) as [->|H13]; [reflexivity|].
  destruct (N.eqb_spec c 34) as [->|H34]; [reflexivity|].
  destruct (N.eqb_spec c 92) as [->|H92]; [reflexivity|].
  destruct (N.ltb_spec c 32) as [Hlt|Hge]; cbn [orb].
  - apply parse_chars_escape. lia.
  - destruct (is_lead c || is_trail c) eqn:S.
    + apply parse_chars_escape. now apply surrogate_range.
    + now apply parse_chars_plain.
Qed.

Lemma quote_chars_pair (c d : N) (s : jsstring) :
  quote_chars (c :: d :: s)
  = if is_lead c && is_trail d then c :: d :: quote_chars s
    else quote_unit c ++ quote_chars (d :: s).
Proof. reflexivity. Qed.

(** A string literal is read back as the string it was written from. *)
Lemma parse_chars_quote (s rest : jsstring) :
  parse_chars (quote_chars s ++ 34%N :: rest) = Some (s, rest).
Proof.
  induction s as [|c|c d s IH1 IH2] using list_pairs_ind.
  - reflexivity.
  - cbn [quote_chars]. rewrite parse_chars_unit. reflexivity.
  - rewrite quote_chars_pair. destruct (is_lead c && is_trail d) eqn:P.
    + apply andb_true_iff in P. destruct P as [Pc Pd].
      destruct (surrogate_range c) as [_ [? [? ?]]]; [now rewrite Pc|].
      destruct (surrogate_range d) as [_ [? [? ?]]];
        [rewrite Pd; apply orb_true_r|].
      cbn [app]. rewrite !parse_chars_plain by assumption.
      rewrite IH1. reflexivity.
    + rewrite <- app_assoc, parse_chars_unit.
      rewrite IH2. reflexivity.
Qed.

(* ================================================================= *)
(** ** Reading back what JSON.stringify writes: numbers *)

Lemma delimited_cases (rest : jsstring) :
  delimited rest = true ->
  rest = [] \/ exists c r, rest = c :: r /\
    (c = 9 \/ c = 10 \/ c = 13 \/ c = 32 \/ c = 44 \/ c = 93 \/ c = 125)%N.
Proof.
  destruct rest as [|c r]; [now left|]. intros H. right. exists c, r.
  split; [reflexivity|]. unfold delimited, is_ws in H.
  repeat (apply orb_true_iff in H; destruct H as [H|H]);
    apply N.eqb_eq in H; tauto.
Qed.

Ltac by_delimiter H :=
  destruct (delimited_cases _ H) as [->|[? [? [-> Hc]]]];
  [|decompose [or] Hc; subst]; try reflexivity.

Lemma take_digits_stop (rest : jsstring) :
  delimited rest = true -> take_digits rest = ([], rest).
Proof. intros H. by_delimiter H. Qed.

Lemma parse_frac_none (rest : jsstring) :
  delimited rest = true -> parse_frac rest = Some ([], rest).
Proof. intros H. by_delimiter H. Qed.

Lemma parse_exp_none (rest : jsstring) :
  delimited rest = true -> parse_exp rest = Some (0%Z, rest).
Proof. intros H. by_delimiter H. Qed.

Lemma is_digit_char (d : N) : (d < 10)%N -> is_digit (48 + d) = true.
Proof.
  intros H. unfold is_digit. apply andb_true_iff.
  split; apply N.leb_le; lia.
Qed.

Lemma take_digits_chars (ds : list N) (t : jsstring) :
  forallb (fun d => (d <? 10)%N) ds = true ->
  take_digits (digit_chars ds ++ t)
  = (ds ++ fst (take_digits t), snd (take_digits t)).
Proof.
  induction ds as [|d ds IH]; intros H.
  - simpl. now destruct (take_digits t).
  - simpl in H. apply andb_true_iff in H. destruct H as [Hd Hds].
    apply N.ltb_lt in Hd. cbn [digit_chars map app take_digits].
    rewrite (is_digit_char Hd). fold (digit_chars ds). rewrite (IH Hds).
    cbn [fst snd app]. f_equal. f_equal. lia.
Qed.

Lemma take_digits_all (ds : list N) (rest : jsstring) :
  forallb (fun d => (d <? 10)%N) ds = true ->
  delimited rest = true ->
  take_digits (digit_chars ds ++ rest) = (ds, rest).
Proof.
  intros Hds Hr. rewrite (take_digits_chars ds rest Hds).
  rewrite (take_digits_stop rest Hr). cbn [fst snd]. now rewrite app_nil_r.
Qed.

(** Digits up to a character that is no digit. *)
Lemma take_digits_upto (ds : list N) (c : N) (t : jsstring) :
  forallb (fun d => (d <? 10)%N) ds = true ->
  is_digit c = false ->
  take_digits (digit_chars ds ++ c :: t) = (ds, c :: t).
Proof.
  intros Hds Hc. rewrite (take_digits_chars ds (c :: t) Hds).
  cbn [take_digits]. rewrite Hc. cbn [fst snd]. now rewrite app_nil_r.
Qed.

Lemma digits_uint_digits (u : Decimal.uint) : digits_uint (uint_digits u) = u.
Proof. induction u; cbn [uint_digits digits_uint]; rewrite ?IHu; reflexivity. Qed.

Lemma uint_digits_small (u : Decimal.uint) :
  forallb (fun d => (d <? 10)%N) (uint_digits u) = true.
Proof. induction u; cbn [uint_digits forallb]; rewrite ?IHu; reflexivity. Qed.

Lemma uint_digits_nonempty (n : N) : uint_digits (N.to_uint n) <> [].
Proof.
  destruct n as [|p]; [discriminate|]. cbn [N.to_uint].
  pose proof (DecimalPos.Unsigned.to_uint_nonnil p) as H.
  destruct (Pos.to_uint p); try discriminate. contradiction.
Qed.

Lemma digits_value_dec (n : N) : digits_value (uint_digits (N.to_uint n)) = n.
Proof.
  unfold digits_value. rewrite digits_uint_digits.
  apply DecimalN.Unsigned.of_to.
Qed.

Lemma parse_exp_part (e : Z) (rest : jsstring) :
  delimited rest = true ->
  parse_exp (exponent_part e ++ rest) = Some (e, rest).
Proof.
  intros Hr. unfold exponent_part, dec.
  pose proof (uint_digits_nonempty (Z.abs_N e)) as Hne.
  pose proof (digits_value_dec (Z.abs_N e)) as Hv.
  pose proof (uint_digits_small (N.to_uint (Z.abs_N e))) as Hs.
  destruct (Z.ltb_spec e 0) as [Hneg|Hpos];
    cbn [app parse_exp N.eqb Pos.eqb orb expect parse_sign];
    rewrite (take_digits_all _ rest Hs Hr);
    destruct (uint_digits (N.to_uint (Z.abs_N e))) as [|d ds] eqn:E;
    try contradiction; rewrite Hv; do 2 f_equal; lia.
Qed.

Lemma strip_leading_zeros (z : nat) (ds : list N) (p : Z) :
  negb (hd 0%N ds =? 0)%N = true ->
  strip_leading (repeat 0%N z ++ ds) p = (ds, (p - Z.of_nat z)%Z).
Proof.
  intros H. revert p. induction z as [|z IH]; intros p.
  - cbn [repeat app]. destruct ds as [|d ds]; [discriminate|].
    cbn [hd] in H. cbn [strip_leading].
    apply negb_true_iff in H. rewrite H. do 2 f_equal. lia.
  - cbn [repeat app strip_leading N.eqb]. rewrite IH. f_equal. lia.
Qed.

Lemma drop_zeros_repeat (z : nat) (ds : list N) :
  negb (hd 0%N ds =? 0)%N = true ->
  drop_zeros (repeat 0%N z ++ ds) = ds.
Proof.
  intros H. induction z as [|z IH]; [|exact IH].
  cbn [repeat app]. destruct ds as [|d ds]; [reflexivity|].
  cbn [hd] in H. cbn [drop_zeros]. apply negb_true_iff in H. now rewrite H.
Qed.

Lemma rev_repeat {A} (a : A) (z : nat) : rev (repeat a z) = repeat a z.
Proof.
  induction z as [|z IH]; [reflexivity|]. cbn [repeat rev]. rewrite IH.
  clear IH. induction z as [|z IH]; [reflexivity|].
  cbn [repeat app]. now rewrite IH.
Qed.

Lemma strip_trailing_zeros (z : nat) (ds : list N) :
  negb (hd 0%N (rev ds) =? 0)%N = true ->
  strip_trailing (ds ++ repeat 0%N z) = ds.
Proof.
  intros H. unfold strip_trailing. rewrite rev_app_distr, rev_repeat.
  rewrite (drop_zeros_repeat z (rev ds) H). apply rev_involutive.
Qed.

(** Well-formed significant digits, followed by [z] zeros and preceded by
    [y] zeros, with the point [p] places in: the number they write. *)
Lemma make_number_digits (neg : bool) (y z : nat) (d : N) (ds : list N) (p : Z) :
  wf_number (Finite neg (d :: ds) 0) = true ->
  make_number neg (repeat 0%N y ++ (d :: ds) ++ repeat 0%N z) p
  = Finite neg (d :: ds) (p - Z.of_nat y).
Proof.
  intros H. cbn [wf_number] in H.
  apply andb_true_iff in H. destruct H as [H Hlast].
  apply andb_true_iff in H. destruct H as [_ Hfirst].
  unfold make_number.
  rewrite (strip_leading_zeros y ((d :: ds) ++ repeat 0%N z) p) by exact Hfirst.
  rewrite (strip_trailing_zeros z (d :: ds) Hlast). reflexivity.
Qed.

Lemma digit_chars_app (a b : list N) :
  digit_chars (a ++ b) = digit_chars a ++ digit_chars b.
Proof. apply map_app. Qed.

Lemma digit_chars_zeros (z : nat) : repeat 48%N z = digit_chars (repeat 0%N z).
Proof. induction z as [|z IH]; [reflexivity|]. cbn. now rewrite IH. Qed.

Lemma forallb_repeat {A} (p : A -> bool) (a : A) (z : nat) :
  p a = true -> forallb p (repeat a z) = true.
Proof. intros H. induction z as [|z IH]; [reflexivity|]. cbn. now rewrite H. Qed.

Lemma parse_int_digits (d : N) (ds : list N) (t : jsstring) :
  (d <? 10)%N = true -> negb (d =? 0)%N = true ->
  parse_int (digit_chars (d :: ds) ++ t)
  = Some (take_digits (digit_chars (d :: ds) ++ t)).
Proof.
  intros H1 H2. apply N.ltb_lt in H1. apply negb_true_iff, N.eqb_neq in H2.
  unfold parse_int. cbn [digit_chars map app].
  rewrite (proj2 (N.eqb_neq (48 + d) 48)) by lia.
  now rewrite (is_digit_char H1).
Qed.

Lemma wf_number_digits (neg : bool) (d : N) (ds : list N) (n : Z) :
  wf_number (Finite neg (d :: ds) n) = true ->
  forallb (fun x => (x <? 10)%N) (d :: ds) = true
  /\ (d <? 10)%N = true /\ negb (d =? 0)%N = true.
Proof.
  cbn [wf_number hd]. intros H.
  apply andb_true_iff in H. destruct H as [H _].
  apply andb_true_iff in H. destruct H as [Hall Hd].
  split; [assumption|]. split; [|assumption].
  cbn [forallb] in Hall. now apply andb_true_iff in Hall.
Qed.

Lemma skipn_cons {A} (n : nat) (l : list A) :
  n < length l -> exists a r, skipn n l = a :: r.
Proof.
  revert l. induction n as [|n IH]; intros [|a l] H; simpl in *; try lia; eauto.
  apply IH. lia.
Qed.

Lemma firstn_cons {A} (n : nat) (a : A) (l : list A) :
  0 < n -> firstn n (a :: l) = a :: firstn (pred n) l.
Proof. destruct n; [lia|reflexivity]. Qed.

Lemma forallb_firstn {A} (p : A -> bool) (n : nat) (l : list A) :
  forallb p l = true -> forallb p (firstn n l) = true.
Proof.
  revert l. induction n as [|n IH]; intros [|a l] H; try reflexivity.
  cbn in *. apply andb_true_iff in H. destruct H as [-> H]. now apply IH.
Qed.

Lemma forallb_skipn {A} (p : A -> bool) (n : nat) (l : list A) :
  forallb p l = true -> forallb p (skipn n l) = true.
Proof.
  revert l. induction n as [|n IH]; intros [|a l] H; try reflexivity; auto.
  cbn in *. apply andb_true_iff in H. destruct H as [_ H]. now apply IH.
Qed.

(** [Number::toString] of a number that is not zero, sign apart, is read
    back as that number. *)
Lemma parse_magnitude_finite (neg : bool) (d : N) (ds : list N) (n : Z)
  (rest : jsstring) :
  wf_number (Finite neg (d :: ds) n) = true ->
  delimited rest = true ->
  parse_magnitude neg (finite_to_string (d :: ds) n ++ rest)
  = Some (Finite neg (d :: ds) n, rest).
Proof.
  intros Hwf Hr.
  destruct (wf_number_digits _ _ _ _ Hwf) as [Hall [Hd Hnz]].
  assert (wf_number (Finite neg (d :: ds) 0) = true) as Hwf0 by exact Hwf.
  unfold finite_to_string, parse_magnitude.
  set (k := Z.of_nat (length (d :: ds))).
  assert (1 <= k)%Z as Hk by (subst k; cbn [length]; lia).
  destruct ((k <=? n) && (n <=? 21))%Z eqn:C1.
  { (* digits followed by zeros *)
    apply andb_true_iff in C1. destruct C1 as [C1 _]. apply Z.leb_le in C1.
    rewrite digit_chars_zeros, <- digit_chars_app.
    cbn [app]. rewrite (parse_int_digits d _ rest Hd Hnz).
    rewrite (take_digits_all (d :: ds ++ repeat 0%N (Z.to_nat (n - k))) rest);
      [|cbn [forallb] in *; apply andb_true_iff in Hall; destruct Hall as [-> Hall];
        rewrite forallb_app, Hall; now apply forallb_repeat|assumption].
    rewrite (parse_frac_none rest Hr), (parse_exp_none rest Hr).
    rewrite app_nil_r.
    rewrite (make_number_digits neg 0 (Z.to_nat (n - k)) d ds _ Hwf0).
    do 2 f_equal. subst k. cbn [length] in *.
    rewrite length_app, repeat_length. f_equal. lia. }
  destruct ((0 <? n) && (n <=? 21))%Z eqn:C2.
  { (* digits with a point inside *)
    apply andb_true_iff in C2. destruct C2 as [C2 C2'].
    apply Z.ltb_lt in C2. apply Z.leb_le in C2'.
    assert (n < k)%Z as Hnk.
    { apply andb_false_iff in C1. destruct C1 as [C1|C1];
        apply Z.leb_gt in C1; lia. }
    assert (Z.to_nat n < length (d :: ds)) as Hlen by (subst k; lia).
    destruct (@skipn_cons _ (Z.to_nat n) (d :: ds) Hlen) as [a [r Hskip]].
    pose proof (@forallb_firstn _ _ (Z.to_nat n) _ Hall) as Hf.
    pose proof (@forallb_skipn _ _ (Z.to_nat n) _ Hall) as Hs.
    rewrite (firstn_cons (n := Z.to_nat n) d ds) in * by lia.
    rewrite <- !app_assoc.
    rewrite (parse_int_digits d _ _ Hd Hnz).
    cbn [app]. rewrite (take_digits_upto _ 46%N _ Hf eq_refl).
    unfold parse_frac. cbn [expect N.eqb Pos.eqb].
    rewrite (take_digits_all _ rest Hs Hr), Hskip.
    rewrite (parse_exp_none rest Hr), <- Hskip.
    rewrite <- (firstn_cons (n := Z.to_nat n) d ds) by lia.
    rewrite firstn_skipn, length_firstn.
    rewrite <- (app_nil_r (d :: ds)) at 1.
    rewrite (make_number_digits neg 0 0 d ds _ Hwf0).
    do 3 f_equal. subst k. cbn [length] in *. lia. }
  destruct ((-6 <? n) && (n <=? 0))%Z eqn:C3.
  { (* zero, point, zeros, digits *)
    apply andb_true_iff in C3. destruct C3 as [_ C3]. apply Z.leb_le in C3.
    rewrite digit_chars_zeros, <- digit_chars_app.
    cbn [js String.list_ascii_of_string map app N_of_ascii N_of_digits
         N.add N.mul Pos.add Pos.mul parse_int N.eqb Pos.eqb].
    unfold parse_frac. cbn [expect N.eqb Pos.eqb].
    rewrite (take_digits_all (repeat 0%N (Z.to_nat (- n)) ++ d :: ds) rest);
      [|rewrite forallb_app, Hall, andb_true_r; now apply forallb_repeat
       |assumption].
    destruct (repeat 0%N (Z.to_nat (- n)) ++ d :: ds) as [|x xs] eqn:E;
      [now destruct (repeat 0%N (Z.to_nat (- n)))|rewrite <- E; clear E x xs].
    rewrite (parse_exp_none rest Hr).
    change ([0%N] ++ repeat 0%N (Z.to_nat (- n)) ++ d :: ds)
      with (repeat 0%N (S (Z.to_nat (- n))) ++ d :: ds).
    rewrite <- (app_nil_r (d :: ds)) at 1.
    rewrite (make_number_digits neg (S (Z.to_nat (- n))) 0 d ds _ Hwf0).
    do 3 f_equal. cbn [length]. lia. }
  (* exponent form *)
  destruct ds as [|d' ds'].
  - rewrite <- app_assoc. rewrite (parse_int_digits d [] _ Hd Hnz).
    unfold exponent_part at 1. cbn [app].
    rewrite (take_digits_upto [d] 101%N _ Hall eq_refl).
    unfold parse_frac. cbn [expect N.eqb Pos.eqb].
    change (101%N :: ((if (n - 1 <? 0)%Z then [45%N] else [43%N]) ++
                      dec (Z.abs_N (n - 1))) ++ rest)
      with (exponent_part (n - 1) ++ rest).
    rewrite (parse_exp_part (n - 1) rest Hr).
    rewrite <- (app_nil_r [d]) at 1.
    rewrite (make_number_digits neg 0 0 d [] _ Hwf0).
    do 3 f_equal. cbn [length]. lia.
  - change (digit_chars [d] ++ [46%N] ++ digit_chars (d' :: ds')
              ++ exponent_part (n - 1))
      with (digit_chars [d] ++ 46%N :: digit_chars (d' :: ds')
              ++ exponent_part (n - 1)).
    rewrite <- app_assoc. rewrite (parse_int_digits d [] _ Hd Hnz).
    assert (forallb (fun x => (x <? 10)%N) [d] = true) as Hd1
        by (cbn [forallb]; now rewrite Hd).
    cbn [app]. rewrite (take_digits_upto [d] 46%N _ Hd1 eq_refl).
    unfold parse_frac. cbn [expect N.eqb Pos.eqb].
    assert (forallb (fun x => (x <? 10)%N) (d' :: ds') = true) as Htl.
    { cbn [forallb] in Hall. now apply andb_true_iff in Hall. }
    rewrite <- app_assoc. unfold exponent_part at 1. cbn [app].
    rewrite (take_digits_upto (d' :: ds') 101%N _ Htl eq_refl).
    change (101%N :: ((if (n - 1 <? 0)%Z then [45%N] else [43%N]) ++
                      dec (Z.abs_N (n - 1))) ++ rest)
      with (exponent_part (n - 1) ++ rest).
    rewrite (parse_exp_part (n - 1) rest Hr).
    change ([d] ++ d' :: ds') with (d :: d' :: ds').
    rewrite <- (app_nil_r (d :: d' :: ds')) at 1.
    rewrite (make_number_digits neg 0 0 d (d' :: ds') _ Hwf0).
    do 3 f_equal. cbn [length]. lia.
Qed.

(* ================================================================= *)
(** ** Reading back what JSON.stringify writes: values *)

Lemma value_induction (P : value -> Prop) :
  P VUndefined -> P VNull -> (forall b, P (VBool b)) ->
  (forall x, P (VNum x)) -> (forall s, P (VStr s)) ->
  (forall items, Forall P items -> P (VArr items)) ->
  (forall props, Forall (fun kv => P (snd kv)) props -> P (VObj props)) ->
  forall v, P v.
Proof.
  intros Hu Hn Hb Hx Hs Ha Ho. fix IH 1.
  intros [| |b|x|s|items|props];
    [exact Hu|exact Hn|apply Hb|apply Hx|apply Hs| |].
  - apply Ha. induction items as [|a items IHl]; constructor;
      [apply IH|exact IHl].
  - apply Ho. induction props as [|kv props IHl]; constructor;
      [apply IH|exact IHl].
Qed.

Lemma finite_head (d : N) (ds : list N) (n : Z) :
  (d <? 10)%N = true ->
  exists c t, finite_to_string (d :: ds) n = c :: t /\ is_digit c = true.
Proof.
  intros Hd. apply N.ltb_lt in Hd. unfold finite_to_string.
  destruct ((_ <=? n) && (n <=? 21))%Z.
  { cbn [digit_chars map app]. do 2 eexists. split; [reflexivity|].
    now apply is_digit_char. }
  destruct ((0 <? n) && (n <=? 21))%Z eqn:C.
  { apply andb_true_iff in C. destruct C as [C _]. apply Z.ltb_lt in C.
    rewrite (@firstn_cons _ (Z.to_nat n) d ds) by lia.
    cbn [digit_chars map app]. do 2 eexists. split; [reflexivity|].
    now apply is_digit_char. }
  destruct ((-6 <? n) && (n <=? 0))%Z.
  { do 2 eexists. split; reflexivity. }
  destruct ds; cbn [digit_chars map app]; do 2 eexists;
    (split; [reflexivity|now apply is_digit_char]).
Qed.

Lemma parse_value_number (f : nat) (c : N) (t : jsstring) :
  c = 45%N \/ is_digit c = true ->
  parse_value (S f) (c :: t)
  = match parse_number (c :: t) with
    | Some (x, r) => Parsed (VNum x) r
    | None => NoParse
    end.
Proof.
  intros [->|H]; [reflexivity|].
  unfold is_digit in H. apply andb_true_iff in H. destruct H as [H1 H2].
  apply N.leb_le in H1, H2. cbn [parse_value].
  rewrite (proj2 (N.eqb_neq c 110)), (proj2 (N.eqb_neq c 116)),
    (proj2 (N.eqb_neq c 102)), (proj2 (N.eqb_neq c 34)),
    (proj2 (N.eqb_neq c 91)), (proj2 (N.eqb_neq c 123)) by lia.
  reflexivity.
Qed.

Lemma parse_sign_digit (c : N) (t : jsstring) :
  is_digit c = true -> parse_sign (c :: t) = (false, c :: t).
Proof.
  intros H. unfold is_digit in H. apply andb_true_iff in H.
  destruct H as [H1 _]. apply N.leb_le in H1.
  unfold parse_sign, expect. now rewrite (proj2 (N.eqb_neq c 45)) by lia.
Qed.

(** A finite number is read back as its image. *)
Lemma read_number (neg : bool) (ds : list N) (n : Z) :
  wf_number (Finite neg ds n) = true ->
  reads (number_to_string (Finite neg ds n)) (number_image (Finite neg ds n)).
Proof.
  intros Hwf. destruct ds as [|d ds].
  - split; [reflexivity|]. intros [|fuel] rest Hf Hr; [cbn in Hf; lia|].
    cbn [number_to_string js String.list_ascii_of_string map N_of_ascii
         N_of_digits N.add N.mul Pos.add Pos.mul app].
    rewrite parse_value_number by (right; reflexivity).
    unfold parse_number. rewrite parse_sign_digit by reflexivity.
    unfold parse_magnitude. cbn [parse_int N.eqb Pos.eqb].
    rewrite (parse_frac_none rest Hr), (parse_exp_none rest Hr).
    reflexivity.
  - destruct (wf_number_digits _ _ _ _ Hwf) as [_ [Hd _]].
    destruct (finite_head d ds n Hd) as [c [t [E Hc]]].
    assert (opens (c :: t) = true) as Hopen.
    { unfold is_digit in Hc. apply andb_true_iff in Hc.
      destruct Hc as [H1 H2]. apply N.leb_le in H1, H2.
      unfold opens, is_ws.
      rewrite (proj2 (N.eqb_neq c 9)), (proj2 (N.eqb_neq c 10)),
        (proj2 (N.eqb_neq c 13)), (proj2 (N.eqb_neq c 32)),
        (proj2 (N.eqb_neq c 44)), (proj2 (N.eqb_neq c 93)),
        (proj2 (N.eqb_neq c 125)) by lia.
      reflexivity. }
    cbn [number_to_string number_image]. split.
    + destruct neg; [reflexivity|]. cbn [app]. now rewrite E.
    + intros [|fuel] rest Hf Hr.
      { rewrite E in Hf. destruct neg; cbn in Hf; lia. }
      pose proof (parse_magnitude_finite neg d ds n rest Hwf Hr) as M.
      destruct neg; cbn [app].
      * rewrite parse_value_number by now left.
        unfold parse_number. cbn [parse_sign expect N.eqb Pos.eqb].
        now rewrite M.
      * rewrite E in *. cbn [app] in *.
        rewrite parse_value_number by now right.
        unfold parse_number. rewrite (parse_sign_digit c _ Hc). now rewrite M.
Qed.

Lemma read_string (s : jsstring) : reads (quote s) (VStr s).
Proof.
  split; [reflexivity|]. intros [|fuel] rest Hf _; [cbn in Hf; lia|].
  unfold quote. cbn [app parse_value N.eqb Pos.eqb].
  rewrite <- app_assoc. cbn [app]. now rewrite parse_chars_quote.
Qed.

Lemma read_literal (word : String.string) (u : value) :
  (forall fuel rest, parse_value (S fuel) (js word ++ rest) = Parsed u rest) ->
  opens (js word) = true ->
  reads (js word) u.
Proof.
  intros H Ho. split; [assumption|]. intros [|fuel] rest Hf _; [|apply H].
  destruct (js word); [discriminate|cbn in Hf; lia].
Qed.

(** ** White space *)

Lemma skip_ws_app (ws t : jsstring) :
  all_ws ws = true -> skip_ws (ws ++ t) = skip_ws t.
Proof.
  induction ws as [|c ws IH]; intros H; [reflexivity|].
  cbn in H. apply andb_true_iff in H. destruct H as [Hc Hws].
  cbn [app skip_ws]. rewrite Hc. now apply IH.
Qed.

Lemma skip_ws_opens (t rest : jsstring) :
  opens t = true -> skip_ws (t ++ rest) = t ++ rest.
Proof.
  destruct t as [|c t]; [discriminate|]. cbn [opens app skip_ws]. intros H.
  repeat (apply andb_true_iff in H; destruct H as [H ?]).
  apply negb_true_iff in H. now rewrite H.
Qed.

Lemma expect_opens (c : N) (t rest : jsstring) :
  opens t = true -> (c = 93 \/ c = 125 \/ c = 44)%N ->
  expect c (t ++ rest) = None.
Proof.
  destruct t as [|x t]; [discriminate|]. cbn [opens app expect]. intros H Hc.
  repeat (apply andb_true_iff in H; destruct H as [H ?]).
  repeat match goal with
         | E : negb _ = true |- _ => apply negb_true_iff, N.eqb_neq in E
         end.
  destruct (N.eqb_spec x c); [|reflexivity]. subst. lia.
Qed.

Lemma delimited_ws (ws : jsstring) (c : N) (rest : jsstring) :
  all_ws ws = true -> (c = 93 \/ c = 125 \/ c = 44)%N ->
  delimited (ws ++ c :: rest) = true.
Proof.
  intros Hws Hc. destruct ws as [|x ws]; cbn [app delimited].
  - decompose [or] Hc; subst; reflexivity.
  - cbn in Hws. apply andb_true_iff in Hws. destruct Hws as [-> _]. reflexivity.
Qed.

(** ** Arrays and objects *)

Lemma join_cons2 (sep p q : jsstring) (ps : list jsstring) :
  join sep (p :: q :: ps) = p ++ sep ++ join sep (q :: ps).
Proof. reflexivity. Qed.

Lemma opens_join (sep p : jsstring) (ps : list jsstring) :
  opens p = true -> opens (join sep (p :: ps)) = true.
Proof.
  destruct p as [|c p]; [discriminate|]. intros H.
  destruct ps; [exact H|]. rewrite join_cons2. exact H.
Qed.

Lemma all_ws_spaces (n : nat) : all_ws (spaces n) = true.
Proof. induction n as [|n IH]; [reflexivity|]. cbn. exact IH. Qed.

Lemma bracket_layout (open close : N) (gap indent : nat) (p : jsstring)
  (ps : list jsstring) :
  exists ws1 ws2,
    all_ws ws1 = true /\ all_ws ws2 = true
    /\ colon gap = 58%N :: match gap with O => [] | _ => [32%N] end
    /\ bracket open close gap indent (p :: ps)
       = open :: ws1 ++ join (44%N :: ws1) (p :: ps) ++ ws2 ++ [close].
Proof.
  destruct gap as [|g].
  - exists [], []. repeat split.
  - exists (10%N :: spaces (indent + S g)), (10%N :: spaces indent).
    split; [apply (all_ws_spaces (indent + S g))|].
    split; [apply (all_ws_spaces indent)|]. split; [reflexivity|].
    reflexivity.
Qed.

Lemma read_elements (ws1 ws2 : jsstring) (parts : list jsstring)
  (us : list value) :
  all_ws ws1 = true -> all_ws ws2 = true ->
  Forall2 reads parts us -> parts <> [] ->
  forall fuel rest,
    2 * length (join (44%N :: ws1) parts) + 1 <= fuel ->
    parse_elements fuel (join (44%N :: ws1) parts ++ ws2 ++ 93%N :: rest)
    = Parsed us rest.
Proof.
  intros H1 H2 HF. induction HF as [|p u ps us' [Hop Hp] HF IH];
    [congruence|]. intros _ [|f] rest Hf; [lia|].
  cbn [parse_elements]. destruct HF as [|q u' qs us'' Hq HF].
  - cbn [join] in *. rewrite (Hp f _ ltac:(lia)
               (@delimited_ws ws2 93%N rest H2 (or_introl eq_refl))).
    rewrite (skip_ws_app ws2 _ H2). reflexivity.
  - rewrite join_cons2 in *. rewrite <- !app_assoc. cbn [app].
    rewrite length_app in Hf. cbn [length app] in Hf.
    rewrite Hp by (first [lia|reflexivity]).
    cbn [skip_ws is_ws N.eqb Pos.eqb orb expect].
    rewrite (skip_ws_app ws1 _ H1).
    rewrite skip_ws_opens by (apply opens_join; exact (proj1 Hq)).
    rewrite (IH ltac:(discriminate) f rest); [reflexivity|].
    rewrite length_app in Hf. lia.
Qed.

Lemma opens_member (gap : nat) (m : jsstring * jsstring * value) :
  opens (member_text gap m) = true.
Proof. reflexivity. Qed.

Lemma read_members (ws1 ws2 : jsstring) (gap : nat)
  (ms : list (jsstring * jsstring * value)) :
  all_ws ws1 = true -> all_ws ws2 = true ->
  Forall (fun m => reads (snd (fst m)) (snd m)) ms -> ms <> [] ->
  forall fuel rest,
    2 * length (join (44%N :: ws1) (map (member_text gap) ms)) + 1 <= fuel ->
    parse_members fuel
      (join (44%N :: ws1) (map (member_text gap) ms) ++ ws2 ++ 125%N :: rest)
    = Parsed (map (fun m => (fst (fst m), snd m)) ms) rest.
Proof.
  intros H1 H2 HF. induction HF as [|[[k txt] u] ms [Hop Hp] HF IH];
    [congruence|]. intros _ [|f] rest Hf; [lia|].
  cbn [fst snd] in Hop, Hp.
  assert (forall t, skip_ws (colon gap ++ txt ++ t)
                    = 58%N :: match gap with O => [] | _ => [32%N] end
                              ++ txt ++ t) as Hcolon
      by (destruct gap; reflexivity).
  assert (forall t, skip_ws (match gap with O => [] | _ => [32%N] end ++ txt ++ t)
                    = txt ++ t) as Hgap.
  { intros t. destruct gap; cbn [app skip_ws is_ws N.eqb Pos.eqb orb];
      now apply skip_ws_opens. }
  assert (length txt <= length (member_text gap (k, txt, u))) as Hlen.
  { unfold member_text. rewrite !length_app. cbn [fst snd]. lia. }
  cbn [parse_members map]. destruct ms as [|m ms].
  - cbn [join map] in *. unfold member_text at 1, quote. cbn [fst snd].
    rewrite <- !app_assoc. cbn [app expect N.eqb Pos.eqb].
    rewrite parse_chars_quote, Hcolon. cbn [expect N.eqb Pos.eqb].
    rewrite Hgap.
    rewrite (Hp f _ ltac:(lia)
               (@delimited_ws ws2 125%N rest H2 (or_intror (or_introl eq_refl)))).
    rewrite (skip_ws_app ws2 _ H2). reflexivity.
  - cbn [map] in *. rewrite join_cons2 in *.
    rewrite length_app in Hf. cbn [length app] in Hf. rewrite length_app in Hf.
    unfold member_text at 1, quote. cbn [fst snd].
    rewrite <- !app_assoc. cbn [app expect N.eqb Pos.eqb].
    rewrite parse_chars_quote, Hcolon. cbn [expect N.eqb Pos.eqb].
    rewrite Hgap. rewrite Hp by (first [lia|reflexivity]).
    cbn [skip_ws is_ws N.eqb Pos.eqb orb expect].
    rewrite (skip_ws_app ws1 _ H1).
    rewrite skip_ws_opens by (apply opens_join; apply opens_member).
    rewrite (IH ltac:(discriminate) f rest); [reflexivity|]. lia.
Qed.

(** ** Every value *)

Lemma ser_undefined (gap indent : nat) (v : value) :
  is_undefined v = false -> ser gap indent v = Some (item_text gap indent v).
Proof.
  destruct v as [| |[|]|[| |]|s|items|props]; intros H;
    try discriminate; reflexivity.
Qed.

Lemma ser_of_undefined (gap indent : nat) (v : value) :
  is_undefined v = true -> ser gap indent v = None.
Proof. destruct v; intros H; try discriminate; reflexivity. Qed.

Lemma written_texts (gap indent : nat) (props : list (jsstring * value)) :
  flat_map (fun kv =>
              match ser gap indent (snd kv) with
              | Some t => [quote (fst kv) ++ colon gap ++ t]
              | None => []
              end) props
  = map (member_text gap) (written gap indent props).
Proof.
  unfold written. induction props as [|[k v] props IH]; [reflexivity|].
  cbn [flat_map filter fst snd]. destruct (is_undefined v) eqn:E.
  - rewrite (ser_of_undefined gap indent v E). exact IH.
  - rewrite (ser_undefined gap indent v E). cbn [negb map app]. now rewrite IH.
Qed.

Lemma written_image (gap indent : nat) (props : list (jsstring * value)) :
  flat_map (fun kv =>
              if is_undefined (snd kv) then []
              else [(fst kv, json_image (snd kv))]) props
  = map (fun m => (fst (fst m), snd m)) (written gap indent props).
Proof.
  unfold written. induction props as [|[k v] props IH]; [reflexivity|].
  cbn [flat_map filter fst snd]. destruct (is_undefined v);
    cbn [negb map app fst snd]; now rewrite IH.
Qed.

Lemma written_keys (gap indent : nat) (props : list (jsstring * value)) :
  NoDup (keys props) ->
  NoDup (keys (map (fun m : jsstring * jsstring * value => (fst (fst m), snd m))
                 (written gap indent props))).
Proof.
  unfold written, keys. induction props as [|[k v] props IH]; intros H.
  - constructor.
  - cbn [map fst] in H. inversion H as [|? ? Hk Hnd]; subst.
    cbn [filter snd]. destruct (is_undefined v); cbn [negb]; [now apply IH|].
    cbn [map fst snd]. constructor; [|now apply IH].
    intros Hin. apply Hk. rewrite !map_map in Hin. cbn [fst snd] in Hin.
    apply in_map_iff in Hin. destruct Hin as [[k' v'] [E Hin]].
    cbn [fst] in E. subst k'. apply filter_In in Hin. destruct Hin as [Hin _].
    change k with (fst (k, v')). now apply in_map.
Qed.

Lemma written_reads (gap indent : nat) (props : list (jsstring * value)) :
  Forall (fun kv => reads (item_text gap indent (snd kv)) (json_image (snd kv)))
    props ->
  Forall (fun m : jsstring * jsstring * value => reads (snd (fst m)) (snd m))
    (written gap indent props).
Proof.
  unfold written. intros H. apply Forall_map. apply Forall_forall.
  intros kv Hin. apply filter_In in Hin. destruct Hin as [Hin _].
  rewrite Forall_forall in H. now apply H.
Qed.

Lemma read_empty (open close : N) (u : value) :
  (forall f rest, parse_value (S f) (open :: close :: rest) = Parsed u rest) ->
  opens [open; close] = true ->
  reads [open; close] u.
Proof.
  intros H Ho. split; [assumption|]. intros [|f] rest Hf _; [cbn in Hf; lia|].
  apply H.
Qed.

Lemma length_bracket (open close : N) (ws1 ws2 body : jsstring) :
  length (open :: ws1 ++ body ++ ws2 ++ [close]) >= length body + 2.
Proof. cbn [length]. rewrite !length_app. cbn [length]. lia. Qed.

Lemma items_read (gap indent : nat) (items : list value) :
  Forall (fun v => wf_value v = true ->
                   forall gap indent, reads (item_text gap indent v) (json_image v))
    items ->
  forallb wf_value items = true ->
  Forall2 reads (map (item_text gap indent) items) (map json_image items).
Proof.
  induction 1 as [|v items Hv _ IH]; intros Hwf; [constructor|].
  cbn [forallb] in Hwf. apply andb_true_iff in Hwf. destruct Hwf as [Hw Hwf].
  cbn [map]. constructor; [now apply Hv|now apply IH].
Qed.

(** Whatever [JSON.stringify] writes for a well-formed value is read back
    by [JSON.parse] as the image of the value. *)
Theorem read_back (v : value) :
  wf_value v = true ->
  forall gap indent, reads (item_text gap indent v) (json_image v).
Proof.
  induction v as [| |b|x|s|items IH|props IH] using value_induction;
    intros Hwf gap indent.
  - now apply (read_literal "null").
  - now apply (read_literal "null").
  - destruct b; [now apply (read_literal "true")|now apply (read_literal "false")].
  - destruct x as [|neg|neg ds n];
      [now apply (read_literal "null")|now apply (read_literal "null")|].
    now apply read_number.
  - apply read_string.
  - (* arrays *)
    change (item_text gap indent (VArr items))
      with (bracket 91 93 gap indent (map (item_text gap (indent + gap)) items)).
    cbn [json_image]. destruct items as [|x xs].
    { now apply read_empty. }
    assert (Forall2 reads (map (item_text gap (indent + gap)) (x :: xs))
              (map json_image (x :: xs))) as HF.
    { apply items_read; assumption. }
    cbn [map] in *.
    destruct (bracket_layout 91 93 gap indent
                (item_text gap (indent + gap) x)
                (map (item_text gap (indent + gap)) xs))
      as [ws1 [ws2 [H1 [H2 [_ ->]]]]].
    set (parts := item_text gap (indent + gap) x
                  :: map (item_text gap (indent + gap)) xs) in *.
    assert (opens (join (44%N :: ws1) parts) = true) as Hopen.
    { apply opens_join. inversion HF as [|? ? ? ? Hx _]; subst.
      exact (proj1 Hx). }
    split; [reflexivity|]. intros [|f] rest Hf _; [cbn in Hf; lia|].
    pose proof (length_bracket 91 93 ws1 ws2 (join (44%N :: ws1) parts)) as L.
    cbn [app parse_value N.eqb Pos.eqb]. rewrite <- !app_assoc.
    rewrite (skip_ws_app ws1 _ H1), skip_ws_opens by exact Hopen.
    rewrite (@expect_opens 93%N _ _ Hopen) by lia.
    cbn [app].
    rewrite (@read_elements ws1 ws2 parts _ H1 H2 HF ltac:(discriminate));
      [reflexivity|lia].
  - (* objects *)
    change (item_text gap indent (VObj props))
      with (bracket 123 125 gap indent
              (flat_map (fun kv =>
                           match ser gap (indent + gap) (snd kv) with
                           | Some t => [quote (fst kv) ++ colon gap ++ t]
                           | None => []
                           end) props)).
    cbn [json_image]. rewrite written_texts, (written_image gap (indent + gap)).
    cbn [wf_value] in Hwf. apply andb_true_iff in Hwf. destruct Hwf as [Hd Hwf].
    pose proof (@written_keys gap (indent + gap) props
                  (proj1 (distinct_NoDup _) Hd)) as Hk.
    assert (Forall (fun m : jsstring * jsstring * value => reads (snd (fst m)) (snd m))
              (written gap (indent + gap) props)) as HF.
    { apply written_reads. rewrite forallb_forall in Hwf.
      rewrite Forall_forall in *. intros kv Hin. apply IH; [assumption|].
      now apply Hwf. }
    destruct (written gap (indent + gap) props) as [|m ms].
    { now apply read_empty. }
    cbn [map] in *.
    destruct (bracket_layout 123 125 gap indent (member_text gap m)
                (map (member_text gap) ms))
      as [ws1 [ws2 [H1 [H2 [_ ->]]]]].
    change (member_text gap m :: map (member_text gap) ms)
      with (map (member_text gap) (m :: ms)).
    assert (opens (join (44%N :: ws1) (map (member_text gap) (m :: ms))) = true)
      as Hopen by (apply opens_join; apply opens_member).
    split; [reflexivity|]. intros [|f] rest Hf _; [cbn in Hf; lia|].
    pose proof (length_bracket 123 125 ws1 ws2
                  (join (44%N :: ws1) (map (member_text gap) (m :: ms)))) as L.
    cbn [app parse_value N.eqb Pos.eqb]. rewrite <- !app_assoc.
    rewrite (skip_ws_app ws1 _ H1), skip_ws_opens by exact Hopen.
    rewrite (@expect_opens 125%N _ _ Hopen) by lia.
    cbn [app].
    rewrite (@read_members ws1 ws2 gap (m :: ms) H1 H2 HF ltac:(discriminate));
      [|lia].
    cbn [map]. rewrite obj_assign_fresh; [reflexivity|exact Hk|].
    intros k _ [].
Qed.

(* ================================================================= *)
(** ** exportAll and then importAll *)

Lemma JSON_parse_stringify (gap : nat) (v : value) :
  wf_value v = true ->
  JSON_parse (item_text gap 0 v) = Ok (json_image v).
Proof.
  intros Hwf. destruct (read_back v Hwf gap 0) as [Hopen Hread].
  unfold JSON_parse.
  rewrite <- (app_nil_r (item_text gap 0 v)) at 2.
  rewrite skip_ws_opens by exact Hopen.
  rewrite Hread by (lia || reflexivity). reflexivity.
Qed.

Lemma undefined_inv (v : value) : is_undefined v = true -> v = VUndefined.
Proof. destruct v; intros H; try discriminate; reflexivity. Qed.

Lemma import_snapshot (c t d k : value) :
  wf_value (snapshot c t d k) = true ->
  import_collections (item_text 2 0 (snapshot c t d k))
  = Ok (imported_image (mkState c t d k)).
Proof.
  intros Hwf. unfold import_collections.
  rewrite (JSON_parse_stringify 2 _ Hwf). unfold snapshot, imported_image.
  cbn [json_image flat_map fst snd app bind customers technicians devices tickets].
  destruct (is_undefined c) eqn:Ec; [apply undefined_inv in Ec; subst c|];
  destruct (is_undefined t) eqn:Et; [apply undefined_inv in Et; subst t| |
                                     apply undefined_inv in Et; subst t|];
  destruct (is_undefined d) eqn:Ed; try (apply undefined_inv in Ed; subst d);
  destruct (is_undefined k) eqn:Ek; try (apply undefined_inv in Ek; subst k);
  reflexivity.
Qed.

Lemma wf_snapshot (s : State) :
  wf_state s = true ->
  wf_value (snapshot (customers s) (technicians s) (devices s) (tickets s)) = true.
Proof.
  unfold wf_state. intros H.
  repeat (apply andb_true_iff in H; destruct H as [H ?]).
  cbn [wf_value snapshot forallb snd]. apply andb_true_iff. split; [reflexivity|].
  repeat (apply andb_true_iff; split); auto.
Qed.

Lemma clean_not_undefined (v : value) : json_clean v = true -> is_undefined v = false.
Proof. destruct v; intros H; try discriminate; reflexivity. Qed.

Lemma json_image_clean (v : value) : json_clean v = true -> json_image v = v.
Proof.
  induction v as [| |b|x|s|items IH|props IH] using value_induction;
    intros H; try reflexivity; try discriminate.
  - destruct x as [|neg|neg [|d ds] n]; try discriminate; [|reflexivity].
    cbn [json_clean clean_number] in H. apply andb_true_iff in H.
    destruct H as [Hn Hz]. apply negb_true_iff in Hn. apply Z.eqb_eq in Hz.
    now subst.
  - cbn [json_image json_clean] in *. f_equal.
    induction IH as [|a l Ha _ IHl]; [reflexivity|].
    cbn [forallb] in H. apply andb_true_iff in H. destruct H as [H1 H2].
    cbn [map]. now rewrite (Ha H1), (IHl H2).
  - cbn [json_image json_clean] in *. f_equal.
    induction IH as [|[k a] l Ha _ IHl]; [reflexivity|].
    cbn [forallb snd] in H. apply andb_true_iff in H. destruct H as [H1 H2].
    cbn [flat_map fst snd]. rewrite (clean_not_undefined a H1).
    cbn [snd] in Ha. now rewrite (Ha H1), (IHl H2).
Qed.

Lemma imported_clean (v : value) :
  clean_collection v = true -> nullish (json_image v) (VArr []) = v.
Proof.
  destruct v as [| | | | |items|]; try discriminate. intros H.
  rewrite (json_image_clean (VArr items) H). reflexivity.
Qed.

(** C1, as the code has it.  On every well-formed state [importAll] of the
    text of [exportAll] returns [null], and each collection of the new
    state is the image of the old one under JSON: the same, except that a
    property holding [undefined] is gone, that [undefined] as an array
    item, [NaN] and the infinities are [null], and that zero has lost its
    sign.  The collections are the very same when they are arrays that hold
    none of these. *)
Theorem importAll_exportAll (w : World) :
  wf_state (state w) = true ->
  fst (importAll (exportAll w) w) = None
  /\ state (snd (importAll (exportAll w) w)) = imported_image (state w)
  /\ (clean_state (state w) = true ->
      state (snd (importAll (exportAll w) w)) = state w).
Proof.
  intros Hwf. pose proof (wf_snapshot (state w) Hwf) as Hs.
  unfold importAll, exportAll.
  change (to_text (JSON_stringify 2 ?v)) with (item_text 2 0 v).
  rewrite (import_snapshot _ _ _ _ Hs). rewrite state_eta.
  cbn [fst snd state]. split; [reflexivity|]. split; [reflexivity|].
  intros Hc. unfold clean_state in Hc.
  repeat (apply andb_true_iff in Hc; destruct Hc as [Hc ?]).
  unfold imported_image. rewrite !imported_clean by assumption.
  apply state_eta.
Qed.

Lemma importAll_exportAll_witness :
  let fields := VObj [(js "customerId", VStr (js "c1"));
                      (js "deviceId", VStr (js "d1"));
                      (js "problemDescription", VStr (js "No boot"));
                      (js "status", VStr (js "New"));
                      (js "estimatedCost", VNum (Finite false [1; 5]%N 3))] in
  let w := after (addTicket (js "t1") (js "2024-05-01T10:00:00.000Z") fields
                    (mkWorld empty_state None))
             (mkWorld empty_state None) in
  fst (importAll (exportAll w) w) = None
  /\ state (snd (importAll (exportAll w) w)) = state w.
Proof.
  intros fields w.
  destruct (@importAll_exportAll w eq_refl) as [H1 [_ H3]].
  split; [exact H1|exact (H3 eq_refl)].
Defined.

(** C1, as the claim has it, fails on the state the page itself builds: a
    ticket added without a technician carries [technicianId], and always
    [notes], as properties that hold [undefined]; [JSON.stringify] leaves
    them out, so the imported ticket is not the exported one. *)
Lemma importAll_exportAll_drops_undefined :
  let fields := VObj [(js "customerId", VStr (js "c1"));
                      (js "deviceId", VStr (js "d1"));
                      (js "problemDescription", VStr (js "No boot"));
                      (js "status", VStr (js "New"));
                      (js "technicianId", VUndefined);
                      (js "estimatedCost", VUndefined);
                      (js "notes", VUndefined)] in
  let w := after (addTicket (js "t1") (js "2024-05-01T10:00:00.000Z") fields
                    (mkWorld empty_state None))
             (mkWorld empty_state None) in
  wf_state (state w) = true
  /\ fst (importAll (exportAll w) w) = None
  /\ tickets (state w) <> tickets (state (snd (importAll (exportAll w) w)))
  /\ state (snd (importAll (exportAll w) w)) <> state w.
Proof.
  intros fields w. split; [reflexivity|]. split; [vm_compute; reflexivity|].
  split; [vm_compute; discriminate|].
  intros H. apply (f_equal tickets) in H. vm_compute in H. discriminate.
Qed.

(* ================================================================= *)
(** ** JSON.parse has fuel enough *)

Lemma skip_ws_length (t : jsstring) : length (skip_ws t) <= length t.
Proof.
  induction t as [|c t IH]; [reflexivity|]. cbn [skip_ws].
  destruct (is_ws c); cbn [length]; lia.
Qed.

Lemma expect_length (c : N) (t r : jsstring) :
  expect c t = Some r -> length t = S (length r).
Proof.
  destruct t as [|x t]; [discriminate|]. cbn [expect].
  destruct (x =? c)%N; [|discriminate]. now intros [= ->].
Qed.

Lemma strip_prefix_length (p t r : jsstring) :
  strip_prefix p t = Some r -> length r <= length t.
Proof.
  revert t. induction p as [|c p IH]; intros t H.
  - injection H as ->. reflexivity.
  - cbn [strip_prefix] in H. destruct (expect c t) as [r'|] eqn:E; [|discriminate].
    apply expect_length in E. apply IH in H. lia.
Qed.

Lemma parse_chars_length (t s r : jsstring) :
  parse_chars t = Some (s, r) -> length r < length t.
Proof.
  remember (length t) as n eqn:Hn. revert t s r Hn.
  induction n as [n IH] using lt_wf_ind. intros t s r Hn H.
  destruct t as [|c t]; [discriminate|]. cbn [parse_chars] in H.
  cbn [length] in Hn.
  destruct (c =? 34)%N; [injection H as _ <-; lia|].
  destruct (c =? 92)%N.
  - destruct t as [|e t]; [discriminate|]. cbn [length] in Hn.
    destruct (e =? 117)%N.
    + destruct t as [|h1 [|h2 [|h3 [|h4 t]]]]; try discriminate.
      cbn [length] in Hn.
      destruct (hex_val h1), (hex_val h2), (hex_val h3), (hex_val h4);
        try discriminate.
      destruct (parse_chars t) as [[s' r']|] eqn:E; [|discriminate].
      injection H as _ <-. apply (IH (length t)) in E; lia.
    + destruct (unescape e); [|discriminate].
      destruct (parse_chars t) as [[s' r']|] eqn:E; [|discriminate].
      injection H as _ <-. apply (IH (length t)) in E; lia.
  - destruct (c <? 32)%N; [discriminate|].
    destruct (parse_chars t) as [[s' r']|] eqn:E; [|discriminate].
    injection H as _ <-. apply (IH (length t)) in E; lia.
Qed.

Lemma take_digits_length (t : jsstring) :
  length (snd (take_digits t)) <= length t.
Proof.
  induction t as [|c t IH]; [reflexivity|]. cbn [take_digits].
  destruct (is_digit c); [|reflexivity].
  destruct (take_digits t) as [ds r]. cbn [snd length] in *. lia.
Qed.

Lemma parse_sign_length (t : jsstring) :
  length (snd (parse_sign t)) <= length t.
Proof.
  unfold parse_sign. destruct (expect 45%N t) as [r|] eqn:E; cbn [snd]; [|lia].
  apply expect_length in E. lia.
Qed.

Lemma parse_int_length (t r : jsstring) (ds : list N) :
  parse_int t = Some (ds, r) -> length r < length t.
Proof.
  destruct t as [|c t]; [discriminate|]. cbn [parse_int].
  destruct (c =? 48)%N; [intros [= _ <-]; cbn [length]; lia|].
  destruct (is_digit c) eqn:D; [|discriminate]. cbn [take_digits]. rewrite D.
  pose proof (take_digits_length t) as L.
  destruct (take_digits t) as [ds' r']. cbn [snd] in L.
  intros [= _ <-]. cbn [length]. lia.
Qed.

Lemma parse_frac_length (t r : jsstring) (ds : list N) :
  parse_frac t = Some (ds, r) -> length r <= length t.
Proof.
  unfold parse_frac. destruct (expect 46%N t) as [t'|] eqn:E.
  - apply expect_length in E. pose proof (take_digits_length t') as L.
    destruct (take_digits t') as [[|d ds'] r']; [discriminate|].
    cbn [snd] in L. intros [= _ <-]. lia.
  - intros [= _ <-]. lia.
Qed.

Lemma parse_exp_length (t r : jsstring) (e : Z) :
  parse_exp t = Some (e, r) -> length r <= length t.
Proof.
  destruct t as [|c t]; [intros [= _ <-]; reflexivity|]. cbn [parse_exp].
  destruct ((c =? 101) || (c =? 69))%N; [|intros [= _ <-]; reflexivity].
  destruct (expect 43%N t) as [t'|] eqn:E.
  - apply expect_length in E. pose proof (take_digits_length t') as L.
    destruct (take_digits t') as [[|d ds'] r']; [discriminate|].
    cbn [snd] in L. intros [= _ <-]. cbn [length]. lia.
  - pose proof (parse_sign_length t) as S1.
    destruct (parse_sign t) as [neg t']. cbn [snd] in S1.
    pose proof (take_digits_length t') as L.
    destruct (take_digits t') as [[|d ds'] r']; [discriminate|].
    cbn [snd] in L. intros [= _ <-]. cbn [length]. lia.
Qed.

Lemma parse_number_length (t r : jsstring) (x : number) :
  parse_number t = Some (x, r) -> length r < length t.
Proof.
  unfold parse_number, parse_magnitude. pose proof (parse_sign_length t) as S1.
  destruct (parse_sign t) as [neg t1]. cbn [snd] in S1.
  destruct (parse_int t1) as [[ins t2]|] eqn:I; [|discriminate].
  destruct (parse_frac t2) as [[fs t3]|] eqn:F; [|discriminate].
  destruct (parse_exp t3) as [[e t4]|] eqn:E; [|discriminate].
  apply parse_int_length in I. apply parse_frac_length in F.
  apply parse_exp_length in E. intros [= _ <-]. lia.
Qed.

(** With two units of fuel per character the parser never stops for lack
    of fuel, and what it reads it takes from the front of the text. *)
Lemma parse_fuel (fuel : nat) :
  (forall t,
      (2 * length t + 1 <= fuel -> parse_value fuel t <> OutOfFuel)
      /\ (forall v r, parse_value fuel t = Parsed v r -> length r < length t))
  /\ (forall t,
        (2 * length t + 2 <= fuel -> parse_elements fuel t <> OutOfFuel)
        /\ (forall vs r, parse_elements fuel t = Parsed vs r -> length r < length t))
  /\ (forall t,
        (2 * length t + 2 <= fuel -> parse_members fuel t <> OutOfFuel)
        /\ (forall ms r, parse_members fuel t = Parsed ms r -> length r < length t)).
Proof.
  induction fuel as [|f [IHv [IHe IHm]]].
  { repeat split; intros; (lia || discriminate). }
  split; [|split]; intros t.
  - (* parse_value *)
    destruct t as [|c t]; [split; intros; discriminate|].
    cbn [parse_value length]. unfold literal.
    pose proof (skip_ws_length t) as W.
    destruct (c =? 110)%N.
    { destruct (strip_prefix (js "ull") t) eqn:E; split; try discriminate.
      intros v r [= _ <-]. apply strip_prefix_length in E. lia. }
    destruct (c =? 116)%N.
    { destruct (strip_prefix (js "rue") t) eqn:E; split; try discriminate.
      intros v r [= _ <-]. apply strip_prefix_length in E. lia. }
    destruct (c =? 102)%N.
    { destruct (strip_prefix (js "alse") t) eqn:E; split; try discriminate.
      intros v r [= _ <-]. apply strip_prefix_length in E. lia. }
    destruct (c =? 34)%N.
    { destruct (parse_chars t) as [[s r']|] eqn:E; split; try discriminate.
      intros v r [= _ <-]. apply parse_chars_length in E. lia. }
    destruct (c =? 91)%N.
    { destruct (expect 93%N (skip_ws t)) as [r'|] eqn:E.
      - split; [discriminate|]. intros v r [= _ <-].
        apply expect_length in E. lia.
      - destruct (IHe (skip_ws t)) as [F L].
        destruct (parse_elements f (skip_ws t)) as [vs r'| |] eqn:P;
          split; try discriminate.
        + intros v r [= _ <-]. specialize (L _ _ eq_refl). lia.
        + intros Hf. exfalso. apply F; [lia|reflexivity]. }
    destruct (c =? 123)%N.
    { destruct (expect 125%N (skip_ws t)) as [r'|] eqn:E.
      - split; [discriminate|]. intros v r [= _ <-].
        apply expect_length in E. lia.
      - destruct (IHm (skip_ws t)) as [F L].
        destruct (parse_members f (skip_ws t)) as [ms r'| |] eqn:P;
          split; try discriminate.
        + intros v r [= _ <-]. specialize (L _ _ eq_refl). lia.
        + intros Hf. exfalso. apply F; [lia|reflexivity]. }
    destruct (parse_number (c :: t)) as [[x r']|] eqn:E; split; try discriminate.
    intros v r [= _ <-]. apply parse_number_length in E. cbn [length] in E. lia.
  - (* parse_elements *)
    cbn [parse_elements]. destruct (IHv t) as [Fv Lv].
    destruct (parse_value f t) as [v r| |] eqn:P.
    + specialize (Lv _ _ eq_refl). pose proof (skip_ws_length r) as W.
      destruct (expect 44%N (skip_ws r)) as [r'|] eqn:E.
      * apply expect_length in E. pose proof (skip_ws_length r') as W'.
        destruct (IHe (skip_ws r')) as [F L].
        destruct (parse_elements f (skip_ws r')) as [vs r''| |] eqn:P';
          split; try discriminate.
        -- intros vs' r0 [= _ <-]. specialize (L _ _ eq_refl). lia.
        -- intros Hf. exfalso. apply F; [lia|reflexivity].
      * destruct (expect 93%N (skip_ws r)) as [r'|] eqn:E';
          split; try discriminate.
        intros vs' r0 [= _ <-]. apply expect_length in E'. lia.
    + split; discriminate.
    + split; [|discriminate]. intros Hf. exfalso. apply Fv; [lia|reflexivity].
  - (* parse_members *)
    cbn [parse_members].
    destruct (expect 34%N t) as [t1|] eqn:E1; [|split; discriminate].
    apply expect_length in E1.
    destruct (parse_chars t1) as [[k r]|] eqn:E2; [|split; discriminate].
    apply parse_chars_length in E2. pose proof (skip_ws_length r) as W.
    destruct (expect 58%N (skip_ws r)) as [r1|] eqn:E3; [|split; discriminate].
    apply expect_length in E3. pose proof (skip_ws_length r1) as W1.
    destruct (IHv (skip_ws r1)) as [Fv Lv].
    destruct (parse_value f (skip_ws r1)) as [v r2| |] eqn:P.
    + specialize (Lv _ _ eq_refl). pose proof (skip_ws_length r2) as W2.
      destruct (expect 44%N (skip_ws r2)) as [r3|] eqn:E.
      * apply expect_length in E. pose proof (skip_ws_length r3) as W3.
        destruct (IHm (skip_ws r3)) as [F L].
        destruct (parse_members f (skip_ws r3)) as [ms r4| |] eqn:P';
          split; try discriminate.
        -- intros ms' r0 [= _ <-]. specialize (L _ _ eq_refl). lia.
        -- intros Hf. exfalso. apply F; [lia|reflexivity].
      * destruct (expect 125%N (skip_ws r2)) as [r3|] eqn:E';
          split; try discriminate.
        intros ms' r0 [= _ <-]. apply expect_length in E'. lia.
    + split; discriminate.
    + split; [|discriminate]. intros Hf. exfalso. apply Fv; [lia|reflexivity].
Qed.

(** [JSON_parse] gives [parse_value] fuel enough: it throws only where the
    text is not one JSON value. *)
Lemma parse_value_fuel (text : jsstring) :
  parse_value (2 * length text + 1) (skip_ws text) <> OutOfFuel.
Proof.
  apply (proj1 (parse_fuel (2 * length text + 1))).
  pose proof (skip_ws_length text). lia.
Qed.

(* ================================================================= *)
(** ** Well-formed values are all the store ever holds *)

Lemma drop_zeros_spec (ds : list N) :
  (exists z, ds = repeat 0%N z ++ drop_zeros ds)
  /\ (drop_zeros ds = [] \/ negb (hd 0%N (drop_zeros ds) =? 0)%N = true).
Proof.
  induction ds as [|d ds [[z Hz] IH]]; [split; [now exists 0|now left]|].
  cbn [drop_zeros]. destruct (N.eqb_spec d 0) as [->|Hd].
  - split; [|exact IH]. exists (S z). cbn [repeat app]. now rewrite <- Hz.
  - split; [now exists 0|]. right. cbn [hd].
    now apply negb_true_iff, N.eqb_neq.
Qed.

Lemma strip_leading_drop (ds : list N) (p : Z) :
  fst (strip_leading ds p) = drop_zeros ds.
Proof.
  revert p. induction ds as [|d ds IH]; intros p; [reflexivity|].
  cbn [strip_leading drop_zeros]. destruct (d =? 0)%N; [apply IH|reflexivity].
Qed.

Lemma forallb_app_inv {A} (p : A -> bool) (a b : list A) :
  forallb p (a ++ b) = true -> forallb p a = true /\ forallb p b = true.
Proof. rewrite forallb_app. apply andb_true_iff. Qed.

Lemma make_number_wf (neg : bool) (ds : list N) (p : Z) :
  forallb (fun d => (d <? 10)%N) ds = true ->
  wf_number (make_number neg ds p) = true.
Proof.
  intros Hds. unfold make_number.
  pose proof (strip_leading_drop ds p) as E.
  destruct (strip_leading ds p) as [ds1 n]. cbn [fst] in E. subst ds1.
  destruct (drop_zeros_spec ds) as [[y Hy] Hhead].
  assert (forallb (fun d => (d <? 10)%N) (drop_zeros ds) = true) as H1.
  { rewrite Hy in Hds. now apply forallb_app_inv in Hds. }
  unfold strip_trailing.
  destruct (drop_zeros_spec (rev (drop_zeros ds))) as [[z Hz] Hlast].
  set (r := drop_zeros (rev (drop_zeros ds))) in *.
  assert (drop_zeros ds = rev r ++ repeat 0%N z) as Hshape.
  { rewrite <- (rev_involutive (drop_zeros ds)), Hz, rev_app_distr.
    now rewrite rev_repeat. }
  destruct (rev r) as [|d ds2] eqn:Er; [reflexivity|].
  cbn [wf_number].
  apply andb_true_iff. split; [apply andb_true_iff; split|].
  - rewrite Hshape in H1. now apply forallb_app_inv in H1.
  - destruct Hhead as [Hnil|Hhead]; [rewrite Hshape in Hnil; discriminate|].
    rewrite Hshape in Hhead. exact Hhead.
  - rewrite <- Er, rev_involutive. destruct Hlast as [Hnil|Hlast]; [|exact Hlast].
    rewrite Hnil in Er. discriminate.
Qed.

Lemma take_digits_small (t : jsstring) :
  forallb (fun d => (d <? 10)%N) (fst (take_digits t)) = true.
Proof.
  induction t as [|c t IH]; [reflexivity|]. cbn [take_digits].
  destruct (is_digit c) eqn:D; [|reflexivity].
  destruct (take_digits t) as [ds r]. cbn [fst forallb] in *. rewrite IH.
  unfold is_digit in D. apply andb_true_iff in D. destruct D as [D1 D2].
  apply N.leb_le in D1, D2. rewrite andb_true_r. apply N.ltb_lt. lia.
Qed.

Lemma parse_number_wf (t r : jsstring) (x : number) :
  parse_number t = Some (x, r) -> wf_number x = true.
Proof.
  unfold parse_number, parse_magnitude. destruct (parse_sign t) as [neg t1].
  destruct (parse_int t1) as [[ins t2]|] eqn:I; [|discriminate].
  destruct (parse_frac t2) as [[fs t3]|] eqn:F; [|discriminate].
  destruct (parse_exp t3) as [[e t4]|]; [|discriminate].
  intros [= <- _]. apply make_number_wf. rewrite forallb_app.
  apply andb_true_iff. split.
  - destruct t1 as [|c t1]; [discriminate|]. cbn [parse_int] in I.
    destruct (c =? 48)%N; [now injection I as <- _|].
    destruct (is_digit c); [|discriminate].
    pose proof (take_digits_small (c :: t1)) as S1.
    destruct (take_digits (c :: t1)). injection I as <- _. exact S1.
  - unfold parse_frac in F. destruct (expect 46%N t2) as [t'|];
      [|now injection F as <- _].
    pose proof (take_digits_small t') as S1.
    destruct (take_digits t') as [[|d ds] r']; [discriminate|].
    injection F as <- _. exact S1.
Qed.

Lemma obj_set_values (k : jsstring) (v : value) (o : list (jsstring * value)) :
  wf_value v = true -> values_wf o = true -> values_wf (obj_set k v o) = true.
Proof.
  unfold values_wf. intros Hv. induction o as [|[k' v'] o IH]; intros Ho.
  - cbn. now rewrite Hv.
  - cbn [forallb snd] in Ho. apply andb_true_iff in Ho. destruct Ho as [H1 H2].
    cbn [obj_set]. destruct (str_eqb k k'); cbn [forallb snd].
    + now rewrite Hv, H2.
    + now rewrite H1, (IH H2).
Qed.

Lemma obj_assign_values (src target : list (jsstring * value)) :
  values_wf src = true -> values_wf target = true ->
  values_wf (obj_assign target src) = true.
Proof.
  unfold obj_assign. revert target.
  induction src as [|[k v] src IH]; intros target Hs Ht; [assumption|].
  unfold values_wf in Hs. cbn [forallb snd] in Hs.
  apply andb_true_iff in Hs. destruct Hs as [Hv Hs].
  cbn [fold_left fst snd]. apply IH; [assumption|now apply obj_set_values].
Qed.

Lemma wf_object (o : list (jsstring * value)) :
  NoDup (keys o) -> values_wf o = true -> wf_value (VObj o) = true.
Proof.
  intros Hk Hv. cbn [wf_value]. apply andb_true_iff.
  split; [now apply distinct_NoDup|exact Hv].
Qed.

Lemma parse_wf (fuel : nat) :
  (forall t v r, parse_value fuel t = Parsed v r -> wf_value v = true)
  /\ (forall t vs r, parse_elements fuel t = Parsed vs r ->
                     forallb wf_value vs = true)
  /\ (forall t ms r, parse_members fuel t = Parsed ms r -> values_wf ms = true).
Proof.
  induction fuel as [|f [IHv [IHe IHm]]]; [repeat split; discriminate|].
  split; [|split]; intros t.
  - destruct t as [|c t]; [discriminate|]. cbn [parse_value]. unfold literal.
    destruct (c =? 110)%N.
    { destruct (strip_prefix _ t); [|discriminate]. now intros v r [= <- _]. }
    destruct (c =? 116)%N.
    { destruct (strip_prefix _ t); [|discriminate]. now intros v r [= <- _]. }
    destruct (c =? 102)%N.
    { destruct (strip_prefix _ t); [|discriminate]. now intros v r [= <- _]. }
    destruct (c =? 34)%N.
    { destruct (parse_chars t) as [[s r']|]; [|discriminate].
      now intros v r [= <- _]. }
    destruct (c =? 91)%N.
    { destruct (expect 93%N (skip_ws t)); [now intros v r [= <- _]|].
      destruct (parse_elements f (skip_ws t)) as [vs r'| |] eqn:P;
        try discriminate.
      intros v r [= <- _]. exact (IHe _ _ _ P). }
    destruct (c =? 123)%N.
    { destruct (expect 125%N (skip_ws t)); [now intros v r [= <- _]|].
      destruct (parse_members f (skip_ws t)) as [ms r'| |] eqn:P;
        try discriminate.
      intros v r [= <- _]. apply wf_object.
      - apply obj_assign_NoDup. constructor.
      - apply obj_assign_values; [exact (IHm _ _ _ P)|reflexivity]. }
    destruct (parse_number (c :: t)) as [[x r']|] eqn:E; [|discriminate].
    intros v r [= <- _]. exact (parse_number_wf _ E).
  - cbn [parse_elements].
    destruct (parse_value f t) as [v r| |] eqn:P; try discriminate.
    destruct (expect 44%N (skip_ws r)) as [r'|].
    + destruct (parse_elements f (skip_ws r')) as [vs r''| |] eqn:P';
        try discriminate.
      intros vs' r0 [= <- _]. cbn [forallb].
      now rewrite (IHv _ _ _ P), (IHe _ _ _ P').
    + destruct (expect 93%N (skip_ws r)); [|discriminate].
      intros vs' r0 [= <- _]. cbn [forallb]. now rewrite (IHv _ _ _ P).
  - cbn [parse_members].
    destruct (expect 34%N t) as [t1|]; [|discriminate].
    destruct (parse_chars t1) as [[k r]|]; [|discriminate].
    destruct (expect 58%N (skip_ws r)) as [r1|]; [|discriminate].
    destruct (parse_value f (skip_ws r1)) as [v r2| |] eqn:P; try discriminate.
    destruct (expect 44%N (skip_ws r2)) as [r3|].
    + destruct (parse_members f (skip_ws r3)) as [ms r4| |] eqn:P';
        try discriminate.
      intros ms' r0 [= <- _]. unfold values_wf. cbn [forallb snd].
      rewrite (IHv _ _ _ P). exact (IHm _ _ _ P').
    + destruct (expect 125%N (skip_ws r2)); [|discriminate].
      intros ms' r0 [= <- _]. unfold values_wf. cbn [forallb snd].
      now rewrite (IHv _ _ _ P).
Qed.

(** What [JSON.parse] returns is well formed. *)
Lemma JSON_parse_wf (text : jsstring) (v : value) :
  JSON_parse text = Ok v -> wf_value v = true.
Proof.
  unfold JSON_parse.
  destruct (parse_value _ (skip_ws text)) as [u r| |] eqn:P; try discriminate.
  destruct (skip_ws r); [|discriminate]. intros [= <-].
  exact (proj1 (parse_wf _) _ _ _ P).
Qed.

Lemma indexed_values (l : list value) (i : N) :
  forallb wf_value l = true -> values_wf (indexed i l) = true.
Proof.
  unfold values_wf. revert i. induction l as [|v l IH]; intros i H; [reflexivity|].
  cbn [forallb] in H. apply andb_true_iff in H. destruct H as [Hv Hl].
  cbn [indexed forallb snd]. now rewrite Hv, (IH _ Hl).
Qed.

Lemma own_props_values (v : value) :
  wf_value v = true -> values_wf (own_props v) = true.
Proof.
  destruct v as [| | | |s|items|props]; try reflexivity; cbn [own_props wf_value].
  - intros _. apply indexed_values. now induction s.
  - apply indexed_values.
  - intros H. now apply andb_true_iff in H.
Qed.

Lemma spread_wf (target : list (jsstring * value)) (v : value) :
  NoDup (keys target) -> values_wf target = true -> wf_value v = true ->
  wf_value (VObj (spread target v)) = true.
Proof.
  intros Hk Ht Hv. unfold spread. apply wf_object.
  - now apply obj_assign_NoDup.
  - apply obj_assign_values; [now apply own_props_values|assumption].
Qed.

Lemma iterate_wf (v : value) (l : list value) :
  iterate v = Ok l -> wf_value v = true -> forallb wf_value l = true.
Proof.
  destruct v as [| | | |s|items|]; try discriminate; intros [= <-] H.
  - now induction (code_points s).
  - exact H.
Qed.

Lemma update_each_wf (clock : nat -> jsstring) (id : jsstring) (updates : value)
  (l : list value) :
  wf_value updates = true ->
  forallb wf_value l = true ->
  forall i l', update_each clock i id updates l = Ok l' ->
               forallb wf_value l' = true.
Proof.
  intros Hu. induction l as [|tk l IH]; intros Hl i l' E.
  - now injection E as <-.
  - cbn [forallb] in Hl. apply andb_true_iff in Hl. destruct Hl as [Htk Hl].
    cbn [update_each] in E.
    destruct (get tk (js "id")) as [x|e]; [|discriminate]. cbn [bind] in E.
    destruct (strict_eq x (VStr id)).
    + destruct (update_each clock (S i) id updates l) as [r|e] eqn:R;
        [|discriminate].
      injection E as <-. cbn [forallb]. rewrite (IH Hl _ _ R), andb_true_r.
      assert (wf_value (VObj (spread (spread [] tk) updates)) = true) as W.
      { apply spread_wf; [| |exact Hu].
        - unfold spread. apply obj_assign_NoDup. constructor.
        - unfold spread. apply obj_assign_values;
            [now apply own_props_values|reflexivity]. }
      cbn [wf_value] in W. apply andb_true_iff in W. destruct W as [W1 W2].
      apply wf_object.
      * apply obj_set_NoDup. now apply distinct_NoDup.
      * now apply obj_set_values.
    + destruct (update_each clock i id updates l) as [r|e] eqn:R;
        [|discriminate].
      injection E as <-. cbn [forallb]. now rewrite Htk, (IH Hl _ _ R).
Qed.

Lemma obj_lookup_wf (k : jsstring) (o : list (jsstring * value)) (v : value) :
  values_wf o = true -> obj_lookup k o = Some v -> wf_value v = true.
Proof.
  unfold values_wf. induction o as [|[k' v'] o IH]; [discriminate|]. intros H.
  cbn [forallb snd] in H. apply andb_true_iff in H. destruct H as [H1 H2].
  cbn [obj_lookup]. destruct (str_eqb k k'); [now intros [= <-]|now apply IH].
Qed.

Lemma get_wf (v x : value) (k : jsstring) :
  wf_value v = true -> get v k = Ok x -> wf_value x = true.
Proof.
  destruct v as [| | | | | |props]; try discriminate;
    try (intros _ [= <-]; reflexivity).
  cbn [wf_value get]. intros H [= <-]. apply andb_true_iff in H.
  destruct H as [_ H]. destruct (obj_lookup k props) as [y|] eqn:E; [|reflexivity].
  exact (obj_lookup_wf k props H E).
Qed.

Lemma nullish_wf (a : value) : wf_value a = true -> wf_value (nullish a (VArr [])) = true.
Proof. now destruct a. Qed.

Lemma import_collections_wf (json : jsstring) (s : State) :
  import_collections json = Ok s -> wf_state s = true.
Proof.
  unfold import_collections.
  destruct (JSON_parse json) as [v|e] eqn:P; [|discriminate].
  apply JSON_parse_wf in P. cbn [bind].
  destruct (get v (js "customers")) as [c|] eqn:Gc; [|discriminate].
  destruct (get v (js "technicians")) as [t|] eqn:Gt; [|discriminate].
  destruct (get v (js "devices")) as [d|] eqn:Gd; [|discriminate].
  destruct (get v (js "tickets")) as [k|] eqn:Gk; [|discriminate].
  cbn [bind]. intros [= <-]. unfold wf_state.
  cbn [customers technicians devices tickets].
  rewrite !nullish_wf by (eapply get_wf; eassumption). reflexivity.
Qed.

(** Calls whose arguments are well formed. *)
Lemma wf_state_parts (s : State) :
  wf_state s = true ->
  wf_value (customers s) = true /\ wf_value (technicians s) = true
  /\ wf_value (devices s) = true /\ wf_value (tickets s) = true.
Proof.
  unfold wf_state. intros H.
  repeat (apply andb_true_iff in H; destruct H as [H ?]). tauto.
Qed.

Lemma item_wf (base : list (jsstring * value)) (fields : value) :
  distinct (keys base) = true -> values_wf base = true ->
  wf_value fields = true ->
  wf_value (VObj (spread base fields)) = true.
Proof. intros H. apply spread_wf. now apply distinct_NoDup. Qed.

Lemma wf_array_cons (x : value) (l : list value) :
  wf_value (VArr (x :: l)) = wf_value x && forallb wf_value l.
Proof. reflexivity. Qed.

(** Every call keeps the state well formed. *)
Lemma step_wf (o : op) (w : World) :
  op_wf o = true ->
  wf_state (state w) = true ->
  wf_state (state (step o w)) = true.
Proof.
  intros Ho Hw. destruct (wf_state_parts _ Hw) as [Hc [Ht [Hd Hk]]].
  destruct w as [s st]. cbn [state] in *.
  destruct o as [uuid c|uuid t|uuid d|uuid now t|clock id updates|id|json];
    cbn [step op_wf] in *.
  - unfold addCustomer. cbn [state].
    destruct (iterate (customers s)) as [l|e] eqn:I; cbn [bind after state];
      [|assumption].
    unfold wf_state. cbn [customers technicians devices tickets].
    rewrite wf_array_cons.
    rewrite (item_wf [(js "id", VStr uuid)] c eq_refl eq_refl Ho).
    now rewrite (iterate_wf _ I Hc), Ht, Hd, Hk.
  - unfold addTechnician. cbn [state].
    destruct (iterate (technicians s)) as [l|e] eqn:I; cbn [bind after state];
      [|assumption].
    unfold wf_state. cbn [customers technicians devices tickets].
    rewrite wf_array_cons.
    rewrite (item_wf [(js "id", VStr uuid)] t eq_refl eq_refl Ho).
    now rewrite (iterate_wf _ I Ht), Hc, Hd, Hk.
  - unfold addDevice. cbn [state].
    destruct (iterate (devices s)) as [l|e] eqn:I; cbn [bind after state];
      [|assumption].
    unfold wf_state. cbn [customers technicians devices tickets].
    rewrite wf_array_cons.
    rewrite (item_wf [(js "id", VStr uuid)] d eq_refl eq_refl Ho).
    now rewrite (iterate_wf _ I Hd), Hc, Ht, Hk.
  - unfold addTicket. cbn [state].
    destruct (iterate (tickets s)) as [l|e] eqn:I; cbn [bind after state];
      [|assumption].
    unfold wf_state. cbn [customers technicians devices tickets].
    rewrite wf_array_cons.
    rewrite (item_wf [(js "id", VStr uuid); (js "createdAt", VStr now);
                      (js "updatedAt", VStr now)] t eq_refl eq_refl Ho).
    now rewrite (iterate_wf _ I Hk), Hc, Ht, Hd.
  - unfold updateTicket. cbn [state].
    destruct (as_array (tickets s) (js "map")) as [l|e] eqn:A;
      cbn [bind after state]; [|assumption].
    assert (forallb wf_value l = true) as Hl.
    { destruct (tickets s); try discriminate; cbn [as_array get bind] in A;
        try discriminate. now injection A as <-. }
    destruct (update_each clock 0 id updates l) as [l'|e] eqn:E;
      cbn [bind after state]; [|assumption].
    unfold wf_state. cbn [customers technicians devices tickets wf_value].
    now rewrite (update_each_wf clock id updates l Ho Hl 0 E), Hc, Ht, Hd.
  - unfold removeTicket. cbn [state].
    destruct (as_array (tickets s) (js "filter")) as [l|e] eqn:A;
      cbn [bind after state]; [|assumption].
    assert (forallb wf_value l = true) as Hl.
    { destruct (tickets s); try discriminate; cbn [as_array get bind] in A;
        try discriminate. now injection A as <-. }
    match goal with |- context [filterM ?f l] =>
      destruct (filterM f l) as [kept|e] eqn:E end;
      cbn [bind after state]; [|assumption].
    apply filterM_filter in E. subst kept.
    unfold wf_state. cbn [customers technicians devices tickets wf_value].
    now rewrite (forallb_filter _ _ l Hl), Hc, Ht, Hd.
  - unfold importAll.
    destruct (import_collections json) as [s'|e] eqn:I; cbn [snd state];
      [|assumption].
    exact (import_collections_wf json I).
Qed.

(** Whatever the page has called, with well-formed arguments, since the
    store was created: the state is well formed.  The statements above that
    ask for a well-formed state therefore speak of every state the store
    can be in. *)
Lemma reachable_wf (ops : list op) :
  forallb op_wf ops = true ->
  wf_state (state (run ops (mkWorld empty_state None))) = true.
Proof.
  assert (forall w, forallb op_wf ops = true -> wf_state (state w) = true ->
                    wf_state (state (run ops w)) = true) as G.
  { induction ops as [|o ops IH]; intros w H Hw; [exact Hw|].
    cbn [forallb] in H. apply andb_true_iff in H. destruct H as [Ho Hops].
    unfold run in *. cbn [fold_left]. apply IH; [assumption|].
    now apply step_wf. }
  intros H. now apply G.
Qed.

(* ================================================================= *)
(** ** hydrate and save *)

Lemma hydrate_import (w : World) :
  hydrate w =
  match storage w with
  | None | Some [] => w
  | Some raw =>
      match import_collections raw with
      | Ok s => mkWorld s (storage w)
      | Throw _ => w
      end
  end.
Proof. reflexivity. Qed.

Lemma import_snapshot_gap (gap : nat) (c t d k : value) :
  wf_value (snapshot c t d k) = true ->
  import_collections (item_text gap 0 (snapshot c t d k))
  = Ok (imported_image (mkState c t d k)).
Proof.
  intros Hwf. unfold import_collections.
  rewrite (JSON_parse_stringify gap _ Hwf). unfold snapshot, imported_image.
  cbn [json_image flat_map fst snd app bind customers technicians devices tickets].
  destruct (is_undefined c) eqn:Ec; [apply undefined_inv in Ec; subst c|];
  destruct (is_undefined t) eqn:Et; [apply undefined_inv in Et; subst t| |
                                     apply undefined_inv in Et; subst t|];
  destruct (is_undefined d) eqn:Ed; try (apply undefined_inv in Ed; subst d);
  destruct (is_undefined k) eqn:Ek; try (apply undefined_inv in Ek; subst k);
  reflexivity.
Qed.

Lemma hydrate_persisted (gap : nat) (s s0 : State) :
  wf_state s = true ->
  hydrate (mkWorld s0 (Some (persisted gap s)))
  = mkWorld (imported_image s) (Some (persisted gap s)).
Proof.
  intros Hwf. pose proof (wf_snapshot s Hwf) as Hs.
  rewrite hydrate_import. cbn [storage]. unfold persisted.
  change (to_text (JSON_stringify gap ?v)) with (item_text gap 0 v).
  destruct (read_back _ Hs gap 0) as [Hopen _].
  rewrite (import_snapshot_gap gap _ _ _ _ Hs). rewrite state_eta.
  destruct (item_text gap 0 _) as [|x rest]; [discriminate|reflexivity].
Qed.

Lemma imported_image_clean (s : State) :
  clean_state s = true -> imported_image s = s.
Proof.
  intros Hc. unfold clean_state in Hc.
  repeat (apply andb_true_iff in Hc; destruct Hc as [Hc ?]).
  unfold imported_image. rewrite !imported_clean by assumption.
  apply state_eta.
Qed.

Lemma performed_step (o : op) (w w' : World) :
  performed o w = Some w' -> step o w = w'.
Proof.
  destruct o; cbn [performed step];
    try (match goal with |- context [match ?r with Ok _ => _ | Throw _ => _ end] =>
           destruct r end; intros [= <-]; reflexivity).
  destruct (importAll json w) as [[m|] w1]; intros [= <-]; reflexivity.
Qed.

Lemma performed_storage (o : op) (w w' : World) :
  performed o w = Some w' ->
  exists gap, storage w' = Some (persisted gap (state w')).
Proof.
  destruct o as [uuid c|uuid t|uuid d|uuid now t|clock id updates|id|json];
    cbn [performed].
  - unfold addCustomer. destruct (iterate _); cbn [bind]; intros [= <-].
    now exists 0.
  - unfold addTechnician. destruct (iterate _); cbn [bind]; intros [= <-].
    now exists 0.
  - unfold addDevice. destruct (iterate _); cbn [bind]; intros [= <-].
    now exists 0.
  - unfold addTicket. destruct (iterate _); cbn [bind]; intros [= <-].
    now exists 0.
  - unfold updateTicket. destruct (as_array _ _); cbn [bind]; [|discriminate].
    destruct (update_each _ _ _ _ _); cbn [bind]; intros [= <-]. now exists 0.
  - unfold removeTicket. destruct (as_array _ _); cbn [bind]; [|discriminate].
    destruct (filterM _ _); cbn [bind]; intros [= <-]. now exists 0.
  - unfold importAll. destruct (import_collections json); intros [= <-].
    now exists 2.
Qed.

(** X1.  What a store call persists is what [hydrate] loads.  After any
    call that returned ([addCustomer], [addTechnician], [addDevice],
    [addTicket], [updateTicket], [removeTicket], [importAll]), on a
    well-formed state and with well-formed arguments, [hydrate] run on the
    storage the call left (from any store state [s0], such as the empty one
    of a fresh page) gives the collections the call left, as JSON keeps
    them; it gives the very same collections when they hold nothing JSON
    changes. *)
Theorem hydrate_after_store_call (o : op) (w w' : World) (s0 : State) :
  op_wf o = true ->
  wf_state (state w) = true ->
  performed o w = Some w' ->
  hydrate (mkWorld s0 (storage w'))
  = mkWorld (imported_image (state w')) (storage w')
  /\ (clean_state (state w') = true -> hydrate (mkWorld s0 (storage w')) = w').
Proof.
  intros Ho Hw Hp.
  assert (wf_state (state w') = true) as Hw'.
  { rewrite <- (performed_step o w Hp). now apply step_wf. }
  destruct (performed_storage o w Hp) as [gap Hs]. rewrite Hs.
  rewrite hydrate_persisted by exact Hw'. split; [reflexivity|].
  intros Hc. rewrite (imported_image_clean _ Hc), <- Hs. now destruct w'.
Qed.

Lemma hydrate_after_store_call_witness :
  let fields := VObj [(js "name", VStr (js "Ann")); (js "phone", VUndefined)] in
  let w := mkWorld empty_state None in
  exists w', addCustomer (js "c1") fields w = Ok w'
    /\ hydrate (mkWorld empty_state (storage w'))
       = mkWorld (imported_image (state w')) (storage w').
Proof.
  intros fields w. eexists. split; [reflexivity|].
  exact (proj1 (@hydrate_after_store_call (AddCustomer (js "c1") fields) w _
                  empty_state eq_refl eq_refl eq_refl)).
Defined.

(** X2.  [hydrate] keeps the world as it is when there is nothing to load:
    no item under the key, an empty item, an item that is not JSON text,
    or the text [null] (the read of [parsed.customers] throws and the
    [catch] swallows it). *)
Theorem hydrate_nothing_to_load (w : World) :
  match storage w with
  | None | Some [] => True
  | Some raw => (exists e, JSON_parse raw = Throw e) \/ JSON_parse raw = Ok VNull
  end ->
  hydrate w = w.
Proof.
  unfold hydrate. destruct (storage w) as [[|c raw]|]; try reflexivity.
  intros [[e ->]| ->]; reflexivity.
Qed.

Lemma hydrate_nothing_to_load_witness :
  hydrate (mkWorld empty_state (Some (js "{oops")))
  = mkWorld empty_state (Some (js "{oops"))
  /\ hydrate (mkWorld empty_state (Some (js "null")))
     = mkWorld empty_state (Some (js "null")).
Proof.
  split.
  - apply hydrate_nothing_to_load. cbn [storage]. left. eexists.
    vm_compute. reflexivity.
  - apply hydrate_nothing_to_load. cbn [storage]. right. vm_compute.
    reflexivity.
Defined.

(** X3.  [hydrate] never writes the storage, and running it again changes
    nothing: the second run loads what the first did. *)
Theorem hydrate_idempotent (w : World) :
  storage (hydrate w) = storage w /\ hydrate (hydrate w) = hydrate w.
Proof.
  rewrite !hydrate_import. destruct (storage w) as [[|c raw]|] eqn:E.
  - rewrite E. now split.
  - destruct (import_collections (c :: raw)) as [s|e] eqn:I.
    + cbn [storage]. rewrite I. now split.
    + rewrite E, I. now split.
  - rewrite E. now split.
Qed.

(** X4.  [save] and then [hydrate]: on a well-formed state the store holds
    the collections as JSON keeps them, under the text [save] wrote, and
    holds its own collections again when they hold nothing JSON changes. *)
Theorem hydrate_save (w : World) :
  wf_state (state w) = true ->
  state (hydrate (save w)) = imported_image (state w)
  /\ storage (hydrate (save w)) = Some (exportAll w)
  /\ (clean_state (state w) = true -> state (hydrate (save w)) = state w).
Proof.
  intros Hw. unfold save.
  change (Some (to_text _)) with (Some (persisted 2 (state w))).
  rewrite hydrate_persisted by exact Hw. cbn [state storage].
  split; [reflexivity|]. split; [reflexivity|]. apply imported_image_clean.
Qed.

Lemma hydrate_save_witness :
  let w := mkWorld (mkState (VArr [VObj [(js "id", VStr (js "c1"));
                                         (js "name", VStr (js "Ann"))]])
                      (VArr []) (VArr []) (VArr [])) None in
  state (hydrate (save w)) = state w.
Proof.
  intros w. exact (proj2 (proj2 (@hydrate_save w eq_refl)) eq_refl).
Defined.
(* ================================================================= *)
(** ** The seed effect and the first render *)

Lemma seed_written (uuid : nat -> jsstring) (now : jsstring) (s0 : State) :
  hydrate (mkWorld s0 (Some (persisted 2 (seed_state uuid now))))
  = mkWorld (seed_state uuid now) (Some (persisted 2 (seed_state uuid now))).
Proof.
  rewrite hydrate_persisted by reflexivity.
  now rewrite imported_image_clean by reflexivity.
Qed.

Lemma seed_empty (uuid : nat -> jsstring) (now : jsstring) (rendered : State)
  (w : World) :
  all_empty rendered = Ok true ->
  seed uuid now rendered w
  = Ok (mkWorld (seed_state uuid now) (Some (persisted 2 (seed_state uuid now)))).
Proof.
  intros H. unfold seed. rewrite H. cbn [bind].
  change (Some (to_text _)) with (Some (persisted 2 (seed_state uuid now))).
  now rewrite seed_written.
Qed.

(** X5.  The seed effect on a render whose four collections are empty:
    whatever the store and the storage held, the store then holds exactly
    the demo customer, technician, device and ticket, the storage holds
    their text, and the ticket's three references find the three records. *)
Theorem seed_on_empty_collections (uuid : nat -> jsstring) (now : jsstring)
  (rendered : State) (w : World) :
  all_empty rendered = Ok true ->
  exists w',
    seed uuid now rendered w = Ok w'
    /\ state w' = seed_state uuid now
    /\ storage w' = Some (exportAll w')
    /\ forall t, tickets (state w') = VArr [t] ->
         joined (customers (state w')) (field (js "customerId") t)
         = seed_customer (uuid 0)
         /\ joined (devices (state w')) (field (js "deviceId") t)
            = seed_device (uuid 2)
         /\ joined (technicians (state w')) (field (js "technicianId") t)
            = seed_technician (uuid 1).
Proof.
  intros H. eexists. split; [apply (seed_empty uuid now rendered w H)|].
  cbn [state storage]. split; [reflexivity|]. split; [reflexivity|].
  intros t [= <-]. unfold seed_state, joined.
  cbn [customers devices technicians find].
  unfold seed_customer, seed_device, seed_technician, seed_ticket, field.
  rewrite !get_obj. cbn [obj_lookup].
  repeat match goal with
  | |- context [str_eqb (js ?a) (js ?b)] =>
      let r := eval vm_compute in (str_eqb (js a) (js b)) in
      change (str_eqb (js a) (js b)) with r
  end.
  cbn [strict_eq]. rewrite !str_eqb_refl. repeat split.
Qed.

Lemma seed_on_empty_collections_witness :
  exists w',
    seed (fun i => dec (N.of_nat i)) (js "2024-05-01T10:00:00.000Z") empty_state
      (mkWorld empty_state (Some (js "{}"))) = Ok w'
    /\ state w' = seed_state (fun i => dec (N.of_nat i))
                    (js "2024-05-01T10:00:00.000Z").
Proof.
  destruct (@seed_on_empty_collections (fun i => dec (N.of_nat i))
              (js "2024-05-01T10:00:00.000Z") empty_state
              (mkWorld empty_state (Some (js "{}"))) eq_refl)
    as [w' [H1 [H2 _]]].
  exists w'. split; [exact H1|exact H2].
Defined.

(** X6.  The seed effect on a render whose collections are arrays, one of
    them with an item: nothing is written. *)
Theorem seed_on_nonempty_collections (uuid : nat -> jsstring) (now : jsstring)
  (c t d k : list value) (w : World) :
  c ++ t ++ d ++ k <> [] ->
  seed uuid now (mkState (VArr c) (VArr t) (VArr d) (VArr k)) w = Ok w.
Proof.
  intros H. unfold seed, all_empty.
  cbn [customers technicians devices tickets length_is_zero bind].
  destruct c; [|reflexivity]. destruct t; [|reflexivity].
  destruct d; [|reflexivity]. destruct k; [|reflexivity]. now elim H.
Qed.

Lemma seed_on_nonempty_collections_witness :
  seed (fun _ => js "u") (js "now")
    (mkState (VArr []) (VArr [VObj [(js "id", VStr (js "t1"))]]) (VArr [])
       (VArr []))
    (mkWorld empty_state None)
  = Ok (mkWorld empty_state None).
Proof.
  apply (@seed_on_nonempty_collections (fun _ => js "u") (js "now") []
           [VObj [(js "id", VStr (js "t1"))]] [] []).
  discriminate.
Defined.

(** X7.  The first render discards what was persisted.  [hydrate] loads
    the stored collections, but the seed effect of the same render still
    reads the four empty arrays the store was created with: it overwrites
    the item with the demo records and loads them.  Whatever the storage
    held, the page starts from the demo records; and the seed effect of the
    render that follows finds the collections filled and does nothing. *)
Theorem mount_discards_persisted (uuid : nat -> jsstring) (now : jsstring)
  (stored : option jsstring) :
  exists w',
    mount uuid now stored = Ok w'
    /\ state w' = seed_state uuid now
    /\ storage w' = Some (persisted 2 (seed_state uuid now))
    /\ forall uuid' now', seed uuid' now' (state w') w' = Ok w'.
Proof.
  eexists. split; [apply (seed_empty uuid now empty_state _ eq_refl)|].
  cbn [state storage]. repeat split.
Qed.

(** X8.  No collection ever becomes [null] or [undefined]: every call that
    builds one builds an array, and the two that load one put an empty
    array in place of an absent or [null] one.  So the [.length] reads of
    the render never throw, whatever was called or imported. *)
Theorem collections_never_nullish (ops : list op) (w : World) :
  readable_state (state w) = true ->
  readable_state (state (run ops w)) = true
  /\ exists b, all_empty (state (run ops w)) = Ok b.
Proof.
  intros Hw.
  assert (readable_state (state (run ops w)) = true) as H.
  { revert w Hw. induction ops as [|o ops IH]; intros w Hw; [exact Hw|].
    unfold run in *. cbn [fold_left]. apply IH.
    unfold readable_state in *.
    repeat (apply andb_true_iff in Hw; destruct Hw as [Hw ?]).
    destruct o as [uuid c|uuid t|uuid d|uuid now t|clock id updates|id|json];
      cbn [step].
    - unfold addCustomer. destruct (iterate _); cbn [bind after state];
        cbn [customers technicians devices tickets readable];
        repeat (apply andb_true_iff; split); auto.
    - unfold addTechnician. destruct (iterate _); cbn [bind after state];
        cbn [customers technicians devices tickets readable];
        repeat (apply andb_true_iff; split); auto.
    - unfold addDevice. destruct (iterate _); cbn [bind after state];
        cbn [customers technicians devices tickets readable];
        repeat (apply andb_true_iff; split); auto.
    - unfold addTicket. destruct (iterate _); cbn [bind after state];
        cbn [customers technicians devices tickets readable];
        repeat (apply andb_true_iff; split); auto.
    - unfold updateTicket. destruct (as_array _ _); cbn [bind after state];
        [destruct (update_each _ _ _ _ _)|]; cbn [bind after state];
        cbn [customers technicians devices tickets readable];
        repeat (apply andb_true_iff; split); auto.
    - unfold removeTicket. destruct (as_array _ _); cbn [bind after state];
        [destruct (filterM _ _)|]; cbn [bind after state];
        cbn [customers technicians devices tickets readable];
        repeat (apply andb_true_iff; split); auto.
    - unfold importAll, import_collections.
      destruct (JSON_parse json) as [v|e]; cbn [bind snd state];
        [|repeat (apply andb_true_iff; split); auto].
      assert (forall a, readable (nullish a (VArr [])) = true) as N
          by (now intros []).
      destruct v; cbn [get bind snd state customers technicians devices tickets];
        rewrite ?N; try reflexivity;
        repeat (apply andb_true_iff; split); auto. }
  split; [exact H|]. unfold readable_state in H.
  repeat (apply andb_true_iff in H; destruct H as [H ?]).
  assert (forall v, readable v = true -> exists b, length_is_zero v = Ok b) as L.
  { intros [| |b|x|s|l|o]; try discriminate; intros _; eexists; reflexivity. }
  unfold all_empty.
  destruct (L _ H) as [b1 ->]. destruct (L _ H2) as [b2 ->].
  destruct (L _ H1) as [b3 ->]. destruct (L _ H0) as [b4 ->]. cbn [bind].
  destruct b1, b2, b3; cbn [negb bind]; eexists; reflexivity.
Qed.

Lemma collections_never_nullish_witness :
  exists b,
    all_empty (state (run [ImportAll (js "{}"); RemoveTicket (js "t1")]
                        (mkWorld empty_state None))) = Ok b.
Proof.
  exact (proj2 (@collections_never_nullish
                  [ImportAll (js "{}"); RemoveTicket (js "t1")]
                  (mkWorld empty_state None) eq_refl)).
Defined.
(* ================================================================= *)
(** ** Identifiers *)

Lemma field_obj (k : jsstring) (props : list (jsstring * value)) :
  field k (VObj props)
  = match obj_lookup k props with Some x => x | None => VUndefined end.
Proof. reflexivity. Qed.

Lemma has_id_field (id : jsstring) (tk : value) :
  has_id id tk = strict_eq (field (js "id") tk) (VStr id).
Proof. unfold has_id, field. now destruct (get tk (js "id")). Qed.

Lemma item_id (uuid : jsstring) (base : list (jsstring * value)) (t : value) :
  has_key (js "id") (own_props t) = false ->
  field (js "id") (VObj (spread ((js "id", VStr uuid) :: base) t)) = VStr uuid.
Proof.
  intros H. rewrite field_obj. unfold spread.
  rewrite obj_lookup_assign by now apply has_key_false. reflexivity.
Qed.

Lemma item_flat (base : list (jsstring * value)) (t : value) :
  distinct (keys base) = true -> flat_ok (VObj (spread base t)) = true.
Proof.
  intros H. apply distinct_NoDup. unfold spread. apply obj_assign_NoDup.
  now apply distinct_NoDup.
Qed.

Lemma update_each_ids (clock : nat -> jsstring) (id : jsstring)
  (updates : value) (l : list value) :
  has_key (js "id") (own_props updates) = false ->
  forallb flat_ok l = true ->
  forall i l', update_each clock i id updates l = Ok l' ->
    forallb flat_ok l' = true
    /\ map (field (js "id")) l' = map (field (js "id")) l.
Proof.
  intros Hi. induction l as [|tk l IH]; intros Hf i l' E.
  - injection E as <-. split; reflexivity.
  - simpl in Hf. apply andb_true_iff in Hf. destruct Hf as [Hf Hfl].
    cbn [update_each] in E.
    destruct (get tk (js "id")) as [x|e] eqn:G; [|discriminate].
    cbn [bind] in E. destruct (strict_eq x (VStr id)) eqn:Hs.
    + apply strict_eq_str in Hs. subst x.
      destruct (update_each clock (S i) id updates l) as [r|e] eqn:R;
        [|discriminate].
      injection E as <-. destruct (IH Hfl _ _ R) as [F M].
      destruct (has_id_object id tk (proj2 (has_id_spec id tk) G))
        as [props [-> _]].
      simpl in Hf. split.
      * cbn [forallb flat_ok]. rewrite F, andb_true_r.
        apply distinct_NoDup, obj_set_NoDup. unfold spread.
        apply obj_assign_NoDup, obj_assign_NoDup. constructor.
      * cbn [map]. f_equal; [|assumption]. rewrite !field_obj.
        rewrite updated_object by (assumption || discriminate). reflexivity.
    + destruct (update_each clock i id updates l) as [r|e] eqn:R;
        [|discriminate].
      injection E as <-. destruct (IH Hfl _ _ R) as [F M].
      split; [cbn [forallb]; now rewrite Hf, F|cbn [map]; now f_equal].
Qed.

Lemma NoDup_map_filter {A B} (key : A -> B) (keep : A -> bool) :
  forall items, NoDup (map key items) -> NoDup (map key (filter keep items)).
Proof.
  intros items. induction items as [|a l IH]; cbn [map filter]; intros H;
    [constructor|].
  inversion H as [|? ? Ha Hl]; subst. destruct (keep a); [|now apply IH].
  cbn [map]. constructor; [|now apply IH]. intros Hin. apply Ha.
  apply in_map_iff in Hin. destruct Hin as [x [E Hx]].
  apply filter_In in Hx. apply in_map_iff. exists x. tauto.
Qed.

Lemma ticket_list_array (w : World) (l : list value) :
  tickets (state w) = VArr l -> ticket_list w = l.
Proof. unfold ticket_list. now intros ->. Qed.

(** X9.  Identifiers stay unique.  On a state whose collections are arrays
    with no identifier twice, a call that draws an identifier its
    collection does not hold yet, and whose fields bring no [id] of their
    own, leaves such a state.  (Nothing in the store checks the drawn
    identifier: its being new is the hypothesis.) *)
Theorem ids_stay_unique (o : op) (w : World) :
  array_state (state w) = true ->
  forallb flat_ok (ticket_list w) = true ->
  unique_ids (state w) ->
  draws_fresh o (state w) ->
  array_state (state (step o w)) = true
  /\ forallb flat_ok (ticket_list (step o w)) = true
  /\ unique_ids (state (step o w)).
Proof.
  intros Ha Hf [Uc [Ut [Ud Uk]]] Hd. destruct w as [[c t d k] st].
  unfold array_state in Ha. cbn [state customers technicians devices tickets] in *.
  repeat (apply andb_true_iff in Ha; destruct Ha as [Ha ?]).
  destruct c as [| | | | |c|]; try discriminate.
  destruct t as [| | | | |t|]; try discriminate.
  destruct d as [| | | | |d|]; try discriminate.
  destruct k as [| | | | |k|]; try discriminate.
  unfold ticket_list in Hf. cbn [state tickets] in Hf.
  unfold unique_ids.
  destruct o as [uuid x|uuid x|uuid x|uuid now x|clock id updates|id|json];
    cbn [step draws_fresh] in *.
  - destruct Hd as [Hk Hn].
    cbn [addCustomer state customers iterate bind after ticket_list tickets
         technicians devices id_list map].
    rewrite (item_id uuid [] x Hk). repeat split; try assumption.
    now constructor.
  - destruct Hd as [Hk Hn].
    cbn [addTechnician state customers iterate bind after ticket_list tickets
         technicians devices id_list map].
    rewrite (item_id uuid [] x Hk). repeat split; try assumption.
    now constructor.
  - destruct Hd as [Hk Hn].
    cbn [addDevice state customers iterate bind after ticket_list tickets
         technicians devices id_list map].
    rewrite (item_id uuid [] x Hk). repeat split; try assumption.
    now constructor.
  - destruct Hd as [Hk Hn].
    cbn [addTicket state customers iterate bind after ticket_list tickets
         technicians devices id_list map forallb].
    rewrite (item_id uuid _ x Hk). rewrite item_flat by reflexivity.
    repeat split; try assumption. now constructor.
  - unfold updateTicket. cbn [state tickets as_array bind].
    destruct (update_each clock 0 id updates k) as [k'|e] eqn:E;
      cbn [bind after state customers technicians devices tickets ticket_list
           id_list]; [|repeat split; assumption].
    destruct (update_each_ids clock id updates k Hd Hf 0 E) as [F M].
    rewrite M. repeat split; assumption.
  - unfold removeTicket. cbn [state tickets as_array bind].
    match goal with |- context [filterM ?f k] =>
      destruct (filterM f k) as [kept|e] eqn:E end;
      cbn [bind after state customers technicians devices tickets ticket_list
           id_list]; [|repeat split; assumption].
    apply filterM_filter in E. subst kept.
    repeat split; try assumption;
      [now apply forallb_filter|now apply NoDup_map_filter].
  - destruct Hd.
Qed.

Lemma ids_stay_unique_witness :
  let w := mkWorld (mkState (VArr []) (VArr []) (VArr [])
                      (VArr [VObj [(js "id", VStr (js "t1"))]])) None in
  unique_ids (state (step (AddTicket (js "t2") (js "now") (VObj [])) w)).
Proof.
  intros w.
  refine (proj2 (proj2 (@ids_stay_unique (AddTicket (js "t2") (js "now") (VObj []))
                          w eq_refl eq_refl _ _))).
  - repeat split; try constructor. intros []. constructor.
  - split; [reflexivity|]. intros [H|[]]. discriminate.
Defined.

(** X10.  [removeTicket] undoes [addTicket].  When no ticket has the drawn
    identifier yet and the fields bring no [id], removing the identifier
    right after the add gives back the four collections as they were. *)
Theorem removeTicket_undoes_addTicket (uuid now : jsstring) (t : value)
  (w : World) (l : list value) :
  tickets (state w) = VArr l ->
  forallb (fun tk => readable tk && negb (has_id uuid tk)) l = true ->
  has_key (js "id") (own_props t) = false ->
  exists w1 w2,
    addTicket uuid now t w = Ok w1
    /\ removeTicket uuid w1 = Ok w2
    /\ state w2 = state w.
Proof.
  intros Hl Hn Hk. destruct w as [[c t' d k] st]. cbn [state tickets] in Hl.
  subst k. unfold addTicket. cbn [state tickets iterate bind customers
                                  technicians devices].
  eexists. eexists. split; [reflexivity|].
  unfold removeTicket. cbn [state tickets as_array bind customers technicians
                            devices].
  rewrite filterM_has_id.
  - cbn [bind filter]. rewrite has_id_field, item_id by assumption.
    cbn [strict_eq]. rewrite str_eqb_refl. cbn [negb].
    assert (filter (fun tk => negb (has_id uuid tk)) l = l) as ->.
    { clear -Hn. induction l as [|a l IH]; [reflexivity|].
      cbn [forallb] in Hn. apply andb_true_iff in Hn. destruct Hn as [Ha Hn].
      apply andb_true_iff in Ha. destruct Ha as [_ Ha]. cbn [filter].
      rewrite Ha. now rewrite IH. }
    split; reflexivity.
  - cbn [forallb readable]. clear -Hn. induction l as [|a l IH]; [reflexivity|].
    cbn [forallb] in *. apply andb_true_iff in Hn. destruct Hn as [Ha Hn].
    apply andb_true_iff in Ha. destruct Ha as [Ha _]. now rewrite Ha, IH.
Qed.

Lemma removeTicket_undoes_addTicket_witness :
  let old := VObj [(js "id", VStr (js "t1")); (js "status", VStr (js "New"))] in
  let w := mkWorld (mkState (VArr []) (VArr []) (VArr []) (VArr [old])) None in
  exists w1 w2,
    addTicket (js "t2") (js "now") (VObj [(js "status", VStr (js "New"))]) w
    = Ok w1
    /\ removeTicket (js "t2") w1 = Ok w2
    /\ state w2 = state w.
Proof.
  intros old w.
  exact (@removeTicket_undoes_addTicket (js "t2") (js "now")
           (VObj [(js "status", VStr (js "New"))]) w [old]
           eq_refl eq_refl eq_refl).
Defined.
(* ================================================================= *)
(** ** updateTicket and removeTicket together *)

Lemma has_id_updated (x : jsstring) (clock_i : jsstring)
  (props : list (jsstring * value)) (updates : value) :
  distinct (keys props) = true ->
  has_key (js "id") (own_props updates) = false ->
  has_id x (VObj (obj_set (js "updatedAt") (VStr clock_i)
                    (spread (spread [] (VObj props)) updates)))
  = has_id x (VObj props).
Proof.
  intros Hd Hk. rewrite !has_id_field, !field_obj.
  now rewrite updated_object by (assumption || discriminate).
Qed.

Lemma update_each_filter (clock : nat -> jsstring) (id rid : jsstring)
  (updates : value) (l : list value) :
  id <> rid ->
  has_key (js "id") (own_props updates) = false ->
  forallb flat_ok l = true ->
  forall i l', update_each clock i id updates l = Ok l' ->
    update_each clock i id updates (filter (fun tk => negb (has_id rid tk)) l)
    = Ok (filter (fun tk => negb (has_id rid tk)) l').
Proof.
  intros Hne Hk. induction l as [|tk l IH]; intros Hf i l' E.
  - now injection E as <-.
  - cbn [forallb] in Hf. apply andb_true_iff in Hf. destruct Hf as [Hf Hfl].
    cbn [update_each] in E.
    destruct (get tk (js "id")) as [x|e] eqn:G; [|discriminate].
    cbn [bind] in E. destruct (strict_eq x (VStr id)) eqn:Hs.
    + apply strict_eq_str in Hs. subst x.
      destruct (update_each clock (S i) id updates l) as [r|e] eqn:R;
        [|discriminate].
      injection E as <-.
      destruct (has_id_object id tk (proj2 (has_id_spec id tk) G))
        as [props [-> Hp]].
      cbn [flat_ok] in Hf. cbn [filter].
      rewrite (has_id_updated rid (clock i) props updates Hf Hk).
      assert (has_id rid (VObj props) = false) as ->.
      { rewrite has_id_field, field_obj, Hp. cbn [strict_eq].
        now apply str_eqb_neq. }
      cbn [negb update_each]. rewrite G. cbn [bind strict_eq].
      rewrite str_eqb_refl. now rewrite (IH Hfl _ _ R).
    + destruct (update_each clock i id updates l) as [r|e] eqn:R;
        [|discriminate].
      injection E as <-. cbn [filter].
      destruct (negb (has_id rid tk)); [|now apply IH].
      cbn [update_each]. rewrite G. cbn [bind]. rewrite Hs.
      now rewrite (IH Hfl _ _ R).
Qed.

Lemma update_each_removed (clock : nat -> jsstring) (id : jsstring)
  (updates : value) (l : list value) :
  has_key (js "id") (own_props updates) = false ->
  forallb flat_ok l = true ->
  forall i l', update_each clock i id updates l = Ok l' ->
    filter (fun tk => negb (has_id id tk)) l'
    = filter (fun tk => negb (has_id id tk)) l.
Proof.
  intros Hk. induction l as [|tk l IH]; intros Hf i l' E.
  - now injection E as <-.
  - cbn [forallb] in Hf. apply andb_true_iff in Hf. destruct Hf as [Hf Hfl].
    cbn [update_each] in E.
    destruct (get tk (js "id")) as [x|e] eqn:G; [|discriminate].
    cbn [bind] in E. destruct (strict_eq x (VStr id)) eqn:Hs.
    + apply strict_eq_str in Hs. subst x.
      destruct (update_each clock (S i) id updates l) as [r|e] eqn:R;
        [|discriminate].
      injection E as <-.
      pose proof (proj2 (has_id_spec id tk) G) as Hid.
      destruct (has_id_object id tk Hid) as [props [-> Hp]].
      cbn [flat_ok] in Hf. cbn [filter].
      rewrite (has_id_updated id (clock i) props updates Hf Hk), Hid.
      cbn [negb]. now apply (IH Hfl (S i)).
    + destruct (update_each clock i id updates l) as [r|e] eqn:R;
        [|discriminate].
      injection E as <-. cbn [filter]. rewrite (IH Hfl i r R). reflexivity.
Qed.

Lemma filter_absent (id : jsstring) (l : list value) :
  forallb readable l = true ->
  forallb (fun tk => readable tk && negb (has_id id tk))
    (filter (fun tk => negb (has_id id tk)) l) = true.
Proof.
  induction l as [|a l IH]; [reflexivity|]. cbn [forallb filter].
  intros H. apply andb_true_iff in H. destruct H as [Ha Hl].
  destruct (negb (has_id id a)) eqn:E; [|now apply IH].
  cbn [forallb]. now rewrite Ha, E, IH.
Qed.

Lemma update_each_readable (clock : nat -> jsstring) (id : jsstring)
  (updates : value) (l : list value) :
  forall i l', update_each clock i id updates l = Ok l' ->
               forallb readable l' = true.
Proof.
  induction l as [|tk l IH]; intros i l' E.
  - now injection E as <-.
  - cbn [update_each] in E.
    destruct (get tk (js "id")) as [x|e] eqn:G; [|discriminate].
    assert (readable tk = true) as Hr by (destruct tk; try discriminate; reflexivity).
    cbn [bind] in E. destruct (strict_eq x (VStr id)).
    + destruct (update_each clock (S i) id updates l) as [r|e] eqn:R;
        [|discriminate].
      injection E as <-. cbn [forallb readable]. exact (IH _ _ R).
    + destruct (update_each clock i id updates l) as [r|e] eqn:R;
        [|discriminate].
      injection E as <-. cbn [forallb]. rewrite Hr. exact (IH _ _ R).
Qed.

(** X11.  [updateTicket] and [removeTicket] commute.  On an array of
    tickets that are objects or other readable values, with partial fields
    that bring no [id], updating one identifier and removing another, or
    the same one, leave the same store and the same storage in either
    order. *)
Theorem updateTicket_removeTicket_commute (clock : nat -> jsstring)
  (id rid : jsstring) (updates : value) (w : World) (l : list value) :
  tickets (state w) = VArr l ->
  forallb readable l = true ->
  forallb flat_ok l = true ->
  has_key (js "id") (own_props updates) = false ->
  (w1 <- updateTicket clock id updates w ;; removeTicket rid w1)
  = (w1 <- removeTicket rid w ;; updateTicket clock id updates w1)
  /\ exists w', (w1 <- removeTicket rid w ;; updateTicket clock id updates w1)
                = Ok w'.
Proof.
  intros Hl Hr Hf Hk. destruct w as [[c t d k] st]. cbn [state tickets] in Hl.
  subst k.
  destruct (update_each_refreshes clock id updates l Hr 0) as [l' [E _]].
  pose proof (update_each_readable clock id updates l 0 E) as Hr'.
  assert (update_each clock 0 id updates
            (filter (fun tk => negb (has_id rid tk)) l)
          = Ok (filter (fun tk => negb (has_id rid tk)) l')) as C.
  { destruct (list_eq_dec N.eq_dec id rid) as [->|Hne].
    - rewrite (update_each_removed clock rid updates l Hk Hf 0 E).
      apply update_each_absent. now apply filter_absent.
    - now apply update_each_filter. }
  unfold updateTicket, removeTicket.
  cbn [state tickets as_array bind customers technicians devices].
  rewrite E. cbn [bind state tickets as_array customers technicians devices].
  rewrite !filterM_has_id by assumption.
  cbn [bind state tickets as_array customers technicians devices].
  rewrite C. cbn [bind]. split; [reflexivity|]. eexists. reflexivity.
Qed.

Lemma updateTicket_removeTicket_commute_witness :
  let t1 := VObj [(js "id", VStr (js "t1")); (js "status", VStr (js "New"))] in
  let t2 := VObj [(js "id", VStr (js "t2")); (js "status", VStr (js "New"))] in
  let w := mkWorld (mkState (VArr []) (VArr []) (VArr []) (VArr [t1; t2])) None in
  let updates := VObj [(js "status", VStr (js "Ready"))] in
  (w1 <- updateTicket (fun _ => js "now") (js "t2") updates w ;;
   removeTicket (js "t1") w1)
  = (w1 <- removeTicket (js "t1") w ;;
     updateTicket (fun _ => js "now") (js "t2") updates w1).
Proof.
  intros t1 t2 w updates.
  exact (proj1 (@updateTicket_removeTicket_commute (fun _ => js "now") (js "t2")
                  (js "t1") updates w [t1; t2] eq_refl eq_refl eq_refl eq_refl)).
Defined.

(* ================================================================= *)
(** ** The ticket list on any state *)

(** X12.  With the filter on All and nothing typed in the search box the
    list is the whole array of tickets: no ticket is read, so the list is
    built whatever the array holds. *)
Theorem filteredTickets_unfiltered (lower : jsstring -> jsstring) (s : State)
  (l : list value) :
  tickets s = VArr l ->
  filteredTickets lower (js "All") [] s = Ok l.
Proof.
  intros Hl. unfold filteredTickets. rewrite Hl. cbn [as_array bind].
  rewrite (filterM_pure _ (fun _ => true)).
  - f_equal. clear Hl. induction l as [|a l' IH]; [reflexivity|].
    cbn [filter]. now rewrite IH.
  - intros a _. reflexivity.
Qed.

Lemma filteredTickets_unfiltered_witness :
  filteredTickets ascii_lower (js "All") []
    (mkState (VArr []) (VArr []) (VArr []) (VArr [VNull; VStr (js "x")]))
  = Ok [VNull; VStr (js "x")].
Proof.
  exact (@filteredTickets_unfiltered ascii_lower
           (mkState (VArr []) (VArr []) (VArr []) (VArr [VNull; VStr (js "x")]))
           [VNull; VStr (js "x")] eq_refl).
Defined.

(** X13.  Whenever the list is built, on any state, it is a selection of
    the tickets in their order (some test applied to each), and with a
    status chosen in the filter every listed ticket has that status. *)
Theorem filteredTickets_selection (lower : jsstring -> jsstring)
  (flt search : jsstring) (s : State) (shown : list value) :
  filteredTickets lower flt search s = Ok shown ->
  exists l p,
    tickets s = VArr l /\ shown = filter p l
    /\ (flt <> js "All" ->
        forall t, In t shown -> get t (js "status") = Ok (VStr flt)).
Proof.
  unfold filteredTickets. intros H.
  destruct (tickets s) as [| | | | |l|]; try discriminate.
  cbn [as_array bind] in H. apply filterM_filter in H.
  exists l. eexists. split; [reflexivity|]. split; [exact H|].
  intros Hne t Hin. rewrite H in Hin. apply filter_In in Hin.
  destruct Hin as [_ Hin]. unfold ticket_shown in Hin.
  rewrite (proj2 (str_eqb_neq _ _) Hne) in Hin.
  destruct (get t (js "status")) as [st|e]; [|discriminate].
  cbn [bind] in Hin. destruct (strict_eq st (VStr flt)) eqn:E; [|discriminate].
  apply strict_eq_str in E. now subst st.
Qed.

Lemma filteredTickets_selection_witness :
  let t1 := VObj [(js "id", VStr (js "t1")); (js "status", VStr (js "New"))] in
  let t2 := VObj [(js "id", VStr (js "t2")); (js "status", VStr (js "Ready"))] in
  exists l p,
    VArr [t1; t2] = VArr l /\ [t2] = filter p l
    /\ (js "Ready" <> js "All" ->
        forall t, In t [t2] -> get t (js "status") = Ok (VStr (js "Ready"))).
Proof.
  intros t1 t2.
  exact (@filteredTickets_selection ascii_lower (js "Ready") []
           (mkState (VArr []) (VArr []) (VArr []) (VArr [t1; t2])) [t2] eq_refl).
Defined.
(* ================================================================= *)
(** ** Export and import, again *)

Lemma json_image_defined (v : value) : is_undefined (json_image v) = false.
Proof. destruct v as [| |b|[| |neg [|d ds] n]|s|items|props]; reflexivity. Qed.

Lemma json_image_idem (v : value) : json_image (json_image v) = json_image v.
Proof.
  induction v as [| |b|x|s|items IH|props IH] using value_induction;
    try reflexivity.
  - destruct x as [|neg|neg [|d ds] n]; reflexivity.
  - cbn [json_image]. f_equal.
    induction IH as [|a l Ha _ IHl]; [reflexivity|]. cbn [map].
    now rewrite Ha, IHl.
  - cbn [json_image]. f_equal.
    induction IH as [|[k a] l Ha _ IHl]; [reflexivity|].
    cbn [flat_map fst snd] in *. destruct (is_undefined a); [exact IHl|].
    cbn [app flat_map fst snd]. rewrite json_image_defined, Ha.
    cbn [app]. now rewrite IHl.
Qed.

Lemma item_text_image (v : value) :
  forall gap indent,
    item_text gap indent (json_image v) = item_text gap indent v.
Proof.
  induction v as [| |b|x|s|items IH|props IH] using value_induction;
    intros gap indent; try reflexivity.
  - destruct x as [|neg|neg [|d ds] n]; reflexivity.
  - unfold item_text. cbn [json_image ser]. f_equal.
    induction IH as [|a l Ha _ IHl]; [reflexivity|]. cbn [map].
    rewrite IHl. f_equal. exact (Ha gap (indent + gap)).
  - unfold item_text. cbn [json_image ser]. f_equal.
    induction IH as [|[k a] l Ha _ IHl]; [reflexivity|].
    cbn [flat_map fst snd] in *. destruct (is_undefined a) eqn:E.
    + rewrite (ser_of_undefined gap (indent + gap) a E). exact IHl.
    + cbn [app flat_map fst snd].
      rewrite (ser_undefined gap (indent + gap) _ (json_image_defined a)).
      rewrite (ser_undefined gap (indent + gap) a E).
      rewrite (Ha gap (indent + gap)). cbn [app]. now rewrite IHl.
Qed.

Lemma imported_image_idem (s : State) :
  imported_image (imported_image s) = imported_image s.
Proof.
  assert (forall c, nullish (json_image (nullish (json_image c) (VArr []))) (VArr [])
                    = nullish (json_image c) (VArr [])) as N.
  { intros c. destruct (json_image c) eqn:E; try reflexivity;
      cbn [nullish]; rewrite <- E, json_image_idem, E; reflexivity. }
  unfold imported_image. cbn [customers technicians devices tickets].
  now rewrite !N.
Qed.

Lemma imported_image_wf (s : State) :
  wf_state s = true -> wf_state (imported_image s) = true.
Proof.
  intros Hw. apply (import_collections_wf (item_text 2 0
    (snapshot (customers s) (technicians s) (devices s) (tickets s)))).
  rewrite import_snapshot_gap by now apply wf_snapshot.
  now rewrite state_eta.
Qed.

Lemma importAll_persisted (s : State) (w : World) :
  wf_state s = true ->
  importAll (persisted 2 s) w
  = (None, mkWorld (imported_image s) (Some (persisted 2 (imported_image s)))).
Proof.
  intros Hw. unfold importAll, persisted.
  change (to_text (JSON_stringify 2 ?v)) with (item_text 2 0 v).
  rewrite import_snapshot_gap by now apply wf_snapshot.
  now rewrite state_eta.
Qed.

Lemma persisted_image (gap : nat) (s : State) :
  array_state s = true -> persisted gap (imported_image s) = persisted gap s.
Proof.
  destruct s as [c t d k]. unfold array_state.
  cbn [customers technicians devices tickets]. intros H.
  repeat (apply andb_true_iff in H; destruct H as [H ?]).
  destruct c as [| | | | |c|]; try discriminate.
  destruct t as [| | | | |t|]; try discriminate.
  destruct d as [| | | | |d|]; try discriminate.
  destruct k as [| | | | |k|]; try discriminate.
  unfold persisted, imported_image.
  cbn [customers technicians devices tickets].
  change (to_text (JSON_stringify gap ?v)) with (item_text gap 0 v).
  rewrite <- (item_text_image (snapshot (VArr c) (VArr t) (VArr d) (VArr k))).
  reflexivity.
Qed.

(** X14.  One export and import is all JSON ever changes.  On a
    well-formed state, after [importAll] of the text of [exportAll], doing
    the same again leaves the four collections as they are; and when the
    collections were arrays the second export is, character for character,
    the first. *)
Theorem export_import_settles (w : World) :
  wf_state (state w) = true ->
  let w1 := snd (importAll (exportAll w) w) in
  fst (importAll (exportAll w1) w1) = None
  /\ state (snd (importAll (exportAll w1) w1)) = state w1
  /\ (array_state (state w) = true -> exportAll w1 = exportAll w).
Proof.
  intros Hw w1. subst w1.
  change (exportAll w) with (persisted 2 (state w)).
  rewrite importAll_persisted by exact Hw. cbn [snd].
  change (exportAll ?x) with (persisted 2 (state x)). cbn [state].
  rewrite importAll_persisted by now apply imported_image_wf.
  cbn [fst snd state]. split; [reflexivity|].
  split; [apply imported_image_idem|]. apply persisted_image.
Qed.

Lemma export_import_settles_witness :
  let fields := VObj [(js "customerId", VStr (js "c1"));
                      (js "technicianId", VUndefined);
                      (js "notes", VUndefined)] in
  let w := after (addTicket (js "t1") (js "2024-05-01T10:00:00.000Z") fields
                    (mkWorld empty_state None))
             (mkWorld empty_state None) in
  let w1 := snd (importAll (exportAll w) w) in
  state (snd (importAll (exportAll w1) w1)) = state w1
  /\ exportAll w1 = exportAll w.
Proof.
  intros fields w w1.
  destruct (@export_import_settles w eq_refl) as [_ [H2 H3]].
  split; [exact H2|exact (H3 eq_refl)].
Defined.
(* ================================================================= *)
(** ** The handlers of the page *)

Lemma field_set2 (f k1 k2 : jsstring) (v1 v2 : value)
  (props : list (jsstring * value)) :
  field f (VObj (obj_set k2 v2 (obj_set k1 v1 props)))
  = if str_eqb f k2 then v2
    else if str_eqb f k1 then v1 else field f (VObj props).
Proof.
  rewrite !field_obj, !obj_lookup_set.
  destruct (str_eqb f k2); [reflexivity|]. now destruct (str_eqb f k1).
Qed.

Ltac literal_keys :=
  repeat match goal with
  | |- context [str_eqb (js ?a) (js ?b)] =>
      let r := eval vm_compute in (str_eqb (js a) (js b)) in
      change (str_eqb (js a) (js b)) with r
  end.

Lemma changed_entered (key : jsstring) (val : value) (stamp : jsstring)
  (props : list (jsstring * value)) :
  control_change key val ->
  entered_ticket (VObj props) = true ->
  entered_ticket
    (VObj (obj_set (js "updatedAt") (VStr stamp)
             (spread (spread [] (VObj props)) (VObj [(key, val)])))) = true.
Proof.
  intros Hc He. unfold entered_ticket in He.
  repeat (apply andb_true_iff in He; destruct He as [He ?]).
  rename H2 into Hflat. cbn [flat_ok] in Hflat.
  rewrite (spread_empty_object props Hflat).
  change (spread props (VObj [(key, val)])) with (obj_set key val props).
  unfold typed_ticket in He.
  repeat (apply andb_true_iff in He; destruct He as [He ?]).
  assert (flat_ok (VObj (obj_set (js "updatedAt") (VStr stamp)
                           (obj_set key val props))) = true) as F.
  { apply distinct_NoDup. do 2 apply obj_set_NoDup. now apply distinct_NoDup. }
  unfold entered_ticket, typed_ticket, filled. rewrite F.
  rewrite !field_set2. cbn [is_object].
  destruct Hc as [[-> Hv]|[[-> Hv]| ->]]; literal_keys; cbn [andb];
    unfold filled in *;
    repeat (apply andb_true_iff; split); assumption.
Qed.

Lemma update_each_entered (clock : nat -> jsstring) (id key : jsstring)
  (val : value) (l : list value) :
  control_change key val ->
  forallb entered_ticket l = true ->
  forall i, exists l',
    update_each clock i id (VObj [(key, val)]) l = Ok l'
    /\ forallb entered_ticket l' = true.
Proof.
  intros Hc. induction l as [|tk l IH]; intros He i.
  - exists []. split; reflexivity.
  - cbn [forallb] in He. apply andb_true_iff in He. destruct He as [Ht Hl].
    assert (is_object tk = true) as Ho.
    { unfold entered_ticket, typed_ticket in Ht.
      repeat (apply andb_true_iff in Ht; destruct Ht as [Ht ?]). exact Ht. }
    destruct tk as [| | | | | |props]; try discriminate.
    cbn [update_each]. rewrite get_obj. cbn [bind].
    match goal with |- context [strict_eq ?x (VStr id)] =>
      destruct (strict_eq x (VStr id)) end.
    + destruct (IH Hl (S i)) as [l' [E F]]. rewrite E. cbn [bind].
      eexists. split; [reflexivity|]. cbn [forallb].
      now rewrite (changed_entered (clock i) props Hc Ht), F.
    + destruct (IH Hl i) as [l' [E F]]. rewrite E. cbn [bind].
      eexists. split; [reflexivity|]. cbn [forallb]. now rewrite Ht, F.
Qed.

Lemma entered_tickets_readable (l : list value) :
  forallb entered_ticket l = true -> forallb readable l = true.
Proof.
  induction l as [|a l IH]; [reflexivity|]. cbn [forallb]. intros H.
  apply andb_true_iff in H. destruct H as [Ha Hl]. rewrite (IH Hl).
  unfold entered_ticket, typed_ticket in Ha.
  repeat (apply andb_true_iff in Ha; destruct Ha as [Ha ?]).
  now rewrite (object_readable a Ha).
Qed.

Lemma forallb_weaken {A} (p q : A -> bool) (l : list A) :
  (forall a, p a = true -> q a = true) ->
  forallb p l = true -> forallb q l = true.
Proof.
  intros W. induction l as [|a l IH]; [reflexivity|]. cbn [forallb].
  intros H. apply andb_true_iff in H. destruct H as [Ha Hl].
  now rewrite (W a Ha), (IH Hl).
Qed.

Lemma array_of_weaken (p q : value -> bool) (v : value) :
  (forall a, p a = true -> q a = true) ->
  array_of p v = true -> array_of q v = true.
Proof.
  intros W. destruct v; try discriminate. cbn [array_of].
  now apply forallb_weaken.
Qed.

Lemma entered_typed (s : State) :
  entered_state s = true -> typed_state s = true.
Proof.
  unfold entered_state, typed_state. intros H.
  repeat (apply andb_true_iff in H; destruct H as [H ?]).
  repeat (apply andb_true_iff; split);
    match goal with
    | Hx : array_of ?p ?v = true |- array_of _ ?v = true =>
        apply (array_of_weaken p _ v); [|exact Hx]
    end;
    intros a Ha; unfold entered_customer, entered_technician, entered_device,
      entered_ticket in Ha;
    repeat match type of Ha with
           | (_ && _) = true => apply andb_true_iff in Ha; destruct Ha as [Ha _]
           end;
    exact Ha.
Qed.

Lemma entered_parts (s : State) :
  entered_state s = true ->
  exists c t d k,
    s = mkState (VArr c) (VArr t) (VArr d) (VArr k)
    /\ forallb entered_customer c = true
    /\ forallb entered_technician t = true
    /\ forallb entered_device d = true
    /\ forallb entered_ticket k = true.
Proof.
  destruct s as [c t d k]. unfold entered_state.
  cbn [customers technicians devices tickets]. intros H.
  repeat (apply andb_true_iff in H; destruct H as [H ?]).
  destruct c as [| | | | |c|]; try discriminate.
  destruct t as [| | | | |t|]; try discriminate.
  destruct d as [| | | | |d|]; try discriminate.
  destruct k as [| | | | |k|]; try discriminate.
  exists c, t, d, k. repeat split; assumption.
Qed.

Lemma entered_build (c t d k : list value) :
  forallb entered_customer c = true ->
  forallb entered_technician t = true ->
  forallb entered_device d = true ->
  forallb entered_ticket k = true ->
  entered_state (mkState (VArr c) (VArr t) (VArr d) (VArr k)) = true.
Proof.
  intros Hc Ht Hd Hk. unfold entered_state.
  cbn [customers technicians devices tickets array_of].
  now rewrite Hc, Ht, Hd, Hk.
Qed.

Lemma handle_entered (toNumber : jsstring -> number) (a : action) (p : Page) :
  entered_state (state (world p)) = true ->
  exists p', handle toNumber a p = Ok p'
             /\ entered_state (state (world p')) = true.
Proof.
  intros He. destruct (entered_parts _ He) as [c [t [d [k [Es [Hc [Ht [Hd Hk]]]]]]]].
  destruct p as [[s st] nc nu nd nk text al]. cbn [world state] in *. subst s.
  destruct a as [uuid|uuid|uuid|uuid now|clock id chosen|clock id chosen
                 |clock id chosen|id|c' u' d' k' text']; cbn [handle].
  - unfold addCustomerClick. cbn [newCustomer world].
    destruct nc as [[|n0 n] ph em]; cbn [NewCustomer.name truthy negb];
      [eexists; split; [reflexivity|exact He]|].
    unfold addCustomer. cbn [state customers iterate bind technicians devices
                             tickets world].
    eexists. split; [reflexivity|]. cbn [world state].
    apply entered_build; try assumption. cbn [forallb]. rewrite Hc.
    destruct ph, em; reflexivity.
  - unfold addTechnicianClick. cbn [newTechnician world].
    destruct nu as [[|n0 n]]; cbn [NewTechnician.name truthy negb];
      [eexists; split; [reflexivity|exact He]|].
    unfold addTechnician. cbn [state customers iterate bind technicians devices
                               tickets world].
    eexists. split; [reflexivity|]. cbn [world state].
    apply entered_build; assumption.
  - unfold addDeviceClick. cbn [newDevice world].
    destruct nd as [[|n0 n] br mo se]; cbn [NewDevice.type truthy negb];
      [eexists; split; [reflexivity|exact He]|].
    unfold addDevice. cbn [state customers iterate bind technicians devices
                           tickets world].
    eexists. split; [reflexivity|]. cbn [world state].
    apply entered_build; try assumption. cbn [forallb]. rewrite Hd.
    destruct br, mo, se; reflexivity.
  - unfold addTicketClick. cbn [newTicket world].
    destruct nk as [[|c0 cid] [|d0 did] [|p0 pd] stt tid cost];
      cbn [NewTicket.customerId NewTicket.deviceId NewTicket.problemDescription
           truthy negb orb];
      try (eexists; split; [reflexivity|exact He]).
    unfold addTicket. cbn [state customers iterate bind technicians devices
                           tickets world].
    eexists. split; [reflexivity|]. cbn [world state].
    apply entered_build; try assumption. cbn [forallb]. rewrite Hk.
    destruct tid, cost; reflexivity.
  - unfold statusChange, updateTicket.
    cbn [world state tickets as_array bind].
    destruct (update_each_entered clock id (key := js "status") (val := VStr chosen)
                k (or_introl (conj eq_refl eq_refl)) Hk 0) as [k' [E F]].
    rewrite E. cbn [bind]. eexists. split; [reflexivity|].
    cbn [with_world world state customers technicians devices].
    now apply entered_build.
  - unfold technicianChange, updateTicket.
    cbn [world state tickets as_array bind].
    assert (optional_text (or_else (VStr chosen) VUndefined) = true) as Hv
        by now destruct chosen.
    destruct (update_each_entered clock id (key := js "technicianId") k
                (or_intror (or_introl (conj eq_refl Hv))) Hk 0) as [k' [E F]].
    rewrite E. cbn [bind]. eexists. split; [reflexivity|].
    cbn [with_world world state customers technicians devices].
    now apply entered_build.
  - unfold costChange, updateTicket.
    cbn [world state tickets as_array bind].
    destruct (update_each_entered clock id (key := js "estimatedCost")
                (val := if truthy (VStr chosen) then VNum (toNumber chosen)
                        else VUndefined)
                k (or_intror (or_intror eq_refl)) Hk 0) as [k' [E F]].
    rewrite E. cbn [bind]. eexists. split; [reflexivity|].
    cbn [with_world world state customers technicians devices].
    now apply entered_build.
  - unfold deleteClick, removeTicket.
    cbn [world state tickets as_array bind].
    rewrite filterM_has_id by now apply entered_tickets_readable.
    cbn [bind]. eexists. split; [reflexivity|].
    cbn [with_world world state customers technicians devices].
    apply entered_build; try assumption. now apply forallb_filter.
  - eexists. split; [reflexivity|exact He].
Qed.

Lemma handle_all_entered (toNumber : jsstring -> number) (l : list action)
  (p : Page) :
  entered_state (state (world p)) = true ->
  exists p',
    handle_all toNumber l p = Ok p'
    /\ entered_state (state (world p')) = true.
Proof.
  revert p. induction l as [|a l IH]; intros p He.
  - exists p. split; [reflexivity|exact He].
  - destruct (handle_entered toNumber a p He) as [p1 [E1 H1]].
    destruct (IH p1 H1) as [p' [E H]]. exists p'.
    cbn [handle_all]. rewrite E1. cbn [bind]. now split.
Qed.





(* ================================================================= *)
(** ** Entered records through export and import *)











(* ================================================================= *)
(** ** updateTicket as a merge *)

Lemma obj_lookup_assign_in (k : jsstring) (v : value)
  (src : list (jsstring * value)) :
  NoDup (keys src) ->
  obj_lookup k src = Some v ->
  forall target, obj_lookup k (obj_assign target src) = Some v.
Proof.
  induction src as [|[k1 v1] src IH]; intros Hnd Hl target; [discriminate|].
  cbn [keys map fst] in Hnd. inversion Hnd as [|? ? Hk Hs]; subst.
  unfold obj_assign. cbn [fold_left fst snd]. cbn [obj_lookup] in Hl.
  destruct (str_eqb k k1) eqn:E.
  - apply str_eqb_eq in E. subst k1. injection Hl as ->.
    change (fold_left _ src ?t) with (obj_assign t src).
    rewrite obj_lookup_assign by exact Hk.
    now rewrite obj_lookup_set, str_eqb_refl.
  - now apply IH.
Qed.

Lemma merged_object (stamp : jsstring) (props : list (jsstring * value))
  (updates : value) (k : jsstring) :
  distinct (keys props) = true ->
  distinct (keys (own_props updates)) = true ->
  k <> js "updatedAt" ->
  obj_lookup k (obj_set (js "updatedAt") (VStr stamp)
                  (spread (spread [] (VObj props)) updates))
  = match obj_lookup k (own_props updates) with
    | Some v => Some v
    | None => obj_lookup k props
    end.
Proof.
  intros Hd Hu Hne. rewrite obj_lookup_set, (proj2 (str_eqb_neq _ _) Hne).
  rewrite (spread_empty_object props Hd). unfold spread.
  destruct (obj_lookup k (own_props updates)) as [v|] eqn:E.
  - apply obj_lookup_assign_in; [now apply distinct_NoDup|exact E].
  - apply obj_lookup_assign. now apply obj_lookup_none.
Qed.

Lemma update_each_merges (clock : nat -> jsstring) (id : jsstring)
  (updates : value) (l : list value) :
  distinct (keys (own_props updates)) = true ->
  forallb readable l = true ->
  forallb flat_ok l = true ->
  forall i, exists l',
    update_each clock i id updates l = Ok l'
    /\ Forall2 (merged clock id updates) l l'.
Proof.
  intros Hu. induction l as [|tk l IH]; intros Hr Hf i.
  - exists []. split; [reflexivity|constructor].
  - cbn [forallb] in Hr, Hf.
    apply andb_true_iff in Hr. destruct Hr as [Hr Hrl].
    apply andb_true_iff in Hf. destruct Hf as [Hf Hfl].
    cbn [update_each]. rewrite (get_field tk (js "id") Hr). cbn [bind].
    destruct (strict_eq (field (js "id") tk) (VStr id)) eqn:Hs.
    + destruct (IH Hrl Hfl (S i)) as [l' [E F]]. rewrite E. cbn [bind].
      eexists. split; [reflexivity|]. constructor; [|exact F].
      unfold merged. rewrite has_id_field, Hs.
      pose proof Hs as Hid. rewrite <- has_id_field in Hid.
      destruct (has_id_object id tk Hid) as [props [-> _]].
      cbn [flat_ok] in Hf. split.
      * exists i. rewrite get_obj, obj_lookup_set, str_eqb_refl. reflexivity.
      * intros k Hk. rewrite !get_obj.
        rewrite (merged_object (clock i) props updates Hf Hu Hk).
        now destruct (obj_lookup k (own_props updates)).
    + destruct (IH Hrl Hfl i) as [l' [E F]]. rewrite E. cbn [bind].
      eexists. split; [reflexivity|]. constructor; [|exact F].
      unfold merged. now rewrite has_id_field, Hs.
Qed.

(** X18.  [updateTicket] is a shallow merge.  On an array of readable
    tickets with no key twice, and with partial fields with no key twice,
    the call returns; the other collections and every ticket with another
    id are kept; in each ticket with the id, every key of the partial
    fields holds the value they give it (also when that value is
    [undefined]), [updatedAt] holds a reading of the clock, and every other
    key reads as before. *)
Theorem updateTicket_merges (clock : nat -> jsstring) (id : jsstring)
  (updates : value) (w : World) (l : list value) :
  tickets (state w) = VArr l ->
  forallb readable l = true ->
  forallb flat_ok l = true ->
  distinct (keys (own_props updates)) = true ->
  exists w' l',
    updateTicket clock id updates w = Ok w'
    /\ customers (state w') = customers (state w)
    /\ technicians (state w') = technicians (state w)
    /\ devices (state w') = devices (state w)
    /\ tickets (state w') = VArr l'
    /\ Forall2 (merged clock id updates) l l'.
Proof.
  intros Hl Hr Hf Hu.
  destruct (update_each_merges clock id updates l Hu Hr Hf 0) as [l' [E F]].
  unfold updateTicket. rewrite Hl. cbn [as_array bind]. rewrite E. cbn [bind].
  eexists. exists l'. split; [reflexivity|]. cbn [state customers technicians
                                                   devices tickets].
  repeat split. exact F.
Qed.

Lemma updateTicket_merges_witness :
  let t1 := VObj [(js "id", VStr (js "t1")); (js "status", VStr (js "New"));
                  (js "technicianId", VStr (js "u1"))] in
  let w := mkWorld (mkState (VArr []) (VArr []) (VArr []) (VArr [t1])) None in
  let updates := VObj [(js "technicianId", VUndefined)] in
  exists w' l',
    updateTicket (fun _ => js "now") (js "t1") updates w = Ok w'
    /\ tickets (state w') = VArr l'
    /\ Forall2 (merged (fun _ => js "now") (js "t1") updates) [t1] l'.
Proof.
  intros t1 w updates.
  destruct (@updateTicket_merges (fun _ => js "now") (js "t1") updates w [t1]
              eq_refl eq_refl eq_refl eq_refl)
    as [w' [l' [H1 [_ [_ [_ [H2 H3]]]]]]].
  exists w', l'. repeat split; assumption.
Defined.

(* ================================================================= *)
(** ** The technician of a ticket card *)

Lemma entered_tickets_flat (l : list value) :
  forallb entered_ticket l = true -> forallb flat_ok l = true.
Proof.
  apply forallb_weaken. intros a Ha. unfold entered_ticket in Ha.
  do 3 (apply andb_true_iff in Ha; destruct Ha as [Ha _]).
  apply andb_true_iff in Ha. now destruct Ha.
Qed.

Lemma no_technician_without_id (l : list value) :
  forallb entered_technician l = true ->
  joined (VArr l) VUndefined = VUndefined.
Proof.
  unfold joined. induction l as [|u l IH]; [reflexivity|]. cbn [forallb find].
  intros H. apply andb_true_iff in H. destruct H as [Hu Hl].
  unfold entered_technician, typed_technician in Hu.
  repeat (apply andb_true_iff in Hu; destruct Hu as [Hu ?]).
  destruct (field (js "id") u); try discriminate. cbn [strict_eq].
  now apply IH.
Qed.

Lemma Forall2_In_r {A B} (R : A -> B -> Prop) (l : list A) (l' : list B)
  (b : B) :
  Forall2 R l l' -> In b l' -> exists a, In a l /\ R a b.
Proof.
  induction 1 as [|x y l l' Hxy _ IH]; intros Hin; [destruct Hin|].
  destruct Hin as [<-|Hin].
  - exists x. split; [now left|exact Hxy].
  - destruct (IH Hin) as [a [Ha Hr]]. exists a. split; [now right|exact Hr].
Qed.

(** X19.  Assigning and unassigning show on the card.  On a state of
    entered records the technician select of a ticket returns, and every
    ticket with that id then shows: Unassigned when the empty option was
    chosen; otherwise the name of the first technician whose id is the
    chosen value, or Unassigned when there is none or it has no name. *)
Theorem technicianChange_shows (clock : nat -> jsstring) (id chosen : jsstring)
  (p : Page) :
  entered_state (state (world p)) = true ->
  exists p',
    technicianChange clock id chosen p = Ok p'
    /\ technicians (state (world p')) = technicians (state (world p))
    /\ forall t,
         In t (ticket_list (world p')) -> has_id id t = true ->
         technician_label (state (world p')) t
         = Ok (match chosen with
               | [] => VStr (js "Unassigned")
               | _ =>
                   nullish
                     (field (js "name")
                        (joined (technicians (state (world p))) (VStr chosen)))
                     (VStr (js "Unassigned"))
               end).
Proof.
  intros He.
  destruct (entered_parts _ He) as [c [t [d [k [Es [Hc [Ht [Hd Hk]]]]]]]].
  destruct p as [[s st] nc nu nd nk text al]. cbn [world state] in *. subst s.
  set (updates := VObj [(js "technicianId", or_else (VStr chosen) VUndefined)]).
  destruct (update_each_merges clock id updates k eq_refl
              (entered_tickets_readable k Hk) (entered_tickets_flat k Hk) 0)
    as [k' [E F]].
  unfold technicianChange, updateTicket. fold updates.
  cbn [world state tickets as_array bind]. rewrite E. cbn [bind].
  eexists. split; [reflexivity|].
  cbn [with_world world state customers technicians devices tickets ticket_list].
  split; [reflexivity|]. intros t' Hin Hid.
  destruct (@Forall2_In_r _ _ _ _ _ _ F Hin) as [tk [_ M]]. unfold merged in M.
  destruct (has_id id tk) eqn:Htk; [|subst t'; congruence].
  destruct M as [_ M].
  assert (js "technicianId" <> js "updatedAt") as Hne by discriminate.
  specialize (M (js "technicianId") Hne). unfold updates in M.
  cbn [own_props obj_lookup] in M. rewrite str_eqb_refl in M.
  destruct (has_id_object id t' Hid) as [props [-> _]].
  unfold technician_label.
  rewrite (find_by_id_joined entered_technician); try reflexivity.
  - unfold field at 1. rewrite M. cbn [bind]. rewrite get_opt_field. cbn [bind].
    cbn [technicians].
    destruct chosen as [|v0 vs]; cbn [or_else truthy]; [|reflexivity].
    now rewrite (no_technician_without_id t Ht).
  - intros x Hx. unfold entered_technician, typed_technician in Hx.
    repeat (apply andb_true_iff in Hx; destruct Hx as [Hx ?]). exact Hx.
  - exact Ht.
Qed.

Lemma technicianChange_shows_witness :
  let p := mkPage (mkWorld (seed_state (fun i => dec (N.of_nat i)) (js "now")) None)
             (NewCustomer.mk [] [] []) (NewTechnician.mk [])
             (NewDevice.mk (js "Laptop") [] [] [])
             (NewTicket.mk [] [] [] (js "New") [] []) [] [] in
  exists p',
    technicianChange (fun _ => js "later") (js "3") [] p = Ok p'
    /\ forall t,
         In t (ticket_list (world p')) -> has_id (js "3") t = true ->
         technician_label (state (world p')) t = Ok (VStr (js "Unassigned")).
Proof.
  intros p.
  destruct (@technicianChange_shows (fun _ => js "later") (js "3") [] p eq_refl)
    as [p' [H1 [_ H2]]].
  exists p'. split; [exact H1|exact H2].
Defined.

(* ================================================================= *)
(** ** A session of the page *)

Lemma seed_entered (uuid : nat -> jsstring) (now : jsstring) :
  uuid 0 <> [] -> uuid 2 <> [] ->
  entered_state (seed_state uuid now) = true.
Proof.
  intros H0 H2. unfold seed_state, seed_ticket.
  destruct (uuid 0) as [|a0 r0]; [now elim H0|].
  destruct (uuid 2) as [|a2 r2]; [now elim H2|]. reflexivity.
Qed.

(** X20.  From the load of the page on, the ticket list is always built.
    With identifiers that are not empty, after the first render, whatever
    the storage held, and after any clicks, selections and typing other
    than an import, [filteredTickets] returns for every filter and every
    search text: no read in it throws. *)
Theorem session_list_is_built (toNumber : jsstring -> number)
  (lower : jsstring -> jsstring) (uuid : nat -> jsstring) (now : jsstring)
  (stored : option jsstring) (l : list action) (c : NewCustomer.t)
  (u : NewTechnician.t) (d : NewDevice.t) (k : NewTicket.t)
  (flt search : jsstring) :
  (forall i, uuid i <> []) ->
  exists w p' shown,
    mount uuid now stored = Ok w
    /\ handle_all toNumber l (mkPage w c u d k [] []) = Ok p'
    /\ filteredTickets lower flt search (state (world p')) = Ok shown.
Proof.
  intros Hu. eexists.
  destruct (handle_all_entered toNumber l
              (mkPage (mkWorld (seed_state uuid now)
                         (Some (persisted 2 (seed_state uuid now))))
                 c u d k [] []) (seed_entered uuid now (Hu 0) (Hu 2)))
    as [p' [E H]].
  exists p'. apply entered_typed in H.
  assert (array_of typed_ticket (tickets (state (world p'))) = true) as Ht.
  { unfold typed_state in H. now apply andb_true_iff in H. }
  unfold filteredTickets.
  destruct (tickets (state (world p'))) as [| | | | |tl|]; try discriminate.
  cbn [as_array bind]. eexists.
  split; [apply (seed_empty uuid now empty_state _ eq_refl)|].
  split; [exact E|]. apply filterM_pure. intros t Hin.
  apply ticket_shown_spaced; [assumption|].
  cbn [array_of] in Ht. rewrite forallb_forall in Ht. now apply Ht.
Qed.

Lemma session_list_is_built_witness :
  exists w p' shown,
    mount (fun i => 49%N :: dec (N.of_nat i)) (js "now") (Some (js "{}")) = Ok w
    /\ handle_all (fun _ => NaN)
         [Typing (NewCustomer.mk (js "Ann") [] []) (NewTechnician.mk [])
            (NewDevice.mk (js "Laptop") [] [] [])
            (NewTicket.mk [] [] [] (js "New") [] []) [];
          AddCustomerClick (js "c9"); DeleteClick (js "13")]
         (mkPage w (NewCustomer.mk [] [] []) (NewTechnician.mk [])
            (NewDevice.mk (js "Laptop") [] [] [])
            (NewTicket.mk [] [] [] (js "New") [] []) [] []) = Ok p'
    /\ filteredTickets ascii_lower (js "Ready") (js "dell") (state (world p'))
       = Ok shown.
Proof.
  apply (@session_list_is_built (fun _ => NaN) ascii_lower
           (fun i => 49%N :: dec (N.of_nat i)) (js "now") (Some (js "{}"))).
  intros i. discriminate.
Defined.

(* ================================================================= *)
(** ** importAll does not validate *)

(** X21.  [importAll] takes a collection of any kind.  When the text is an
    object whose [tickets] is a number, a boolean, a string or an object,
    the import returns [null] and the store holds that value as its
    tickets; from then on [updateTicket], [removeTicket] and the ticket
    list throw. *)
Theorem importAll_takes_any_collection (json : jsstring) (w : World)
  (props : list (jsstring * value)) (v : value)
  (lower : jsstring -> jsstring) (flt search : jsstring)
  (clock : nat -> jsstring) (id : jsstring) (updates : value) :
  JSON_parse json = Ok (VObj props) ->
  obj_lookup (js "tickets") props = Some v ->
  readable v = true ->
  is_array v = false ->
  let w' := snd (importAll json w) in
  fst (importAll json w) = None
  /\ tickets (state w') = v
  /\ (exists e, updateTicket clock id updates w' = Throw e)
  /\ (exists e, removeTicket id w' = Throw e)
  /\ (exists e, filteredTickets lower flt search (state w') = Throw e).
Proof.
  intros Hp Hl Hr Ha w'. subst w'.
  unfold importAll, import_collections. rewrite Hp.
  cbn [bind get fst snd state tickets]. rewrite Hl.
  unfold updateTicket, removeTicket, filteredTickets. cbn [state tickets].
  destruct v; try discriminate; cbn [nullish as_array bind];
    repeat split; eexists; reflexivity.
Qed.

Lemma importAll_takes_any_collection_witness :
  let json := [123%N] ++ quote (js "tickets") ++ js ":5}" in
  let w' := snd (importAll json (mkWorld empty_state None)) in
  fst (importAll json (mkWorld empty_state None)) = None
  /\ tickets (state w') = VNum (Finite false [5%N] 1)
  /\ (exists e, updateTicket (fun _ => js "now") (js "t1") (VObj []) w' = Throw e)
  /\ (exists e, removeTicket (js "t1") w' = Throw e)
  /\ (exists e, filteredTickets ascii_lower (js "All") [] (state w') = Throw e).
Proof.
  intros json.
  exact (@importAll_takes_any_collection json (mkWorld empty_state None)
           [(js "tickets", VNum (Finite false [5%N] 1))]
           (VNum (Finite false [5%N] 1)) ascii_lower (js "All") []
           (fun _ => js "now") (js "t1") (VObj [])
           eq_refl eq_refl eq_refl eq_refl).
Defined.
